(** * Grow-Branches: word trees, tree distribution and kerning profiles

    A shallow embedding of [WordTree] (src/src/WordTree.js and its TypeScript
    successor), of [Tree._distributeTrees] (src/src/Tree.js, both versions)
    and of [KerningInfo._getEdge], together with the properties the
    specification states about them.

    Conventions.
    - JavaScript numbers are idealised: coordinates of the word tree are
      integers ([Z]), coordinates of the tree distribution are rationals
      ([Q]); no rounding is modelled.  What is stated about sums and
      differences of coordinates is stated of the exact values.
    - Objects live in a store ([heap]); a reference is the index of the
      object in the store, so two references alias iff they are equal.
    - A method that can throw returns a [Completion] next to the state it
      leaves behind: JavaScript keeps every mutation made before a throw.
    - A word is a [string]; its characters stand for the UTF-16 code units
      of the JavaScript string.
    - paper.js (the geometry engine) and the classes [Glyph], [Font],
      [BaseTree] and [Kerner] are interfaces: their operations are
      parameters, or are modelled from the specification where a property
      depends on what they do. *)

From Stdlib Require Import ZArith Lia String Ascii List QArith Reals Lra.
From stdpp Require Import base tactics option list gmap.

Local Open Scope Z_scope.

(** ** Completions: normal return or throw *)

Inductive JsError :=
| TypeError                      (* a property read on [undefined] *)
| GlyphNotFound (char : ascii)   (* Error("Couldn't find glyph definition for char ...") *)
| DanglingReference.             (* model only: a reference outside the store *)

Inductive Completion (A : Type) :=
| Normal (a : A)
| Throw (e : JsError).
Arguments Normal {A} a.
Arguments Throw {A} e.

Definition M (S A : Type) : Type := S -> Completion A * S.

Definition ret {S A} (a : A) : M S A := fun s => (Normal a, s).

Definition bind {S A B} (m : M S A) (f : A -> M S B) : M S B :=
  fun s => match m s with
           | (Normal a, s') => f a s'
           | (Throw e, s') => (Throw e, s')
           end.

Definition throw {S A} (e : JsError) : M S A := fun s => (Throw e, s).

Declare Scope js_scope.
Delimit Scope js_scope with js.
Notation "x <- m ;; k" := (bind m (fun x => k))
  (at level 100, m at level 99, right associativity) : js_scope.
Notation "m ;;; k" := (bind m (fun _ => k))
  (at level 100, right associativity) : js_scope.

(** [for (const a of l) body(a)]: the loop stops at the first throw. *)
Definition forEach {S A} (body : A -> M S unit) : list A -> M S unit :=
  fix loop (l : list A) : M S unit :=
    match l with
    | [] => ret tt
    | a :: l' => bind (body a) (fun _ => loop l')
    end.

(** ** Geometry as the word tree sees it *)

Record Point := mkPoint { px : Z; py : Z }.

Definition point_equals (p q : Point) : bool :=
  (px p =? px q) && (py p =? py q).

(** A [paper.CurveLocation] returned by [getIntersections]. *)
Record CurveLocation := mkLoc { point : Point; isCrossing : bool }.

(** The trunk is a [paper.Path]; only the points of its segments matter
    here.  A trunk always has a first segment. *)
Record Trunk := mkTrunk { firstSegment : Point; laterSegments : list Point }.

Definition segments (t : Trunk) : list Point :=
  firstSegment t :: laterSegments t.

(** Where an item hangs in the scene graph; an item without a parent is
    detached from the visuals. *)
Inductive ItemParent := ActiveLayer | WordTreeItem.

Inductive GrowingOrder := natural | reversed | random.

Section Glyphs.

(** The type of branch outlines ([paper.Path] objects). *)
Context {Path : Type}.

Record Glyph := mkGlyph {
  branches : list Path;
  trunk : Trunk;
  pivot : option Point           (* glyph.item.pivot *)
}.

Record GlyphDefinition := mkDef { instance : Glyph }.

Record Font := mkFont { glyphDefinitions : gmap N GlyphDefinition }.

(** The options as the constructor leaves them in the fields of the tree.
    [font] has no default: a tree made without one has [undefined] there,
    [None] here.  The other options have defaults. *)
Record WordTreeOptions := mkOptions {
  font : option Font;
  branchBottomDistance : Z;
  growingOrder : GrowingOrder;
  startAtTrunk : bool
}.

(** What the word tree uses of paper.js and of [Glyph]. *)
Class GlyphApi := {
  (* branchA.getIntersections(branchB), before the [include] filter *)
  getIntersections : Path -> Path -> list CurveLocation;
  (* glyph.item.bounds.bottomLeft.y *)
  boundsBottom : Glyph -> Z;
  (* glyph.position *)
  position : Glyph -> Point;
  (* glyph.alignAtBranch(branch), as the glyph it leaves behind *)
  alignAtBranch : Glyph -> Path -> Glyph;
  (* glyph.alignVertical() *)
  alignVertical : Glyph -> Glyph;
  (* glyph.sortBranches(growingOrder, startAtTrunk) *)
  sortBranches : GrowingOrder -> bool -> Glyph -> list Path
}.

End Glyphs.

Arguments Glyph : clear implicits.
Arguments GlyphDefinition : clear implicits.
Arguments Font : clear implicits.
Arguments WordTreeOptions : clear implicits.
Arguments GlyphApi : clear implicits.

(** ** WordTree *)

(** The repository has two versions of the class: WordTree.js and the later
    TypeScript one.  They differ in the order of the branches and in two
    extra statements of [grow]. *)
Inductive Version := JavaScript | TypeScript.

Abbreviation GlyphRef := nat.

Section WordTreeModel.

Context {Path : Type} {api : GlyphApi Path}.
Variable version : Version.
Variable options : WordTreeOptions Path.

(** The fields of a [WordTree], the store its references point into and
    the calls made so far to [font.glyphDefinitions.get] (a trace of the
    interaction with the glyph provider; no statement reads it). *)
Record WordTree := mkWordTree {
  glyphs : list GlyphRef;
  lowestGlyph : option GlyphRef;
  itemPivot : option Point;               (* this.item.pivot *)
  heap : list (Glyph Path);
  parents : gmap GlyphRef ItemParent;     (* glyph.item.parent, per glyph *)
  lookups : list N
}.

Definition Method := M WordTree.

(** new WordTree(options) *)
Definition newWordTree : WordTree :=
  {| glyphs := []; lowestGlyph := None; itemPivot := None;
     heap := []; parents := ∅; lookups := [] |}.

(** Assignments to the fields. *)
Definition set_glyphs (v : list GlyphRef) (t : WordTree) : WordTree :=
  {| glyphs := v; lowestGlyph := lowestGlyph t;
     itemPivot := itemPivot t; heap := heap t;
     parents := parents t; lookups := lookups t |}.

Definition set_lowestGlyph (v : option GlyphRef) (t : WordTree) : WordTree :=
  {| glyphs := glyphs t; lowestGlyph := v;
     itemPivot := itemPivot t; heap := heap t;
     parents := parents t; lookups := lookups t |}.

Definition set_itemPivot (v : option Point) (t : WordTree) : WordTree :=
  {| glyphs := glyphs t; lowestGlyph := lowestGlyph t;
     itemPivot := v; heap := heap t;
     parents := parents t; lookups := lookups t |}.

Definition set_heap (v : list (Glyph Path)) (t : WordTree) : WordTree :=
  {| glyphs := glyphs t; lowestGlyph := lowestGlyph t;
     itemPivot := itemPivot t; heap := v;
     parents := parents t; lookups := lookups t |}.

Definition set_parents (v : gmap GlyphRef ItemParent) (t : WordTree) : WordTree :=
  {| glyphs := glyphs t; lowestGlyph := lowestGlyph t;
     itemPivot := itemPivot t; heap := heap t;
     parents := v; lookups := lookups t |}.

Definition set_lookups (v : list N) (t : WordTree) : WordTree :=
  {| glyphs := glyphs t; lowestGlyph := lowestGlyph t;
     itemPivot := itemPivot t; heap := heap t;
     parents := parents t; lookups := v |}.

(** Reading and writing an object through a reference. *)
Definition deref (r : GlyphRef) : Method (Glyph Path) :=
  fun t => match heap t !! r with
           | Some g => (Normal g, t)
           | None => (Throw DanglingReference, t)
           end.

Definition mutate (r : GlyphRef) (f : Glyph Path -> Glyph Path) : Method unit :=
  fun t => match heap t !! r with
           | Some g => (Normal tt, set_heap (<[r := f g]> (heap t)) t)
           | None => (Throw DanglingReference, t)
           end.

(** *** Glyph methods *)

Definition set_trunk (tr : Trunk) (g : Glyph Path) : Glyph Path :=
  {| branches := branches g; trunk := tr; pivot := pivot g |}.

Definition set_pivot (p : option Point) (g : Glyph Path) : Glyph Path :=
  {| branches := branches g; trunk := trunk g; pivot := p |}.

(** Modelled from the spec: Glyph.isLowerThan, which Glyph.js defines;
    "the candidate's lowest vertical extent exceeds (is lower than) the
    current one", y growing downwards as in paper.js. *)
Definition isLowerThan (a b : Glyph Path) : bool :=
  boundsBottom b <? boundsBottom a.

(** Modelled from the spec: Glyph.remove, which Glyph.js defines; the
    glyph is "detached from the visual tree". *)
Definition remove (r : GlyphRef) : Method unit :=
  fun t => (Normal tt, set_parents (delete r (parents t)) t).

(** this.item.addChild(glyph.item) *)
Definition addChild (r : GlyphRef) : Method unit :=
  fun t => (Normal tt, set_parents (<[r := WordTreeItem]> (parents t)) t).

(** *** _createGlyph *)

Definition charCodeAt0 (char : ascii) : N := N_of_ascii char.

(** [this.font.glyphDefinitions] is read first: on a tree without a font
    that is a property read on [undefined], a TypeError.  [char] is [None]
    for [undefined], what [string[0]] is on the empty string;
    [undefined.charCodeAt] is a TypeError.  [definition.instance()]
    allocates a glyph; paper.js puts a new item into the active layer. *)
Definition _createGlyph (char : option ascii) : Method GlyphRef :=
  fun t =>
    match font options with
    | None => (Throw TypeError, t)
    | Some f =>
        match char with
        | None => (Throw TypeError, t)
        | Some c =>
            let t1 := set_lookups (lookups t ++ [charCodeAt0 c]) t in
            match glyphDefinitions f !! charCodeAt0 c with
            | None => (Throw (GlyphNotFound c), t1)
            | Some definition =>
                let r := length (heap t1) in
                (Normal r,
                 set_parents (<[r := ActiveLayer]> (parents t1))
                   (set_heap (heap t1 ++ [instance definition]) t1))
            end
        end
    end.

(** *** _addGlyph *)

Definition _addGlyph (glyph : GlyphRef) : Method unit :=
  ((fun t => (Normal tt, set_glyphs (glyphs t ++ [glyph]) t)) ;;;
   addChild glyph)%js.

(** *** _adjustTrunk *)

(** trunk.insert(0, trunk.firstSegment): paper.js inserts a copy of a
    segment that already belongs to a path; then the new first point is
    moved by [dy].

    The difference, the sum and the comparison of [_adjustTrunk] are
    those of the source, on exact integers.  They are what JavaScript
    computes as long as no operation rounds, as on coordinates that are
    integers below 2^53; on other coordinates each operation rounds to
    the nearest double, which the model leaves out. *)
Definition extendTrunk (dy : Z) (tr : Trunk) : Trunk :=
  {| firstSegment :=
       {| px := px (firstSegment tr); py := py (firstSegment tr) + dy |};
     laterSegments := firstSegment tr :: laterSegments tr |}.

Definition _adjustTrunk : Method unit :=
  fun t =>
    match lowestGlyph t with
    | None => (Normal tt, t)
    | Some lowest =>
        match glyphs t !! 0%nat with
        | None => (Throw TypeError, t)       (* firstGlyph is undefined *)
        | Some first =>
            (lowestG <- deref lowest ;;
             firstG <- deref first ;;
             let distance := boundsBottom lowestG - py (position firstG) in
             if branchBottomDistance options * -1 <? distance then
               mutate first (fun g =>
                 let tr := extendTrunk (distance + branchBottomDistance options)
                             (trunk g) in
                 set_pivot (Some (firstSegment tr)) (set_trunk tr g))
             else ret tt)%js t
        end
    end.

(** *** _crossesGlyph *)

(** The test made on one pair of branch outlines. *)
Definition pairCrosses (glyph : Glyph Path) (branchA branchB : Path) : bool :=
  let intersections :=
    List.filter
      (fun inter => negb (point_equals (point inter) (firstSegment (trunk glyph))))
      (getIntersections branchA branchB) in
  match intersections with
  | [] => false
  | first :: _ => (1 <? length intersections)%nat || isCrossing first
  end.

(** The three nested loops, all of them left by [return true]. *)
Definition crossesAny (glyph : Glyph Path) (placed : list (Glyph Path)) : bool :=
  existsb (fun other =>
    existsb (fun branchA =>
      existsb (fun branchB => pairCrosses glyph branchA branchB)
              (branches other))
            (branches glyph))
    placed.

(** glyphs[i] for every i, read through the store. *)
Fixpoint derefAll (rs : list GlyphRef) : Method (list (Glyph Path)) :=
  match rs with
  | [] => ret []
  | r :: rs' => (g <- deref r ;; gs <- derefAll rs' ;; ret (g :: gs))%js
  end.

Definition _crossesGlyph (glyph : GlyphRef) : Method bool :=
  (g <- deref glyph ;;
   placed <- (fun t => derefAll (glyphs t) t) ;;
   ret (crossesAny g placed))%js.

(** *** _growRecursive *)

Definition branchesInOrder (g : Glyph Path) : list Path :=
  match version with
  | JavaScript => branches g
  | TypeScript => sortBranches (growingOrder options) (startAtTrunk options) g
  end.

(** this.lowestGlyph =
      !lowestGlyph || glyph.isLowerThan(lowestGlyph) ? glyph : lowestGlyph *)
Definition updateLowest (glyph : GlyphRef) : Method unit :=
  fun t =>
    match lowestGlyph t with
    | None => (Normal tt, set_lowestGlyph (Some glyph) t)
    | Some lowest =>
        (g <- deref glyph ;;
         l <- deref lowest ;;
         fun t' => (Normal tt,
                    set_lowestGlyph
                      (Some (if isLowerThan g l then glyph else lowest)) t'))%js t
    end.

(** The body of the loop over the branches; [continue] is what the
    else-branch goes on with (the recursive call). *)
Definition tryBranch (char : ascii) (continue : GlyphRef -> Method unit)
    (branch : Path) : Method unit :=
  (glyph <- _createGlyph (Some char) ;;
   mutate glyph (fun g => alignAtBranch g branch) ;;;
   _adjustTrunk ;;;
   crosses <- _crossesGlyph glyph ;;
   if crosses then remove glyph
   else
     updateLowest glyph ;;;
     _addGlyph glyph ;;;
     continue glyph)%js.

Fixpoint _growRecursive (prevGlyph : GlyphRef) (string : string) {struct string}
    : Method unit :=
  match string with
  | EmptyString => ret tt
  | String char rest =>
      (prev <- deref prevGlyph ;;
       forEach (tryBranch char (fun glyph => _growRecursive glyph rest))
               (branchesInOrder prev))%js
  end.

(** *** grow *)

Definition head (s : string) : option ascii :=
  match s with EmptyString => None | String c _ => Some c end.

(** string.slice(1) *)
Definition slice1 (s : string) : string :=
  match s with EmptyString => EmptyString | String _ rest => rest end.

Definition grow (string : string) : Method unit :=
  (glyph <- _createGlyph (head string) ;;
   match version with
   | JavaScript => ret tt
   | TypeScript => mutate glyph alignVertical
   end ;;;
   _addGlyph glyph ;;;
   _growRecursive glyph (slice1 string) ;;;
   match version with
   | JavaScript => ret tt
   | TypeScript => _adjustTrunk
   end ;;;
   g <- deref glyph ;;
   fun t => (Normal tt, set_itemPivot (pivot g) t))%js.

(** *** chop *)

Definition chop : Method unit :=
  ((fun t => forEach remove (glyphs t) t) ;;;
   fun t => (Normal tt, set_lowestGlyph None (set_glyphs [] t)))%js.

End WordTreeModel.

Arguments WordTree : clear implicits.
Arguments Method : clear implicits.

(** ** A small geometry engine for concrete runs

    Outlines are polylines on the integer grid.  Two outlines intersect at
    the vertices they share; such an intersection is a crossing when the
    vertex is an inner vertex of both of them, a touch otherwise. *)
Module Grid.

Definition Path := list Point.

#[global] Instance Point_eq_dec : EqDecision Point.
Proof. solve_decision. Defined.

Definition isInner (p : Point) (path : Path) : bool :=
  match path with
  | [] => false
  | _ :: rest => bool_decide (p ∈ removelast rest)
  end.

Definition sharedVertices (a b : Path) : list CurveLocation :=
  map (fun p => {| point := p; isCrossing := isInner p a && isInner p b |})
      (List.filter (fun p => bool_decide (p ∈ b)) a).

Definition points (g : Glyph Path) : list Point :=
  segments (trunk g) ++ concat (branches g).

Definition lowestY (g : Glyph Path) : Z :=
  fold_right Z.max (py (firstSegment (trunk g))) (map py (points g)).

Definition pivotOrTrunk (g : Glyph Path) : Point :=
  match pivot g with
  | Some p => p
  | None => firstSegment (trunk g)
  end.

Definition translate (dx dy : Z) (p : Point) : Point :=
  {| px := px p + dx; py := py p + dy |}.

Definition translateGlyph (dx dy : Z) (g : Glyph Path) : Glyph Path :=
  {| branches := map (map (translate dx dy)) (branches g);
     trunk := {| firstSegment := translate dx dy (firstSegment (trunk g));
                 laterSegments := map (translate dx dy) (laterSegments (trunk g)) |};
     pivot := option_map (translate dx dy) (pivot g) |}.

(** The glyph is moved so that its trunk starts where the branch ends. *)
Definition moveToTip (g : Glyph Path) (branch : Path) : Glyph Path :=
  match last branch with
  | None => g
  | Some tip =>
      translateGlyph (px tip - px (firstSegment (trunk g)))
                     (py tip - py (firstSegment (trunk g))) g
  end.

Definition orderBranches (order : GrowingOrder) (startAtTrunk : bool)
    (g : Glyph Path) : list Path :=
  let ordered := match order with
                 | reversed => rev (branches g)
                 | _ => branches g
                 end in
  if startAtTrunk then ordered else rev ordered.

#[global] Instance api : GlyphApi Path :=
  {| getIntersections := sharedVertices;
     boundsBottom := lowestY;
     position := pivotOrTrunk;
     alignAtBranch := moveToTip;
     alignVertical := fun g => g;
     sortBranches := orderBranches |}.

Definition pt (x y : Z) : Point := {| px := x; py := y |}.

(** A glyph drawn at the origin: a trunk going up from (0,0) and its
    branches (y grows downwards). *)
Definition glyph (trunkTop : Point) (bs : list Path) : GlyphDefinition Path :=
  {| instance := {| branches := bs;
                    trunk := {| firstSegment := pt 0 0; laterSegments := [trunkTop] |};
                    pivot := None |} |}.

Definition fontOf (defs : list (ascii * GlyphDefinition Path)) : Font Path :=
  {| glyphDefinitions :=
       list_to_map (map (fun d => (N_of_ascii (fst d), snd d)) defs) |}.

Definition optionsOf (f : Font Path) : WordTreeOptions Path :=
  {| font := Some f; branchBottomDistance := 30;
     growingOrder := natural; startAtTrunk := true |}.

(** 'i' has one branch, 't' has two, 'v' has two that lean far out. *)
Definition glyph_i := glyph (pt 0 (-10)) [[pt 0 (-10); pt 0 (-20)]].
Definition glyph_t :=
  glyph (pt 0 (-10)) [[pt 0 (-10); pt (-10) (-20)]; [pt 0 (-10); pt 10 (-20)]].

Definition font_it : Font Path := fontOf [("i"%char, glyph_i); ("t"%char, glyph_t)].

(** 'p' has one long branch; the branch of 'x' runs across the middle of
    the branch it is put on; the branch of 'o' leaves its trunk origin,
    bulges out and comes back to touch the branch it is put on. *)
Definition glyph_p := glyph (pt 0 (-10)) [[pt 0 (-10); pt 0 (-20); pt 0 (-30)]].
Definition glyph_x := glyph (pt 0 (-10)) [[pt (-5) 15; pt 0 10; pt 5 15]].
Definition glyph_o := glyph (pt 0 (-10)) [[pt 0 0; pt 5 5; pt 0 10]].

Definition font_px : Font Path := fontOf [("p"%char, glyph_p); ("x"%char, glyph_x)].
Definition font_io : Font Path := fontOf [("i"%char, glyph_i); ("o"%char, glyph_o)].

End Grid.

(** ** Tree._distributeTrees *)

Module Tree.

Local Open Scope Q_scope.

(** A [paper.Rectangle], horizontally. *)
Record Rectangle := mkRect { rect_x : Q; rect_width : Q }.

Definition rect_left (r : Rectangle) : Q := rect_x r.
Definition rect_right (r : Rectangle) : Q := rect_x r + rect_width r.
Definition rect_center_x (r : Rectangle) : Q := rect_x r + rect_width r / 2.

(** A child tree (a [WordTree] or a nested [Tree]), as the distribution
    reads it: [tree.position.x] and the bounds of its item. *)
Record BaseTree := mkTree {
  name : nat;
  position_x : Q;
  bounds : Rectangle
}.

(** [center] is [None] when the source leaves it [undefined]. *)
Record DistributedTrees := mkDistributed {
  left : list BaseTree;
  center : option BaseTree;
  right : list BaseTree
}.

Definition Qlt_bool (a b : Q) : bool := negb (Qle_bool b a).

(** array[i].prop: reading a property of [undefined] is a TypeError. *)
Definition prop {A B} (a : list A) (i : Z) (f : A -> B) : Completion B :=
  match (if (i <? 0)%Z then None else a !! Z.to_nat i) with
  | Some v => Normal (f v)
  | None => Throw TypeError
  end.

(** array.pop(): the rest and the element taken, [undefined] on []. *)
Definition pop {A} (a : list A) : list A * option A :=
  (removelast a, last a).

(** array.shift() *)
Definition shift {A} (a : list A) : list A * option A :=
  (tail a, List.head a).

Definition len {A} (a : list A) : Z := Z.of_nat (length a).

Definition takeCenter (fromLeft : bool) (l r : list BaseTree) : DistributedTrees :=
  if fromLeft
  then {| left := fst (pop l); center := snd (pop l); right := r |}
  else {| left := l; center := snd (shift r); right := fst (shift r) |}.

Section Distribute.

(** this.trees and item.bounds.center.x *)
Variable trees : list BaseTree.
Variable threshold : Q.

(** for (const tree of trees) (cond ? left : right).push(tree) *)
Definition split (goesLeft : BaseTree -> bool) : list BaseTree * list BaseTree :=
  (List.filter goesLeft trees, List.filter (fun t => negb (goesLeft t)) trees).

(** Tree.js, the JavaScript version. *)
Definition _distributeTrees_js : Completion DistributedTrees :=
  match trees with
  | [t0] => Normal {| left := []; center := Some t0; right := [] |}
  | [t0; t1] => Normal {| left := [t0]; center := Some t1; right := [] |}
  | [t0; t1; t2] => Normal {| left := [t0]; center := Some t1; right := [t2] |}
  | _ =>
      let '(l, r) := split (fun t => Qlt_bool (position_x t) threshold) in
      if (len r =? 1)%Z then Normal (takeCenter true l r)
      else
        match prop l (len l - 1) (fun t => rect_width (bounds t)) with
        | Throw e => Throw e
        | Normal wl =>
            match prop r 0 (fun t => rect_width (bounds t)) with
            | Throw e => Throw e
            | Normal wr => Normal (takeCenter (Qlt_bool wl wr) l r)
            end
        end
  end.

(** Tree.js, the TypeScript version. *)
Definition _distributeTrees_ts : Completion DistributedTrees :=
  match trees with
  | [t0] => Normal {| left := []; center := Some t0; right := [] |}
  | [t0; t1] => Normal {| left := [t0]; center := Some t1; right := [] |}
  | [t0; t1; t2] => Normal {| left := [t0]; center := Some t1; right := [t2] |}
  | _ =>
      let '(l, r) := split (fun t => Qlt_bool (rect_center_x (bounds t)) threshold) in
      let leftIsBigger : Completion bool :=
        if (1 <? len l)%Z && (1 <? len r)%Z then
          match prop l (len l - 2) (fun t => rect_right (bounds t)),
                prop l 0 (fun t => rect_left (bounds t)),
                prop r (len r - 1) (fun t => rect_right (bounds t)),
                prop r 1 (fun t => rect_left (bounds t)) with
          | Normal a, Normal b, Normal c, Normal d =>
              Normal (Qlt_bool (c - d) (a - b))
          | _, _, _, _ => Throw TypeError
          end
        else
          match prop l (len l - 1) (fun t => rect_right (bounds t)) with
          | Normal a => Normal (Qlt_bool threshold a)
          | Throw e => Throw e
          end in
      match leftIsBigger with
      | Normal b => Normal (takeCenter b l r)
      | Throw e => Throw e
      end
  end.

End Distribute.

Definition _distributeTrees (v : Version) :=
  match v with
  | JavaScript => _distributeTrees_js
  | TypeScript => _distributeTrees_ts
  end.

(** The children of a result, group by group. *)
Definition members (d : DistributedTrees) : list BaseTree :=
  left d ++ match center d with Some c => [c] | None => [] end ++ right d.

(** Four word trees side by side, the first one wide and leaning to the
    left so that its pivot (the start of its trunk) is at its right edge:
    the bounds of the whole item are [0, 1300], its centre is at 650. *)
Definition leaning : list BaseTree :=
  [ {| name := 0; position_x := 1000; bounds := {| rect_x := 0; rect_width := 1000 |} |};
    {| name := 1; position_x := 1050; bounds := {| rect_x := 1000; rect_width := 100 |} |};
    {| name := 2; position_x := 1150; bounds := {| rect_x := 1100; rect_width := 100 |} |};
    {| name := 3; position_x := 1250; bounds := {| rect_x := 1200; rect_width := 100 |} |} ].

End Tree.

(** ** KerningInfo._getEdge *)

Module Kerning.

Local Open Scope nat_scope.

(** A pixel of the raster, as the bytes of the canvas. *)
Record Color := mkColor { red : Z; green : Z; blue : Z; alpha : Z }.

Definition colorRed : Color := {| red := 255; green := 0; blue := 0; alpha := 255 |}.
Definition colorBlue : Color := {| red := 0; green := 0; blue := 255; alpha := 255 |}.
Definition transparent : Color := {| red := 0; green := 0; blue := 0; alpha := 0 |}.

Record Raster := mkRaster {
  width : nat;
  height : nat;
  getPixel : nat -> nat -> Color
}.

Definition setPixel (x y : nat) (c : Color) (r : Raster) : Raster :=
  {| width := width r; height := height r;
     getPixel := fun x' y' =>
       if (x' =? x) && (y' =? y) then c else getPixel r x' y' |}.

(** if (pixel.alpha): a number is truthy when it is not zero. *)
Definition truthy (a : Z) : bool := negb (a =? 0)%Z.

Inductive Side := sideLeft | sideRight.

(** A JavaScript array that may have holes: [None] is a hole. *)
Abbreviation SparseArray := (list (option nat)).

(** edge[i] = v *)
Definition assign (edge : SparseArray) (i v : nat) : SparseArray :=
  if i <? length edge then <[i := Some v]> edge
  else edge ++ replicate (i - length edge) None ++ [Some v].

(** edge[i], [None] for [undefined] *)
Definition at_index (edge : SparseArray) (i : nat) : option nat :=
  match edge !! i with
  | Some (Some v) => Some v
  | _ => None
  end.

Section GetEdge.

(** this.debug *)
Variable debug : bool.
Variable side : Side.

Definition column (r : Raster) (i : nat) : nat :=
  match side with
  | sideLeft => i
  | sideRight => width r - 1 - i
  end.

(** The inner loop from [i] on, [n] iterations being left: the first
    [i] whose pixel has ink. *)
Fixpoint scan (r : Raster) (y n i : nat) : option nat :=
  match n with
  | O => None
  | S n' =>
      if truthy (alpha (getPixel r (column r i) y)) then Some i
      else scan r y n' (S i)
  end.

(** One turn of the outer loop. *)
Definition row (y : nat) (st : SparseArray * Raster) : SparseArray * Raster :=
  let '(edge, r) := st in
  match scan r y (width r) 0 with
  | None => (edge, r)
  | Some i =>
      let x := column r i in
      let v := match side with sideLeft => x | sideRight => width r - 1 - x end in
      (assign edge y v,
       if debug
       then setPixel x y (match side with sideLeft => colorRed | sideRight => colorBlue end) r
       else r)
  end.

(** The outer loop from [y] on, [n] rows being left. *)
Fixpoint rows (n y : nat) (st : SparseArray * Raster) : SparseArray * Raster :=
  match n with
  | O => st
  | S n' => rows n' (S y) (row y st)
  end.

Definition _getEdge (r : Raster) : SparseArray * Raster :=
  rows (height r) 0 ([], r).

End GetEdge.

Record Edges := mkEdges { left : SparseArray; right : SparseArray }.

(** _getEdges: the left edge, then the right edge of the same raster. *)
Definition _getEdges (debug : bool) (r : Raster) : Edges * Raster :=
  let '(l, r1) := _getEdge debug sideLeft r in
  let '(rt, r2) := _getEdge debug sideRight r1 in
  ({| left := l; right := rt |}, r2).

(** Modelled from the spec: the rows the Kerner compares (Kerner.js
    defines them), "each row present in both shapes' opposing
    edge profiles". *)
Definition comparedRows (rightOfFirst leftOfSecond : SparseArray) : list nat :=
  List.filter
    (fun y => match at_index rightOfFirst y, at_index leftOfSecond y with
              | Some _, Some _ => true
              | _, _ => false
              end)
    (seq 0 (Nat.max (length rightOfFirst) (length leftOfSecond))).

(** Ink in row [y] of the raster. *)
Definition lit (r : Raster) (x y : nat) : Prop := alpha (getPixel r x y) <> 0%Z.

(** Two rasters with ink at the same places. *)
Definition sameInk (r r' : Raster) : Prop :=
  width r' = width r /\ height r' = height r /\
  forall x y, lit r' x y <-> lit r x y.

(** What the loop of [_getEdge] writes for a row, read off the raster:
    the number of columns without ink before the first one with ink,
    counted from the side. *)
Definition inset (side : Side) (r : Raster) (y : nat) : option nat :=
  scan side r y (width r) 0.

(** A raster given by its rows of alpha values. *)
Definition ofRows (w : nat) (alphas : list (list Z)) : Raster :=
  {| width := w; height := length alphas;
     getPixel := fun x y =>
       {| red := 0; green := 0; blue := 0;
          alpha := match alphas !! y with
                   | Some row => match row !! x with Some a => a | None => 0%Z end
                   | None => 0%Z
                   end |} |}.

End Kerning.

(** ** Notions used to state the properties of the word tree *)

Section WordTreeNotions.

Context {Path : Type} {api : GlyphApi Path}.
Variable options : WordTreeOptions Path.

(** The body of the loop of [_growRecursive] up to the recursive call:
    [Some glyph] when the candidate was placed, [None] when it was
    rejected. *)
Definition placeCandidate (char : ascii) (branch : Path)
    : Method Path (option GlyphRef) :=
  (glyph <- _createGlyph options (Some char) ;;
   mutate glyph (fun g => alignAtBranch g branch) ;;;
   _adjustTrunk options ;;;
   crosses <- _crossesGlyph glyph ;;
   if crosses then remove glyph ;;; ret None
   else
     updateLowest glyph ;;;
     _addGlyph glyph ;;;
     ret (Some glyph))%js.

(** The statements of [placeCandidate] before the crossing test. *)
Definition prepareCandidate (char : ascii) (branch : Path)
    : Method Path GlyphRef :=
  (glyph <- _createGlyph options (Some char) ;;
   mutate glyph (fun g => alignAtBranch g branch) ;;;
   _adjustTrunk options ;;;
   ret glyph)%js.

(** Every reference of the tree points into the store, and no glyph is
    listed twice. *)
Record wf (t : WordTree Path) : Prop := mkWf {
  wf_nodup : NoDup (glyphs t);
  wf_glyphs : forall r, r ∈ glyphs t -> (r < length (heap t))%nat;
  wf_lowest : forall l, lowestGlyph t = Some l -> (l < length (heap t))%nat
}.

(** What [lowestGlyph] is after a candidate [r], the object [cand], was
    accepted. *)
Definition newLowest (objects : list (Glyph Path)) (lowest : option GlyphRef)
    (r : GlyphRef) (cand : Glyph Path) : option GlyphRef :=
  match lowest with
  | None => Some r
  | Some l =>
      match objects !! l with
      | Some gl => Some (if isLowerThan cand gl then r else l)
      | None => Some l
      end
  end.

(** The root glyph, [this.glyphs[0]], as an object. *)
Definition firstGlyph (t : WordTree Path) : option (Glyph Path) :=
  match glyphs t !! 0%nat with
  | Some first => heap t !! first
  | None => None
  end.

(** The glyphs other than the root, as references. *)
Definition grafted (t : WordTree Path) : list GlyphRef := tail (glyphs t).


(** Between [t0] and [t] the store only grew, and the items of the glyphs
    of [t0] hang where they hung. *)
Definition frozenFrom (t0 t : WordTree Path) : Prop :=
  (length (heap t0) <= length (heap t))%nat /\
  forall r, (r < length (heap t0))%nat -> parents t !! r = parents t0 !! r.


(** The calls to the glyph provider made between two states. *)
Definition lookupsSince (t t' : WordTree Path) : list N :=
  drop (length (lookups t)) (lookups t').

(** The definition the font of the tree has for a character code; there
    is none when the tree has no font. *)
Definition definitionOf (code : N) : option (GlyphDefinition Path) :=
  match font options with
  | Some f => glyphDefinitions f !! code
  | None => None
  end.

Definition defined (code : N) : Prop := is_Some (definitionOf code).

(** A method that asks the glyph provider nothing and does not throw the
    glyph-not-found error. *)
Definition quiet {A} (m : Method Path A) : Prop :=
  forall t, lookups (snd (m t)) = lookups t /\
            forall char, fst (m t) <> Throw (GlyphNotFound char).

(** A method whose lookups all succeed, except that a glyph-not-found
    error is thrown by its last lookup, which names the character. *)
Definition traced {A} (m : Method Path A) : Prop :=
  forall t, exists new,
    lookups (snd (m t)) = lookups t ++ new /\
    match fst (m t) with
    | Throw (GlyphNotFound char) =>
        exists earlier, new = earlier ++ [charCodeAt0 char] /\
                        Forall defined earlier /\ ~ defined (charCodeAt0 char)
    | _ => Forall defined new
    end.

(** The intersections that count for a pair of outlines: those away from
    the trunk origin of [glyph]. *)
Definition countedIntersections (glyph : Glyph Path) (branchA branchB : Path)
    : list CurveLocation :=
  List.filter
    (fun inter => negb (point_equals (point inter) (firstSegment (trunk glyph))))
    (getIntersections branchA branchB).

(** At most one intersection, and that one not a crossing. *)
Definition touchesAtMost (inters : list CurveLocation) : Prop :=
  inters = [] \/ exists i, inters = [i] /\ isCrossing i = false.

(** More than one intersection, or one that is a crossing. *)
Definition crossesOrRepeats (inters : list CurveLocation) : Prop :=
  (1 < length inters)%nat \/ exists i, inters = [i] /\ isCrossing i = true.

(** Every glyph of the list against every glyph placed before it. *)
Definition neverCrosses (t : WordTree Path) : Prop :=
  forall i j ri rj gi gj branchA branchB,
    (i < j)%nat ->
    glyphs t !! i = Some ri -> glyphs t !! j = Some rj ->
    heap t !! ri = Some gi -> heap t !! rj = Some gj ->
    branchA ∈ branches gj -> branchB ∈ branches gi ->
    touchesAtMost (countedIntersections gj branchA branchB).

(** [lowestGlyph] is unset while nothing is grafted; otherwise it refers
    to a grafted glyph of the list below which no grafted glyph reaches. *)
Definition lowestIsLowest (t : WordTree Path) : Prop :=
  match lowestGlyph t with
  | None => grafted t = []
  | Some l =>
      l ∈ grafted t /\
      exists gl, heap t !! l = Some gl /\
        forall r g, r ∈ grafted t -> heap t !! r = Some g ->
                    boundsBottom g <= boundsBottom gl
  end.

(** How far a trunk was extended: [later] is [earlier] with new first
    segments put in front, each lower than the one before. *)
Inductive extends : Trunk -> Trunk -> Prop :=
| extends_refl tr : extends tr tr
| extends_step tr tr' dy :
    extends tr tr' -> 0 < dy -> extends tr (extendTrunk dy tr').

(** The statements of [grow] after the recursion. *)
Definition finishGrow (version : Version) (glyph : GlyphRef) : Method Path unit :=
  (match version with
   | JavaScript => ret tt
   | TypeScript => _adjustTrunk options
   end ;;;
   g <- deref glyph ;;
   fun t => (Normal tt, set_itemPivot (pivot g) t))%js.

(** The tree once [grow] has put the root, the object [root], into it. *)
Definition withRoot (t : WordTree Path) (code : N) (root : Glyph Path)
    : WordTree Path :=
  let r := length (heap t) in
  {| glyphs := glyphs t ++ [r]; lowestGlyph := lowestGlyph t;
     itemPivot := itemPivot t; heap := heap t ++ [root];
     parents := <[r := WordTreeItem]> (<[r := ActiveLayer]> (parents t));
     lookups := lookups t ++ [code] |}.

(** The root as [grow] puts it. *)
Definition rootObject (version : Version) (definition : GlyphDefinition Path)
    : Glyph Path :=
  match version with
  | JavaScript => instance definition
  | TypeScript => alignVertical (instance definition)
  end.

(** A tree that has its root. *)
Definition rooted (t : WordTree Path) : Prop := wf t /\ glyphs t <> [].

(** One turn of the loop of [_growRecursive], from state to state: the
    lookup fails, or a candidate [cand] is allocated at [r], the trunk of
    the root is adjusted, and the candidate is rejected or placed. *)
Inductive step (t : WordTree Path) : WordTree Path -> Prop :=
| step_missing (f : Font Path) (code : N) :
    font options = Some f -> glyphDefinitions f !! code = None ->
    step t (set_lookups (lookups t ++ [code]) t)
| step_candidate (first : GlyphRef) (fg fg' cand : Glyph Path)
      (placed : list (Glyph Path)) (code : N) :
    glyphs t !! 0%nat = Some first -> heap t !! first = Some fg ->
    branches fg' = branches fg -> extends (trunk fg) (trunk fg') ->
    defined code ->
    let r := length (heap t) in
    let heap' := <[first := fg']> (heap t ++ [cand]) in
    Forall2 (fun ref g => heap' !! ref = Some g) (glyphs t) placed ->
    step t
      (if crossesAny cand placed
       then {| glyphs := glyphs t; lowestGlyph := lowestGlyph t;
               itemPivot := itemPivot t; heap := heap';
               parents := delete r (<[r := ActiveLayer]> (parents t));
               lookups := lookups t ++ [code] |}
       else {| glyphs := glyphs t ++ [r];
               lowestGlyph := newLowest heap' (lowestGlyph t) r cand;
               itemPivot := itemPivot t; heap := heap';
               parents := <[r := WordTreeItem]> (<[r := ActiveLayer]> (parents t));
               lookups := lookups t ++ [code] |}).


(** The Euclidean length of a polyline. *)
Definition segmentLength (p q : Point) : R :=
  sqrt (IZR ((px q - px p) * (px q - px p) + (py q - py p) * (py q - py p))).

Fixpoint pathLength (pts : list Point) : R :=
  match pts with
  | p :: (q :: _) as rest => (segmentLength p q + pathLength rest)%R
  | _ => 0%R
  end.

(** The trunk of the root of [t] is the trunk [tr] with segments put in
    front. *)
Definition trunkFrom (tr : Trunk) (t : WordTree Path) : Prop :=
  exists fg, firstGlyph t = Some fg /\ extends tr (trunk fg).

(** root.trunk.length, 0 without a root. *)
Definition trunkLength (t : WordTree Path) : R :=
  match firstGlyph t with
  | Some g => pathLength (segments (trunk g))
  | None => 0%R
  end.


End WordTreeNotions.

(** ** Words and trees for the concrete runs *)

Module GridWords.

Import Grid.

Definition options_px := optionsOf font_px.
Definition options_it := optionsOf font_it.
Definition options_io := optionsOf font_io.

(** The tree in which 'p' stands and the 'x' is about to be tried. *)
Definition tree_p : WordTree Path :=
  withRoot newWordTree (N_of_ascii "p") (instance glyph_p).

Definition branch_p : Path := [pt 0 (-10); pt 0 (-20); pt 0 (-30)].


End GridWords.

(** ** Further notions: kerning profiles *)

Module KerningNotions.

Import Kerning.
Local Open Scope nat_scope.

(** The raster seen in a mirror: column [x] shows column [width - 1 - x]. *)
Definition mirror (r : Raster) : Raster :=
  {| width := width r; height := height r;
     getPixel := fun x y => getPixel r (width r - 1 - x) y |}.

(** Row [y] has ink somewhere. *)
Definition inked (r : Raster) (y : nat) : Prop :=
  exists x, x < width r /\ lit r x y.

(** The pixels without ink are those of [r0], colour included. *)
Definition sameBlanks (r0 r : Raster) : Prop :=
  forall x y, ~ lit r0 x y -> getPixel r x y = getPixel r0 x y.

(** A JavaScript array whose last element is not a hole. *)
Definition noTrailingHole (edge : SparseArray) : Prop :=
  edge = [] \/ exists v, last edge = Some (Some v).

End KerningNotions.

(** ** Further notions: the word tree *)

Section WordTreeMoreNotions.

Context {Path : Type} {api : GlyphApi Path}.
Variable options : WordTreeOptions Path.

(** The error is the glyph-not-found error for a character of the word
    that has no glyph in the font. *)
Definition missingIn (word : string) (e : JsError) : Prop :=
  match e with
  | GlyphNotFound char =>
      char ∈ list_ascii_of_string word /\ ~ defined options (charCodeAt0 char)
  | _ => False
  end.

(** Every glyph allocated since [t0] is in the glyph list and hangs in
    the item of the tree, or is in neither: none is left in the active
    layer. *)
Definition tidySince (t0 t : WordTree Path) : Prop :=
  forall r, (length (heap t0) <= r < length (heap t))%nat ->
            ((r ∈ glyphs t) /\ parents t !! r = Some WordTreeItem) \/
            ((r ∉ glyphs t) /\ parents t !! r = None).

(** A reference of a tree grown from scratch, as the same run on [base]
    has it: the store of [base] comes first. *)
Definition shifted (base : WordTree Path) (r : GlyphRef) : GlyphRef :=
  (length (heap base) + r)%nat.

(** [again] is [fresh] built on top of [base]: the same glyph objects in
    the same order behind the objects of [base], the same lookups after
    those of [base], the same attachments, and nothing of [base] touched. *)
Definition regrown (base fresh again : WordTree Path) : Prop :=
  glyphs again = shifted base <$> glyphs fresh /\
  lowestGlyph again = shifted base <$> lowestGlyph fresh /\
  heap again = heap base ++ heap fresh /\
  lookups again = lookups base ++ lookups fresh /\
  (forall r, (r < length (heap fresh))%nat ->
             parents again !! shifted base r = parents fresh !! r) /\
  (forall r, (r < length (heap base))%nat ->
             parents again !! r = parents base !! r).

(** Two runs that go the same way, one from a tree and one from that
    tree built on top of [base]; [RA] relates what they return. *)
Definition simulates {A} (base : WordTree Path) (RA : A -> A -> Prop)
    (m m' : Method Path A) : Prop :=
  forall t t', regrown base t t' ->
    match m t, m' t' with
    | (Normal a, s), (Normal a', s') => RA a a' /\ regrown base s s'
    | (Throw e, s), (Throw e', s') => e = e' /\ regrown base s s'
    | _, _ => False
    end.

(** The tree spells the word.  [levels] gives the level of every glyph of
    the list, the root being at level 0.  Every glyph after the root is
    the glyph the font has for the character of the word at its level,
    aligned at a branch of a glyph that is earlier in the list and one
    level up; the branch is one of those the parent offered when the loop
    over its branches began, which for the root is the root as [grow] put
    it in, [root0]. *)
Definition spelled (version : Version) (word : string) (root0 : Glyph Path)
    (t : WordTree Path) (levels : list nat) : Prop :=
  length levels = length (glyphs t) /\
  forall i r k,
    (0 < i)%nat -> glyphs t !! i = Some r -> levels !! i = Some k ->
    exists j rp kp char definition branch parent,
      (j < i)%nat /\ glyphs t !! j = Some rp /\ levels !! j = Some kp /\
      k = S kp /\
      String.get k word = Some char /\
      definitionOf options (charCodeAt0 char) = Some definition /\
      ((j = 0%nat /\ parent = root0) \/
       ((0 < j)%nat /\ heap t !! rp = Some parent)) /\
      branch ∈ branchesInOrder version options parent /\
      heap t !! r = Some (alignAtBranch (instance definition) branch).

(** The glyph at place [i] of the list as the loop over its branches read
    it: the root as [grow] put it in, a grafted glyph as it is in the
    store (it is not touched after it was placed). *)
Definition asRead (root0 : Glyph Path) (t : WordTree Path) (i : nat) (r : GlyphRef)
    : option (Glyph Path) :=
  match i with
  | O => Some root0
  | S _ => heap t !! r
  end.

(** A candidate was made for each of the branches [bs], in their order:
    the store has [definition] aligned at each branch, at references
    from [lo] on that grow with the branches. *)
Definition triedInOrder (lo : nat) (t : WordTree Path)
    (definition : GlyphDefinition Path) (bs : list Path) : Prop :=
  exists rs,
    Forall2 (fun r b => heap t !! r = Some (alignAtBranch (instance definition) b))
            rs bs /\
    (forall m n r1 r2, (m < n)%nat -> rs !! m = Some r1 -> rs !! n = Some r2 ->
                       (r1 < r2)%nat) /\
    Forall (fun r => (lo <= r < length (heap t))%nat) rs.

(** The glyph at place [i] was served: when the word has a character
    after its level and the glyph offers a branch, the font has a glyph
    for that character and a candidate was made for every branch. *)
Definition servedAt (version : Version) (word : string) (root0 : Glyph Path)
    (lo : nat) (t : WordTree Path) (levels : list nat) (i : nat) : Prop :=
  forall r k parent char,
    glyphs t !! i = Some r -> levels !! i = Some k ->
    asRead root0 t i r = Some parent ->
    String.get (S k) word = Some char ->
    branchesInOrder version options parent <> [] ->
    exists definition,
      definitionOf options (charCodeAt0 char) = Some definition /\
      triedInOrder lo t definition (branchesInOrder version options parent).

(** Every glyph of the list was served. *)
Definition everyBranchTried (version : Version) (word : string) (root0 : Glyph Path)
    (lo : nat) (t : WordTree Path) (levels : list nat) : Prop :=
  forall i, servedAt version word root0 lo t levels i.

(** Growth reaches a character that has no glyph: a glyph of the list
    offers a branch, and the character of the word after its level has no
    definition. *)
Definition reachesUndefined (version : Version) (word : string) (root0 : Glyph Path)
    (t : WordTree Path) (levels : list nat) (char : ascii) : Prop :=
  exists i r k parent,
    glyphs t !! i = Some r /\ levels !! i = Some k /\
    asRead root0 t i r = Some parent /\
    branchesInOrder version options parent <> [] /\
    String.get (S k) word = Some char /\
    ~ defined options (charCodeAt0 char).

(** From [t] to [s] the glyph list and the store only grew, and no glyph
    of the store other than the root was touched. *)
Definition kept (t s : WordTree Path) : Prop :=
  glyphs t `prefix_of` glyphs s /\
  (length (heap t) <= length (heap s))%nat /\
  forall r, (r < length (heap t))%nat -> glyphs t !! 0%nat <> Some r ->
            heap s !! r = heap t !! r.

End WordTreeMoreNotions.

(** ** A font with a glyph that has no branch *)

Module GridBare.

Import Grid.

(** 'b' is a bare trunk. *)
Definition glyph_b := glyph (pt 0 (-10)) [].

Definition font_bi : Font Path := fontOf [("b"%char, glyph_b); ("i"%char, glyph_i)].

Definition options_bi := optionsOf font_bi.

(** [new WordTree()]: no font, the other options at their defaults. *)
Definition options_none : WordTreeOptions Path :=
  {| font := None; branchBottomDistance := 30;
     growingOrder := natural; startAtTrunk := true |}.

End GridBare.

(** * Concrete runs *)

Example grid_it_js :
  let '(c, t) := grow JavaScript (Grid.optionsOf Grid.font_it) "it" newWordTree in
  c = Normal tt /\ glyphs t = [0; 1]%nat /\ lowestGlyph t = Some 1%nat.
Proof. vm_compute. auto. Qed.

Example grid_tt_ts :
  let '(c, t) := grow TypeScript (Grid.optionsOf Grid.font_it) "tt" newWordTree in
  c = Normal tt /\ glyphs t = [0; 1; 2]%nat /\ lowestGlyph t = Some 1%nat.
Proof. vm_compute. auto. Qed.

Example grid_px_js :
  let '(c, t) := grow JavaScript (Grid.optionsOf Grid.font_px) "px" newWordTree in
  c = Normal tt /\ glyphs t = [0]%nat /\ lowestGlyph t = None /\
  length (heap t) = 2%nat /\ parents t !! 1%nat = None.
Proof. vm_compute. auto. Qed.

Example grid_io_js :
  let '(c, t) := grow JavaScript (Grid.optionsOf Grid.font_io) "io" newWordTree in
  c = Normal tt /\ glyphs t = [0; 1]%nat.
Proof. vm_compute. auto. Qed.

Example grid_missing :
  let '(c, t) := grow JavaScript (Grid.optionsOf Grid.font_it) "ia" newWordTree in
  c = Throw (GlyphNotFound "a") /\ glyphs t = [0]%nat.
Proof. vm_compute. auto. Qed.

(** * Properties of the kerning profiles *)

Module KerningProofs.

Import Kerning.
Local Open Scope nat_scope.

Lemma truthy_lit r x y : truthy (alpha (getPixel r x y)) = true <-> lit r x y.
Proof.
  unfold truthy, lit. rewrite negb_true_iff, Z.eqb_neq. reflexivity.
Qed.

Lemma sameInk_refl r : sameInk r r.
Proof. unfold sameInk. intuition. Qed.

Lemma sameInk_trans a b c : sameInk a b -> sameInk b c -> sameInk a c.
Proof.
  unfold sameInk. intros (?&?&Hab) (?&?&Hbc). repeat split; try congruence.
  - intros. apply Hab, Hbc. assumption.
  - intros. apply Hbc, Hab. assumption.
Qed.

(** Painting a pixel that has ink leaves the ink where it is. *)
Lemma setPixel_sameInk r x y c :
  lit r x y -> alpha c <> 0%Z -> sameInk r (setPixel x y c r).
Proof.
  intros Hl Hc. unfold sameInk, setPixel, lit; simpl. repeat split; trivial.
  - intros H. destruct ((x0 =? x) && (y0 =? y)) eqn:E; trivial.
    apply andb_true_iff in E as [E1 E2].
    apply Nat.eqb_eq in E1, E2. subst. assumption.
  - intros H. destruct ((x0 =? x) && (y0 =? y)) eqn:E; trivial.
Qed.

Section Scan.
Variable side : Side.

Lemma scan_Some r y n i j :
  scan side r y n i = Some j <->
  (i <= j < i + n /\ lit r (column side r j) y /\
   forall k, i <= k < j -> ~ lit r (column side r k) y).
Proof.
  revert i. induction n as [|n IH]; intros i; simpl.
  - split; [discriminate | lia].
  - destruct (truthy (alpha (getPixel r (column side r i) y))) eqn:E.
    + apply truthy_lit in E. split.
      * intros [= <-]. repeat split; try lia; trivial.
      * intros (Hj & Hl & Hmin). f_equal.
        destruct (decide (i = j)) as [->|Hne]; trivial.
        exfalso. apply (Hmin i); [lia | assumption].
    + assert (Hn : ~ lit r (column side r i) y).
      { rewrite <- truthy_lit. congruence. }
      rewrite IH. split.
      * intros (Hj & Hl & Hmin). repeat split; try lia; trivial.
        intros k Hk. destruct (decide (k = i)) as [->|]; trivial.
        apply Hmin. lia.
      * intros (Hj & Hl & Hmin).
        assert (i <> j) by (intros ->; contradiction).
        repeat split; try lia; trivial. intros k Hk. apply Hmin. lia.
Qed.

Lemma scan_None r y n i :
  scan side r y n i = None <->
  forall k, i <= k < i + n -> ~ lit r (column side r k) y.
Proof.
  revert i. induction n as [|n IH]; intros i; simpl.
  - split; [intros _ k; lia | trivial].
  - destruct (truthy (alpha (getPixel r (column side r i) y))) eqn:E.
    + apply truthy_lit in E. split; [discriminate|].
      intros H. exfalso. apply (H i); [lia | assumption].
    + assert (Hn : ~ lit r (column side r i) y).
      { rewrite <- truthy_lit. congruence. }
      rewrite IH. split.
      * intros H k Hk. destruct (decide (k = i)) as [->|]; trivial.
        apply H. lia.
      * intros H k Hk. apply H. lia.
Qed.

Lemma scan_sameInk r r' y n i :
  sameInk r r' -> scan side r' y n i = scan side r y n i.
Proof.
  intros (Hw & _ & Hl). revert i. induction n as [|n IH]; intros i; simpl; trivial.
  assert (E : truthy (alpha (getPixel r' (column side r' i) y)) =
              truthy (alpha (getPixel r (column side r i) y))).
  { apply eq_true_iff_eq. rewrite !truthy_lit.
    unfold column. rewrite Hw. apply Hl. }
  rewrite E, IH. reflexivity.
Qed.
End Scan.

Lemma assign_length edge i v : length edge <= i -> length (assign edge i v) = S i.
Proof.
  intros H. unfold assign.
  destruct (i <? length edge) eqn:E; [apply Nat.ltb_lt in E; lia|]; cbv iota.
  rewrite !length_app, length_replicate. simpl. lia.
Qed.

Lemma assign_at_new edge i v : length edge <= i -> at_index (assign edge i v) i = Some v.
Proof.
  intros H. unfold assign, at_index.
  destruct (i <? length edge) eqn:E; [apply Nat.ltb_lt in E; lia|]; cbv iota.
  rewrite lookup_app_r by lia.
  rewrite lookup_app_r by (rewrite length_replicate; lia).
  rewrite length_replicate.
  replace (i - length edge - (i - length edge)) with 0 by lia. reflexivity.
Qed.

Lemma assign_at_old edge i v j :
  length edge <= i -> j < i -> at_index (assign edge i v) j = at_index edge j.
Proof.
  intros H Hj. unfold assign, at_index.
  destruct (i <? length edge) eqn:E; [apply Nat.ltb_lt in E; lia|]; cbv iota.
  destruct (decide (j < length edge)) as [Hlt|Hge].
  - rewrite lookup_app_l by lia. reflexivity.
  - rewrite lookup_app_r by lia. rewrite lookup_app_l by (rewrite length_replicate; lia).
    rewrite lookup_replicate_2 by lia.
    rewrite (lookup_ge_None_2 edge j) by lia. reflexivity.
Qed.

Lemma at_index_ge edge i : length edge <= i -> at_index edge i = None.
Proof. intros H. unfold at_index. rewrite lookup_ge_None_2 by lia. reflexivity. Qed.

Section Rows.
Variables (debug : bool) (side : Side).

(** The value written for a row where the scan stopped at [i]. *)
Lemma written_value r i :
  i < width r ->
  match side with
  | sideLeft => column side r i
  | sideRight => width r - 1 - column side r i
  end = i.
Proof. unfold column. destruct side; lia. Qed.

Lemma row_spec r0 y edge r :
  sameInk r0 r -> length edge <= y ->
  let '(edge', r') := row debug side y (edge, r) in
  sameInk r0 r' /\ length edge' <= S y /\
  at_index edge' y = inset side r0 y /\
  forall j, j < y -> at_index edge' j = at_index edge j.
Proof.
  intros Hs Hlen. unfold row, inset.
  pose proof (scan_sameInk side r0 r y (width r) 0 Hs) as Escan.
  assert (Hw : width r = width r0) by apply Hs.
  rewrite Hw in Escan.
  rewrite Hw. rewrite Escan.
  destruct (scan side r0 y (width r0) 0) as [i|] eqn:E.
  - assert (Hi : i < width r).
    { apply scan_Some in E. lia. }
    pose proof (written_value r i Hi) as Hv. rewrite Hw in Hv.
    assert (Hval : match side with
                   | sideLeft => column side r i
                   | sideRight => width r0 - 1 - column side r i
                   end = i) by exact Hv.
    rewrite Hval.
    split; [|split; [|split]].
    + destruct debug; [|exact Hs].
      eapply sameInk_trans; [exact Hs|]. apply setPixel_sameInk.
      * apply Hs. apply scan_Some in E as (_ & Hl & _).
        unfold column in *. rewrite Hw. exact Hl.
      * destruct side; discriminate.
    + rewrite assign_length by lia. lia.
    + apply assign_at_new. lia.
    + intros j Hj. apply assign_at_old; lia.
  - split; [|split; [|split]]; trivial; try lia.
    apply at_index_ge. lia.
Qed.

Lemma rows_spec r0 n y edge r :
  sameInk r0 r -> length edge <= y ->
  let '(edge', r') := rows debug side n y (edge, r) in
  sameInk r0 r' /\ length edge' <= y + n /\
  (forall j, y <= j < y + n -> at_index edge' j = inset side r0 j) /\
  forall j, j < y -> at_index edge' j = at_index edge j.
Proof.
  revert y edge r. induction n as [|n IH]; intros y edge r Hs Hlen; cbn [rows].
  - split; [|split; [|split]]; trivial; try lia.
  - pose proof (row_spec r0 y edge r Hs Hlen) as Hrow.
    destruct (row debug side y (edge, r)) as [edge1 r1].
    destruct Hrow as (Hs1 & Hlen1 & Hy & Hold).
    specialize (IH (S y) edge1 r1 Hs1 Hlen1).
    destruct (rows debug side n (S y) (edge1, r1)) as [edge2 r2].
    destruct IH as (Hs2 & Hlen2 & Hnew & Hold2).
    split; [|split; [|split]]; trivial; try lia.
    + intros j Hj. destruct (decide (j = y)) as [->|].
      * rewrite Hold2 by lia. exact Hy.
      * apply Hnew. lia.
    + intros j Hj. rewrite Hold2 by lia. apply Hold. lia.
Qed.

(** The entry of every row is the inset of that row, and painting the
    edge pixels moves no ink. *)
Lemma getEdge_inset r0 r :
  sameInk r0 r ->
  sameInk r0 (snd (_getEdge debug side r)) /\
  length (fst (_getEdge debug side r)) <= height r /\
  forall y, y < height r ->
            at_index (fst (_getEdge debug side r)) y = inset side r0 y.
Proof.
  intros Hs. unfold _getEdge.
  pose proof (rows_spec r0 (height r) 0 [] r Hs (Nat.le_0_l _)) as H.
  destruct (rows debug side (height r) 0 ([], r)) as [edge' r'].
  destruct H as (Hs' & Hlen & Hnew & _). simpl.
  split; [|split]; trivial; try lia.
  intros y Hy. apply Hnew. lia.
Qed.
End Rows.

Lemma inset_left r y x :
  inset sideLeft r y = Some x <->
  (x < width r /\ lit r x y /\ forall x', x' < x -> ~ lit r x' y).
Proof.
  unfold inset. rewrite scan_Some. unfold column. split.
  - intros (H & Hl & Hmin). repeat split; try lia; trivial.
    intros x' Hx'. apply Hmin. lia.
  - intros (H & Hl & Hmin). repeat split; try lia; trivial.
    intros k Hk. apply Hmin. lia.
Qed.

Lemma inset_right r y v :
  inset sideRight r y = Some v <->
  (v < width r /\ lit r (width r - 1 - v) y /\
   forall x', width r - 1 - v < x' < width r -> ~ lit r x' y).
Proof.
  unfold inset. rewrite scan_Some. unfold column. split.
  - intros (H & Hl & Hmin). repeat split; try lia; trivial.
    intros x' Hx'.
    replace x' with (width r - 1 - (width r - 1 - x')) by lia.
    apply Hmin. lia.
  - intros (H & Hl & Hmin). repeat split; try lia; trivial.
    intros k Hk. apply Hmin. lia.
Qed.

Lemma inset_None side r y :
  (forall x, x < width r -> ~ lit r x y) -> inset side r y = None.
Proof.
  intros H. unfold inset. apply scan_None. intros k Hk.
  apply H. unfold column. destruct side; lia.
Qed.

Lemma comparedRows_present a b y :
  In y (comparedRows a b) -> at_index a y <> None /\ at_index b y <> None.
Proof.
  unfold comparedRows. rewrite filter_In. intros [_ H].
  destruct (at_index a y), (at_index b y); try discriminate. split; discriminate.
Qed.

(** C9, as the code has it.  For every row [y] of the raster handed to
    [_getEdges]: the entry of the left profile is the leftmost column with
    ink; the entry of the right profile is [v] exactly when column
    [width - 1 - v] is the rightmost column with ink (the number of empty
    columns at the right, not the column itself); a row without ink has no
    entry in either profile and is not among the rows that are compared.
    Painting the edge pixels in debug mode changes none of this. *)
Theorem getEdges_profiles (debug : bool) (r : Raster) (y : nat) :
  y < height r ->
  let edges := fst (_getEdges debug r) in
  (forall x, at_index (left edges) y = Some x <->
             (x < width r /\ lit r x y /\ forall x', x' < x -> ~ lit r x' y)) /\
  (forall v, at_index (right edges) y = Some v <->
             (v < width r /\ lit r (width r - 1 - v) y /\
              forall x', width r - 1 - v < x' < width r -> ~ lit r x' y)) /\
  ((forall x, x < width r -> ~ lit r x y) ->
   at_index (left edges) y = None /\ at_index (right edges) y = None /\
   forall other, ~ In y (comparedRows (right edges) other) /\
                 ~ In y (comparedRows other (left edges))).
Proof.
  intros Hy. unfold _getEdges.
  destruct (getEdge_inset debug sideLeft r r (sameInk_refl r)) as (Hs1 & _ & Hl).
  destruct (_getEdge debug sideLeft r) as [l r1] eqn:E1. simpl in Hs1, Hl.
  destruct (getEdge_inset debug sideRight r r1 Hs1) as (_ & _ & Hr).
  destruct (_getEdge debug sideRight r1) as [rt r2] eqn:E2. simpl in Hr.
  assert (Hh : height r1 = height r) by apply Hs1.
  cbn [fst left right].
  rewrite (Hl y Hy), (Hr y ltac:(lia)).
  split; [|split].
  - intros x. apply inset_left.
  - intros v. apply inset_right.
  - intros Hno. rewrite !inset_None by assumption.
    split; [reflexivity|]. split; [reflexivity|].
    intros other. split; intros Hin; apply comparedRows_present in Hin as [Ha Hb].
    + apply Ha. rewrite (Hr y ltac:(lia)). apply inset_None. assumption.
    + apply Hb. rewrite (Hl y Hy). apply inset_None. assumption.
Qed.

Lemma getEdges_profiles_witness :
  let r := ofRows 4 [[0; 255; 255; 0]; [0; 0; 0; 0]; [7; 0; 0; 0]]%Z in
  at_index (left (fst (_getEdges true r))) 0 = Some 1 /\
  at_index (right (fst (_getEdges true r))) 2 = Some 3 /\
  at_index (left (fst (_getEdges true r))) 1 = None.
Proof.
  intros r.
  pose proof (getEdges_profiles true r 0 ltac:(simpl; lia)) as (H0 & _ & _).
  pose proof (getEdges_profiles true r 2 ltac:(simpl; lia)) as (_ & H2 & _).
  pose proof (getEdges_profiles true r 1 ltac:(simpl; lia)) as (_ & _ & H1).
  split; [|split].
  - apply H0. unfold lit; simpl. repeat split; try lia.
    intros x' Hx'. destruct x' as [|x']; [simpl; lia | lia].
  - apply H2. unfold lit; simpl. repeat split; try lia.
    intros x' Hx'. destruct x' as [|[|[|[|x']]]]; simpl in *; lia.
  - apply H1. intros x Hx. unfold lit; simpl.
    destruct x as [|[|[|[|x]]]]; simpl in *; lia.
Defined.

(** C9 as the specification words it fails: in a row whose only ink is in
    column 1 of 4, the right profile records 2, and column 2 has no ink. *)
Lemma right_profile_is_not_the_column :
  ~ (forall (debug : bool) (r : Raster) (y v : nat),
       y < height r ->
       at_index (right (fst (_getEdges debug r))) y = Some v ->
       lit r v y /\ forall x', v < x' < width r -> ~ lit r x' y).
Proof.
  intros H.
  destruct (H true (ofRows 4 [[0; 255; 0; 0]]%Z) 0 2) as [Hl _].
  - simpl. lia.
  - vm_compute. reflexivity.
  - apply Hl. reflexivity.
Qed.

End KerningProofs.

(** * Properties of the distribution of child trees *)

Module TreeProofs.

Import Tree.

(** One, two and three children: the groups are fixed, whatever the
    geometry (both versions of Tree.js). *)
Lemma distribute_small (v : Version) (threshold : Q) (t0 t1 t2 : BaseTree) :
  _distributeTrees v [t0] threshold
    = Normal {| left := []; center := Some t0; right := [] |} /\
  _distributeTrees v [t0; t1] threshold
    = Normal {| left := [t0]; center := Some t1; right := [] |} /\
  _distributeTrees v [t0; t1; t2] threshold
    = Normal {| left := [t0]; center := Some t1; right := [t2] |}.
Proof. destruct v; repeat split; reflexivity. Qed.

Lemma split_Permutation (trees : list BaseTree) (f : BaseTree -> bool) :
  Permutation (fst (split trees f) ++ snd (split trees f)) trees.
Proof.
  unfold split; simpl. induction trees as [|t ts IH]; simpl; [constructor|].
  destruct (f t); simpl.
  - constructor. exact IH.
  - rewrite <- Permutation_middle. constructor. exact IH.
Qed.

Lemma last_removelast {A} (l : list A) :
  l <> [] -> exists x, last l = Some x /\ l = removelast l ++ [x].
Proof.
  induction l as [|a l IH]; [congruence|]. intros _.
  destruct l as [|b l]; [exists a; split; reflexivity|].
  destruct IH as (x & Hx & Hl); [congruence|].
  exists x. split; [exact Hx|].
  change (removelast (a :: b :: l)) with (a :: removelast (b :: l)).
  simpl app. f_equal. exact Hl.
Qed.

Lemma takeCenter_members (b : bool) (l r : list BaseTree) :
  l <> [] -> r <> [] ->
  exists c, center (takeCenter b l r) = Some c /\
            members (takeCenter b l r) = l ++ r.
Proof.
  intros Hl Hr. destruct b; unfold takeCenter, members, pop, shift; simpl.
  - destruct (last_removelast l Hl) as (x & Hx & E). exists x. rewrite Hx.
    split; [reflexivity|]. rewrite E at 2. rewrite <- app_assoc. reflexivity.
  - destruct r as [|c r]; [congruence|]. exists c. split; reflexivity.
Qed.

Lemma prop_Normal {A B} (a : list A) (i : Z) (f : A -> B) :
  (0 <= i < len a)%Z -> exists b, prop a i f = Normal b.
Proof.
  intros H. unfold prop, len in *.
  destruct (i <? 0)%Z eqn:E; [apply Z.ltb_lt in E; lia|].
  destruct (a !! Z.to_nat i) as [x|] eqn:Ex; [eauto|].
  apply lookup_ge_None in Ex. lia.
Qed.

Lemma len_pos {A} (a : list A) : a <> [] -> (1 <= len a)%Z.
Proof. destruct a; [congruence|]. unfold len; simpl; lia. Qed.

(** Four or more children: when the threshold leaves at least one child
    on each side, a centre is chosen and the three groups hold every child
    once. *)
Lemma distribute_many (v : Version) (trees : list BaseTree) (threshold : Q) :
  (4 <= length trees)%nat ->
  let goesLeft := match v with
                  | JavaScript => fun t => Qlt_bool (position_x t) threshold
                  | TypeScript => fun t => Qlt_bool (rect_center_x (bounds t)) threshold
                  end in
  fst (split trees goesLeft) <> [] -> snd (split trees goesLeft) <> [] ->
  exists d c, _distributeTrees v trees threshold = Normal d /\
              center d = Some c /\ Permutation (members d) trees.
Proof.
  intros Hn goesLeft Hl Hr.
  pose proof (split_Permutation trees goesLeft) as HP.
  destruct trees as [|t0 [|t1 [|t2 [|t3 rest]]]]; simpl in Hn; try lia.
  set (trees := t0 :: t1 :: t2 :: t3 :: rest) in *.
  destruct v; cbn [_distributeTrees]; unfold _distributeTrees_js, _distributeTrees_ts;
    fold trees; fold goesLeft;
    destruct (split trees goesLeft) as [l r]; simpl in Hl, Hr, HP;
    pose proof (len_pos l Hl); pose proof (len_pos r Hr).
  - destruct (len r =? 1)%Z.
    + destruct (takeCenter_members true l r Hl Hr) as (c & Hc & Hm).
      eexists _, c. split; [reflexivity|]. split; [exact Hc|]. rewrite Hm; exact HP.
    + destruct (prop_Normal l (len l - 1) (fun t => rect_width (bounds t))) as [wl ->]; [lia|].
      destruct (prop_Normal r 0 (fun t => rect_width (bounds t))) as [wr ->]; [lia|].
      destruct (takeCenter_members (Qlt_bool wl wr) l r Hl Hr) as (c & Hc & Hm).
      eexists _, c. split; [reflexivity|]. split; [exact Hc|]. rewrite Hm; exact HP.
  - destruct ((1 <? len l)%Z && (1 <? len r)%Z) eqn:E.
    + apply andb_true_iff in E as [E1 E2]. apply Z.ltb_lt in E1, E2.
      destruct (prop_Normal l (len l - 2) (fun t => rect_right (bounds t))) as [a ->]; [lia|].
      destruct (prop_Normal l 0 (fun t => rect_left (bounds t))) as [b ->]; [lia|].
      destruct (prop_Normal r (len r - 1) (fun t => rect_right (bounds t))) as [c' ->]; [lia|].
      destruct (prop_Normal r 1 (fun t => rect_left (bounds t))) as [d' ->]; [lia|].
      destruct (takeCenter_members (Qlt_bool (c' - d') (a - b)) l r Hl Hr) as (c & Hc & Hm).
      eexists _, c. split; [reflexivity|]. split; [exact Hc|]. rewrite Hm; exact HP.
    + destruct (prop_Normal l (len l - 1) (fun t => rect_right (bounds t))) as [a ->]; [lia|].
      destruct (takeCenter_members (Qlt_bool threshold a) l r Hl Hr) as (c & Hc & Hm).
      eexists _, c. split; [reflexivity|]. split; [exact Hc|]. rewrite Hm; exact HP.
Qed.

(** C4 at four children whose pivots all lie right of the centre of the
    bounds: the left group stays empty, [right.length] is 4, and
    [left[left.length - 1].item] is read on [undefined].  The JavaScript
    version throws instead of choosing a centre. *)
Theorem distribute_js_leaning_throws :
  _distributeTrees JavaScript leaning 650 = Throw TypeError.
Proof. vm_compute. reflexivity. Qed.

(** The TypeScript version splits by the centres of the bounds and chooses
    a centre there. *)
Lemma distribute_ts_leaning :
  exists d, _distributeTrees TypeScript leaning 650 = Normal d /\
            map name (left d) = [] /\ option_map name (center d) = Some 0%nat /\
            map name (right d) = [1; 2; 3]%nat.
Proof. eexists. split; [vm_compute; reflexivity|]. repeat split. Qed.

(** The TypeScript version has the same unguarded read.  Four children
    with the same bounds all go right. *)
Lemma distribute_ts_stacked_throws :
  let t := {| name := 0; position_x := 0; bounds := {| rect_x := 0; rect_width := 10 |} |} in
  _distributeTrees TypeScript [t; t; t; t] 5 = Throw TypeError.
Proof. vm_compute. reflexivity. Qed.

End TreeProofs.

(** * Properties of the word tree *)

Section WordTreeProofs.

Context {Path : Type} {api : GlyphApi Path}.
Variable version : Version.
Variable options : WordTreeOptions Path.

Implicit Types (t : WordTree Path) (g : Glyph Path) (r : GlyphRef).

Lemma set_heap_same t : set_heap (heap t) t = t.
Proof. destruct t; reflexivity. Qed.

(** ** Running the pieces *)

Lemma definitionOf_font code definition :
  definitionOf options code = Some definition ->
  exists f, font options = Some f /\ glyphDefinitions f !! code = Some definition.
Proof.
  unfold definitionOf. destruct (font options) as [f|]; [eauto | discriminate].
Qed.

Lemma definitionOf_Some f code definition :
  font options = Some f -> glyphDefinitions f !! code = Some definition ->
  definitionOf options code = Some definition.
Proof. intros Hf H. unfold definitionOf. rewrite Hf. exact H. Qed.

Lemma definitionOf_None f code :
  font options = Some f -> glyphDefinitions f !! code = None ->
  definitionOf options code = None.
Proof. intros Hf H. unfold definitionOf. rewrite Hf. exact H. Qed.

Lemma createGlyph_defined c t definition :
  definitionOf options (charCodeAt0 c) = Some definition ->
  _createGlyph options (Some c) t =
  (Normal (length (heap t)),
   set_parents (<[length (heap t) := ActiveLayer]> (parents t))
     (set_heap (heap t ++ [instance definition])
        (set_lookups (lookups t ++ [charCodeAt0 c]) t))).
Proof.
  intros H. destruct (definitionOf_font _ _ H) as (f & Hf & Hd).
  unfold _createGlyph. rewrite Hf, Hd. reflexivity.
Qed.

Lemma createGlyph_missing f c t :
  font options = Some f -> glyphDefinitions f !! charCodeAt0 c = None ->
  _createGlyph options (Some c) t =
  (Throw (GlyphNotFound c), set_lookups (lookups t ++ [charCodeAt0 c]) t).
Proof. intros Hf Hd. unfold _createGlyph. rewrite Hf, Hd. reflexivity. Qed.

Lemma createGlyph_nofont char t :
  font options = None -> _createGlyph options char t = (Throw TypeError, t).
Proof. intros Hf. unfold _createGlyph. rewrite Hf. reflexivity. Qed.

Lemma tryBranch_split char continue branch t :
  tryBranch options char continue branch t =
  bind (placeCandidate options char branch)
       (fun o => match o with Some glyph => continue glyph | None => ret tt end) t.
Proof.
  unfold tryBranch, placeCandidate, bind.
  destruct (_createGlyph options (Some char) t) as [[glyph|e] t1]; try reflexivity.
  destruct (mutate glyph _ t1) as [[[]|e] t2]; try reflexivity.
  destruct (_adjustTrunk options t2) as [[[]|e] t3]; try reflexivity.
  destruct (_crossesGlyph glyph t3) as [[[|]|e] t4]; try reflexivity.
  destruct (updateLowest glyph t4) as [[[]|e] t5]; try reflexivity.
Qed.

Lemma forEach_cons {A} (body : A -> Method Path unit) a l t :
  forEach body (a :: l) t = bind (body a) (fun _ => forEach body l) t.
Proof. reflexivity. Qed.

Lemma growRecursive_String char rest prev t :
  _growRecursive version options prev (String char rest) t =
  match heap t !! prev with
  | Some pg =>
      forEach (tryBranch options char
                 (fun glyph => _growRecursive version options glyph rest))
              (branchesInOrder version options pg) t
  | None => (Throw DanglingReference, t)
  end.
Proof.
  cbn [_growRecursive]. unfold bind, deref. destruct (heap t !! prev); reflexivity.
Qed.

(** One turn of the loop, then the rest of the loop. *)
Lemma forEach_tryBranch char continue b bs t :
  forEach (tryBranch options char continue) (b :: bs) t =
  match placeCandidate options char b t with
  | (Normal (Some glyph), t1) =>
      match continue glyph t1 with
      | (Normal _, t2) => forEach (tryBranch options char continue) bs t2
      | (Throw e, t2) => (Throw e, t2)
      end
  | (Normal None, t1) => forEach (tryBranch options char continue) bs t1
  | (Throw e, t1) => (Throw e, t1)
  end.
Proof.
  rewrite forEach_cons. unfold bind at 1. rewrite tryBranch_split. unfold bind at 1.
  destruct (placeCandidate options char b t) as [[[glyph|]|e] t1]; reflexivity.
Qed.

Lemma derefAll_run rs t :
  (forall r, r ∈ rs -> (r < length (heap t))%nat) ->
  exists gs, derefAll rs t = (Normal gs, t) /\
             Forall2 (fun r g => heap t !! r = Some g) rs gs.
Proof.
  induction rs as [|r rs IH]; intros H; simpl.
  - exists []. split; [reflexivity | constructor].
  - destruct (lookup_lt_is_Some_2 (heap t) r) as [g Hg].
    { apply H. left. }
    destruct IH as (gs & E & HF).
    { intros r' Hr'. apply H. right. exact Hr'. }
    exists (g :: gs). unfold bind, deref, ret. rewrite Hg, E.
    split; [reflexivity | constructor; assumption].
Qed.

Lemma extends_trans a b c : extends a b -> extends b c -> extends a c.
Proof. intros Hab Hbc. induction Hbc; [assumption | constructor; auto]. Qed.

Lemma adjustTrunk_run t first fg :
  glyphs t !! 0%nat = Some first -> heap t !! first = Some fg ->
  (forall l, lowestGlyph t = Some l -> (l < length (heap t))%nat) ->
  exists fg',
    _adjustTrunk options t = (Normal tt, set_heap (<[first := fg']> (heap t)) t) /\
    branches fg' = branches fg /\
    (fg' = fg \/
     exists l lg, lowestGlyph t = Some l /\ heap t !! l = Some lg /\
       let distance := boundsBottom lg - py (position fg) in
       py (position fg) - boundsBottom lg < branchBottomDistance options /\
       trunk fg' = extendTrunk (distance + branchBottomDistance options) (trunk fg) /\
       pivot fg' = Some (firstSegment (trunk fg'))).
Proof.
  intros Hfirst Hfg Hlow. unfold _adjustTrunk.
  destruct (lowestGlyph t) as [l|] eqn:El.
  - rewrite Hfirst. unfold bind, deref, mutate, ret.
    destruct (lookup_lt_is_Some_2 (heap t) l (Hlow l eq_refl)) as [lg Hlg].
    rewrite Hlg, Hfg.
    destruct (branchBottomDistance options * -1 <? boundsBottom lg - py (position fg)) eqn:E.
    + rewrite Hfg. eexists. split; [reflexivity|]. split; [reflexivity|].
      right. exists l, lg. apply Z.ltb_lt in E.
      repeat split; trivial. lia.
    + exists fg. rewrite list_insert_id by assumption. rewrite set_heap_same.
      repeat split; trivial. left; trivial.
  - exists fg. rewrite list_insert_id by assumption. rewrite set_heap_same.
    repeat split; trivial. left; trivial.
Qed.

Lemma adjustTrunk_extends t first fg :
  glyphs t !! 0%nat = Some first -> heap t !! first = Some fg ->
  (forall l, lowestGlyph t = Some l -> (l < length (heap t))%nat) ->
  exists fg',
    _adjustTrunk options t = (Normal tt, set_heap (<[first := fg']> (heap t)) t) /\
    branches fg' = branches fg /\ extends (trunk fg) (trunk fg').
Proof.
  intros H1 H2 H3.
  destruct (adjustTrunk_run t first fg H1 H2 H3) as (fg' & E & Hb & Hc).
  exists fg'. split; [exact E|]. split; [exact Hb|].
  destruct Hc as [->|(l & lg & _ & _ & Hd & Ht & _)]; [constructor|].
  rewrite Ht. constructor; [constructor | lia].
Qed.

Lemma insert_fresh {A} (l : list A) (x y : A) :
  <[length l := y]> (l ++ [x]) = l ++ [y].
Proof.
  rewrite insert_app_r_alt by lia.
  replace (length l - length l)%nat with 0%nat by lia. reflexivity.
Qed.

(** The loop body on a well-formed tree, when the font has the glyph: the
    state it leaves, for a rejected and for a placed candidate. *)
Lemma placeCandidate_run t char branch first fg definition :
  wf t -> glyphs t !! 0%nat = Some first -> heap t !! first = Some fg ->
  definitionOf options (charCodeAt0 char) = Some definition ->
  let r := length (heap t) in
  let cand := alignAtBranch (instance definition) branch in
  exists fg' placed,
    let heap' := <[first := fg']> (heap t ++ [cand]) in
    branches fg' = branches fg /\ extends (trunk fg) (trunk fg') /\
    Forall2 (fun ref g => heap' !! ref = Some g) (glyphs t) placed /\
    placeCandidate options char branch t =
      if crossesAny cand placed
      then (Normal None,
            {| glyphs := glyphs t; lowestGlyph := lowestGlyph t;
               itemPivot := itemPivot t; heap := heap';
               parents := delete r (<[r := ActiveLayer]> (parents t));
               lookups := lookups t ++ [charCodeAt0 char] |})
      else (Normal (Some r),
            {| glyphs := glyphs t ++ [r];
               lowestGlyph := newLowest heap' (lowestGlyph t) r cand;
               itemPivot := itemPivot t; heap := heap';
               parents := <[r := WordTreeItem]> (<[r := ActiveLayer]> (parents t));
               lookups := lookups t ++ [charCodeAt0 char] |}).
Proof.
  intros Hwf Hfirst Hfg Hdef r cand.
  assert (Hlt : (first < length (heap t))%nat).
  { apply Hwf. eapply list_elem_of_lookup_2. exact Hfirst. }
  set (t2 := {| glyphs := glyphs t; lowestGlyph := lowestGlyph t;
                itemPivot := itemPivot t; heap := heap t ++ [cand];
                parents := <[r := ActiveLayer]> (parents t);
                lookups := lookups t ++ [charCodeAt0 char] |}).
  destruct (adjustTrunk_extends t2 first fg) as (fg' & Eadj & Hbr & Hext).
  { exact Hfirst. }
  { simpl. rewrite lookup_app_l by exact Hlt. exact Hfg. }
  { simpl. intros l Hl. rewrite length_app. pose proof (wf_lowest t Hwf l Hl). lia. }
  set (heap' := <[first := fg']> (heap t ++ [cand])).
  set (t3 := set_heap heap' t2) in *.
  assert (Hcand : heap' !! r = Some cand).
  { unfold heap'. rewrite list_lookup_insert_ne by (unfold r; lia).
    unfold r. rewrite lookup_app_r by lia.
    replace (length (heap t) - length (heap t))%nat with 0%nat by lia. reflexivity. }
  destruct (derefAll_run (glyphs t3) t3) as (placed & Eplaced & HF).
  { intros r' Hr'. simpl. unfold heap'. rewrite length_insert, length_app.
    pose proof (wf_glyphs t Hwf r' Hr'). lia. }
  exists fg', placed. split; [exact Hbr|]. split; [exact Hext|]. split; [exact HF|].
  unfold placeCandidate, bind at 1. rewrite (createGlyph_defined char t definition Hdef).
  cbv zeta. unfold bind at 1. unfold mutate at 1. cbn [heap set_parents set_heap set_lookups].
  rewrite lookup_app_r by lia.
  replace (length (heap t) - length (heap t))%nat with 0%nat by lia.
  cbn [lookup list_lookup]. rewrite insert_fresh.
  fold cand. fold r.
  change (set_heap (heap t ++ [cand]) _) with t2.
  unfold bind at 1. rewrite Eadj.
  change (set_heap (<[first := fg']> (heap t2)) t2) with t3.
  unfold bind at 1. unfold _crossesGlyph, bind, deref, ret.
  change (heap t3) with heap'. rewrite Hcand. rewrite Eplaced.
  destruct (crossesAny cand placed) eqn:Ecross.
  - reflexivity.
  - unfold updateLowest. cbn [lowestGlyph t3 set_heap t2].
    unfold newLowest.
    destruct (lowestGlyph t) as [l|] eqn:El.
    + destruct (lookup_lt_is_Some_2 heap' l) as [gl Hgl].
      { unfold heap'. rewrite length_insert, length_app.
        pose proof (wf_lowest t Hwf l El). lia. }
      unfold bind, deref. change (heap t3) with heap'. rewrite Hcand.
      cbv beta iota. change (heap t3) with heap'. rewrite Hgl.
      unfold heap' in Hgl |- *. rewrite Hgl. reflexivity.
    + reflexivity.
Qed.

Lemma placeCandidate_missing f t char branch :
  font options = Some f -> glyphDefinitions f !! charCodeAt0 char = None ->
  placeCandidate options char branch t =
  (Throw (GlyphNotFound char), set_lookups (lookups t ++ [charCodeAt0 char]) t).
Proof.
  intros Hf H. unfold placeCandidate, bind at 1.
  rewrite (createGlyph_missing f char t Hf H). reflexivity.
Qed.


Lemma placeCandidate_nofont t char branch :
  font options = None ->
  placeCandidate options char branch t = (Throw TypeError, t).
Proof.
  intros Hf. unfold placeCandidate, bind at 1.
  rewrite (createGlyph_nofont (Some char) t Hf). reflexivity.
Qed.

Lemma rooted_first t :
  rooted t -> exists first fg, glyphs t !! 0%nat = Some first /\ heap t !! first = Some fg.
Proof.
  intros [Hwf Hne]. destruct (glyphs t) as [|first rest] eqn:E; [congruence|].
  exists first.
  destruct (lookup_lt_is_Some_2 (heap t) first) as [fg Hfg].
  { apply Hwf. rewrite E. left. }
  exists fg. split; [reflexivity | exact Hfg].
Qed.

(** ** The loop body as a step *)

Lemma placeCandidate_step f t char branch :
  font options = Some f ->
  rooted t -> step options t (snd (placeCandidate options char branch t)).
Proof.
  intros Hfont Hr. destruct (rooted_first t Hr) as (first & fg & Hfirst & Hfg).
  destruct (glyphDefinitions f !! charCodeAt0 char) as [definition|] eqn:E0.
  - pose proof (definitionOf_Some f _ definition Hfont E0) as E.
    destruct (placeCandidate_run t char branch first fg definition (proj1 Hr) Hfirst Hfg E)
      as (fg' & placed & Hb & Hext & HF & Erun).
    rewrite Erun.
    pose proof (step_candidate options t first fg fg'
                  (alignAtBranch (instance definition) branch) placed
                  (charCodeAt0 char) Hfirst Hfg Hb Hext) as Hstep.
    cbv zeta in Hstep. specialize (Hstep ltac:(unfold defined; rewrite E; eauto) HF).
    destruct (crossesAny _ placed); exact Hstep.
  - rewrite (placeCandidate_missing f) by assumption. simpl.
    apply (step_missing options t f); assumption.
Qed.

(** Without a font no candidate is made and nothing changes. *)
Lemma growRecursive_nofont string prev t :
  font options = None ->
  snd (_growRecursive version options prev string t) = t.
Proof.
  intros Hfont. destruct string as [|char rest]; [reflexivity|].
  rewrite growRecursive_String. destruct (heap t !! prev) as [pg|]; [|reflexivity].
  destruct (branchesInOrder version options pg) as [|b bs]; [reflexivity|].
  rewrite forEach_tryBranch, (placeCandidate_nofont t char b Hfont). reflexivity.
Qed.

Lemma step_rooted t t' : rooted t -> step options t t' -> rooted t'.
Proof.
  intros [Hwf Hne] Hstep. destruct Hstep
    as [f0 code Hf0 Hc | first fg fg' cand placed code Hfirst Hfg Hb Hext Hdef r heap' HF].
  - split; [|exact Hne]. destruct Hwf as [H1 H2 H3]. constructor; assumption.
  - assert (Hlen : length heap' = S (length (heap t))).
    { unfold heap'. rewrite length_insert, length_app. simpl. lia. }
    destruct Hwf as [H1 H2 H3].
    destruct (crossesAny cand placed).
    + split; [|exact Hne]. constructor; cbn [glyphs heap lowestGlyph].
      * exact H1.
      * intros r' Hr'. rewrite Hlen. specialize (H2 r' Hr'). lia.
      * intros l Hl. rewrite Hlen. specialize (H3 l Hl). lia.
    + split; [|cbn [glyphs]; destruct (glyphs t); simpl; congruence].
      constructor; cbn [glyphs heap lowestGlyph].
      * apply NoDup_app. split; [exact H1|]. split; [|apply NoDup_singleton].
        intros x Hx Hx'. apply list_elem_of_singleton in Hx'. subst x.
        specialize (H2 _ Hx). unfold r in H2. lia.
      * intros r' Hr'. rewrite Hlen. apply elem_of_app in Hr' as [Hr'|Hr'].
        -- specialize (H2 r' Hr'). lia.
        -- apply list_elem_of_singleton in Hr'. subst r'. unfold r. lia.
      * intros l Hl. rewrite Hlen. unfold newLowest in Hl.
        destruct (lowestGlyph t) as [l0|] eqn:El.
        -- specialize (H3 l0 eq_refl).
           destruct (heap' !! l0) as [gl|].
           ++ destruct (isLowerThan cand gl); injection Hl as <-; unfold r; lia.
           ++ injection Hl as <-. lia.
        -- injection Hl as <-. unfold r. lia.
Qed.

(** A property of states kept by every step is kept by the whole
    recursion, whatever way it ends. *)
Lemma growRecursive_invariant (I : WordTree Path -> Prop) :
  (forall t t', rooted t -> I t -> step options t t' -> I t') ->
  forall string prev t,
    rooted t -> I t ->
    rooted (snd (_growRecursive version options prev string t)) /\
    I (snd (_growRecursive version options prev string t)).
Proof.
  intros Hstep.
  destruct (font options) as [f|] eqn:Hfont;
    [|intros string prev t Hr HI; rewrite growRecursive_nofont by exact Hfont; auto].
  induction string as [|char rest IH]; intros prev t Hr HI.
  - simpl. auto.
  - rewrite growRecursive_String.
    destruct (heap t !! prev) as [pg|]; [|simpl; auto].
    generalize (branchesInOrder version options pg). intros bs.
    revert t Hr HI. induction bs as [|b bs IHbs]; intros t Hr HI.
    + simpl. auto.
    + rewrite forEach_tryBranch. cbv beta.
      pose proof (placeCandidate_step f t char b Hfont Hr) as Hs.
      destruct (placeCandidate options char b t) as [[[glyph|]|e] t1]; simpl in Hs.
      * pose proof (step_rooted _ _ Hr Hs) as Hr1.
        pose proof (Hstep _ _ Hr HI Hs) as HI1.
        destruct (IH glyph t1 Hr1 HI1) as [Hr2 HI2].
        destruct (_growRecursive version options glyph rest t1) as [[[]|e] t2];
          simpl in Hr2, HI2; [apply IHbs; assumption | simpl; auto].
      * apply IHbs; [eapply step_rooted; eauto | eapply Hstep; eauto].
      * simpl. split; [eapply step_rooted; eauto | eapply Hstep; eauto].
Qed.

(** ** The empty word *)

(** C10.  [grow] of the empty word throws in its first statement,
    [_createGlyph] of the undefined first character, and leaves the tree
    as it was: no glyph is added, and the glyph list of a new tree is still
    empty. *)
Theorem grow_empty_throws (t : WordTree Path) :
  grow version options EmptyString t = (Throw TypeError, t) /\
  glyphs (snd (grow version options EmptyString newWordTree)) = [].
Proof.
  split; unfold grow, bind, _createGlyph; cbn [head];
    destruct (font options); reflexivity.
Qed.

(** ** Trunk adjustment *)


(** ** Rejection *)

Lemma createGlyph_frame char t :
  glyphs (snd (_createGlyph options char t)) = glyphs t /\
  lowestGlyph (snd (_createGlyph options char t)) = lowestGlyph t.
Proof.
  unfold _createGlyph. destruct (font options) as [f|]; [|auto].
  destruct char as [c|]; [|auto].
  destruct (glyphDefinitions f !! charCodeAt0 c); auto.
Qed.

Lemma mutate_frame r f t :
  glyphs (snd (mutate r f t)) = glyphs t /\
  lowestGlyph (snd (mutate r f t)) = lowestGlyph t /\
  parents (snd (mutate r f t)) = parents t /\
  lookups (snd (mutate r f t)) = lookups t.
Proof. unfold mutate. destruct (heap t !! r); auto. Qed.

Lemma adjustTrunk_frame t :
  glyphs (snd (_adjustTrunk options t)) = glyphs t /\
  lowestGlyph (snd (_adjustTrunk options t)) = lowestGlyph t /\
  parents (snd (_adjustTrunk options t)) = parents t /\
  lookups (snd (_adjustTrunk options t)) = lookups t.
Proof.
  unfold _adjustTrunk. destruct (lowestGlyph t) as [l|] eqn:El; [|auto].
  destruct (glyphs t !! 0%nat) as [first|]; [|auto].
  unfold bind, deref, ret.
  destruct (heap t !! l) as [lg|]; [|auto].
  destruct (heap t !! first) as [fg|]; [|auto].
  destruct (_ <? _); [|auto].
  pose proof (mutate_frame first
    (fun g => set_pivot
       (Some (firstSegment (extendTrunk (boundsBottom lg - py (position fg) +
                                         branchBottomDistance options) (trunk g))))
       (set_trunk (extendTrunk (boundsBottom lg - py (position fg) +
                                branchBottomDistance options) (trunk g)) g)) t)
    as (H1 & H2 & H3 & H4).
  rewrite H1, H2, H3, H4, El. auto.
Qed.

Lemma prepareCandidate_frame char branch t :
  glyphs (snd (prepareCandidate options char branch t)) = glyphs t /\
  lowestGlyph (snd (prepareCandidate options char branch t)) = lowestGlyph t.
Proof.
  unfold prepareCandidate, bind.
  pose proof (createGlyph_frame (Some char) t) as [H1 H2].
  destruct (_createGlyph options (Some char) t) as [[glyph|e] t1]; [|auto].
  simpl in H1, H2.
  pose proof (mutate_frame glyph (fun g => alignAtBranch g branch) t1) as (H3 & H4 & _).
  destruct (mutate glyph _ t1) as [[[]|e] t2]; simpl in H3, H4;
    [|split; simpl; congruence].
  pose proof (adjustTrunk_frame t2) as (H5 & H6 & _).
  destruct (_adjustTrunk options t2) as [[[]|e] t3]; simpl in H5, H6;
    split; simpl; congruence.
Qed.

Lemma prepareCandidate_ref char branch t glyph t2 :
  prepareCandidate options char branch t = (Normal glyph, t2) ->
  glyph = length (heap t).
Proof.
  unfold prepareCandidate, bind, _createGlyph.
  destruct (font options) as [f|]; [|discriminate].
  destruct (glyphDefinitions f !! charCodeAt0 char); [|discriminate].
  cbv zeta.
  destruct (mutate _ _ _) as [[[]|e] t1]; [|discriminate].
  destruct (_adjustTrunk options t1) as [[[]|e] t3]; [|discriminate].
  unfold ret. intros [= <- _]. reflexivity.
Qed.

Lemma crossesGlyph_pure r t : snd (_crossesGlyph r t) = t.
Proof.
  unfold _crossesGlyph, bind, deref, ret.
  destruct (heap t !! r) as [g|]; [|reflexivity].
  assert (H : forall rs, snd (derefAll rs t) = t).
  { induction rs as [|r' rs IH]; [reflexivity|]. simpl. unfold bind, deref, ret.
    destruct (heap t !! r'); [|reflexivity].
    destruct (derefAll rs t) as [[gs|e] t']; simpl in IH; subst; reflexivity. }
  specialize (H (glyphs t)).
  destruct (derefAll (glyphs t) t) as [[gs|e] t']; simpl in H; subst; reflexivity.
Qed.

Lemma placeCandidate_prepare char branch t :
  placeCandidate options char branch t =
  bind (prepareCandidate options char branch)
       (fun glyph =>
          bind (_crossesGlyph glyph)
               (fun crosses : bool =>
                  if crosses then bind (remove glyph) (fun _ => ret None)
                  else bind (updateLowest glyph)
                         (fun _ => bind (_addGlyph glyph) (fun _ => ret (Some glyph))))) t.
Proof.
  unfold placeCandidate, prepareCandidate, bind.
  destruct (_createGlyph options (Some char) t) as [[glyph|e] t1]; try reflexivity.
  destruct (mutate glyph _ t1) as [[[]|e] t2]; try reflexivity.
  destruct (_adjustTrunk options t2) as [[[]|e] t3]; reflexivity.
Qed.

(** C6.  When the crossing test answers [true] for the candidate that was
    created, aligned and tested in state [t2]: the loop body returns
    normally whatever the recursive call [continue] would do (it is not
    called), the loop goes on with the branches that are left, the item of
    the candidate has no parent, the candidate is not in the glyph list,
    and the glyph list and [lowestGlyph] are those of before the attempt. *)
Theorem rejection_is_local t char branch glyph t2 :
  prepareCandidate options char branch t = (Normal glyph, t2) ->
  fst (_crossesGlyph glyph t2) = Normal true ->
  (forall r, r ∈ glyphs t -> (r < length (heap t))%nat) ->
  let t' := set_parents (delete glyph (parents t2)) t2 in
  (forall continue, tryBranch options char continue branch t = (Normal tt, t')) /\
  (forall continue rest,
      forEach (tryBranch options char continue) (branch :: rest) t =
      forEach (tryBranch options char continue) rest t') /\
  parents t' !! glyph = None /\
  (glyph ∉ glyphs t') /\
  glyphs t' = glyphs t /\
  lowestGlyph t' = lowestGlyph t.
Proof.
  intros Hprep Hcross Hvalid t'.
  pose proof (prepareCandidate_ref _ _ _ _ _ Hprep) as Hglyph.
  pose proof (prepareCandidate_frame char branch t) as [Hg Hl].
  rewrite Hprep in Hg, Hl. simpl in Hg, Hl.
  assert (Hplace : placeCandidate options char branch t = (Normal None, t')).
  { rewrite placeCandidate_prepare. unfold bind at 1. rewrite Hprep.
    unfold bind at 1. pose proof (crossesGlyph_pure glyph t2) as Hpure.
    destruct (_crossesGlyph glyph t2) as [c t3]. simpl in Hpure, Hcross. subst.
    reflexivity. }
  assert (Htry : forall continue,
             tryBranch options char continue branch t = (Normal tt, t')).
  { intros continue. rewrite tryBranch_split. unfold bind. rewrite Hplace. reflexivity. }
  split; [exact Htry|]. split.
  { intros continue rest. rewrite forEach_tryBranch, Hplace. reflexivity. }
  split; [apply lookup_delete_eq|].
  split.
  { cbn [t' glyphs set_parents]. rewrite Hg. intros Hin.
    specialize (Hvalid _ Hin). lia. }
  split; [exact Hg | exact Hl].
Qed.

(** ** The store after a step *)

Section StoreAfterStep.
Variables (t : WordTree Path) (first : GlyphRef) (fg' cand : Glyph Path).
Hypothesis Hfirst : (first < length (heap t))%nat.

Lemma store_first : <[first := fg']> (heap t ++ [cand]) !! first = Some fg'.
Proof. apply list_lookup_insert_eq. rewrite length_app. lia. Qed.

Lemma store_other r :
  r <> first -> (r < length (heap t))%nat ->
  <[first := fg']> (heap t ++ [cand]) !! r = heap t !! r.
Proof.
  intros Hne Hlt. rewrite list_lookup_insert_ne by congruence.
  apply lookup_app_l. exact Hlt.
Qed.

Lemma store_candidate :
  <[first := fg']> (heap t ++ [cand]) !! length (heap t) = Some cand.
Proof.
  rewrite list_lookup_insert_ne by lia.
  rewrite lookup_app_r by lia.
  replace (length (heap t) - length (heap t))%nat with 0%nat by lia. reflexivity.
Qed.

Lemma store_length :
  length (<[first := fg']> (heap t ++ [cand])) = S (length (heap t)).
Proof. rewrite length_insert, length_app. simpl. lia. Qed.
End StoreAfterStep.

Lemma rooted_head t first :
  rooted t -> glyphs t !! 0%nat = Some first ->
  (first < length (heap t))%nat /\ (first ∉ grafted t) /\
  glyphs t = first :: grafted t.
Proof.
  intros [Hwf _] H. unfold grafted.
  destruct (glyphs t) as [|f rest] eqn:E; [discriminate|].
  injection H as ->. simpl.
  pose proof (wf_nodup t Hwf) as Hnd. rewrite E in Hnd.
  apply NoDup_cons in Hnd as [Hnot _].
  split; [apply Hwf; rewrite E; left|]. split; [exact Hnot | reflexivity].
Qed.

Lemma grafted_valid t r :
  rooted t -> r ∈ grafted t -> (r < length (heap t))%nat.
Proof.
  intros [Hwf _] H. apply Hwf. unfold grafted in H.
  destruct (glyphs t); [inversion H | right; exact H].
Qed.

(** ** The length of the trunk *)

Lemma segmentLength_nonneg p q : (0 <= segmentLength p q)%R.
Proof. apply sqrt_pos. Qed.

Lemma pathLength_extendTrunk dy tr :
  pathLength (segments (extendTrunk dy tr)) =
  (segmentLength (firstSegment (extendTrunk dy tr)) (firstSegment tr)
   + pathLength (segments tr))%R.
Proof. reflexivity. Qed.

Lemma extends_pathLength a b :
  extends a b -> (pathLength (segments a) <= pathLength (segments b))%R.
Proof.
  induction 1 as [tr | tr tr' dy _ IH Hdy]; [apply Rle_refl|].
  rewrite pathLength_extendTrunk.
  pose proof (segmentLength_nonneg (firstSegment (extendTrunk dy tr')) (firstSegment tr')).
  lra.
Qed.

Lemma trunkFrom_trunkLength t t' fg :
  firstGlyph t = Some fg -> trunkFrom (trunk fg) t' ->
  (trunkLength t <= trunkLength t')%R.
Proof.
  intros H (fg' & H' & Hext). unfold trunkLength. rewrite H, H'.
  apply extends_pathLength. exact Hext.
Qed.

Lemma firstGlyph_rooted t first fg :
  glyphs t !! 0%nat = Some first -> heap t !! first = Some fg ->
  firstGlyph t = Some fg.
Proof. intros H1 H2. unfold firstGlyph. rewrite H1. exact H2. Qed.

Lemma step_glyphs_head t t' first :
  glyphs t !! 0%nat = Some first -> step options t t' ->
  glyphs t' !! 0%nat = Some first.
Proof.
  intros H Hs. destruct Hs
    as [f0 code Hf0 Hc | f fg fg' cand placed code Hf Hfg Hb Hext Hdef r heap' HF].
  - exact H.
  - destruct (crossesAny cand placed); cbn [glyphs]; [exact H|].
    apply lookup_app_l_Some. exact H.
Qed.

Lemma step_trunkFrom tr t t' :
  rooted t -> trunkFrom tr t -> step options t t' -> trunkFrom tr t'.
Proof.
  intros Hr (fg0 & H0 & Hext0) Hs.
  pose proof Hs as Hs'.
  destruct Hs
    as [f0 code Hf0 Hc | first fg fg' cand placed code Hf Hfg Hb Hext Hdef r heap' HF].
  - exists fg0. split; [|exact Hext0]. exact H0.
  - pose proof (step_glyphs_head _ _ _ Hf Hs') as Hhead.
    destruct (rooted_head t first Hr Hf) as (Hlt & _ & _).
    exists fg'. split.
    + apply (firstGlyph_rooted _ first); [exact Hhead|].
      destruct (crossesAny cand placed); cbn [heap]; apply store_first; exact Hlt.
    + eapply extends_trans; [|exact Hext].
      rewrite (firstGlyph_rooted _ _ _ Hf Hfg) in H0. injection H0 as <-. exact Hext0.
Qed.

(** ** Running [grow] *)

Lemma grow_run c rest t definition :
  definitionOf options (charCodeAt0 c) = Some definition ->
  grow version options (String c rest) t =
  match _growRecursive version options (length (heap t)) rest
          (withRoot t (charCodeAt0 c) (rootObject version definition)) with
  | (Normal _, t1) => finishGrow options version (length (heap t)) t1
  | (Throw e, t1) => (Throw e, t1)
  end.
Proof.
  intros Hdef. unfold grow, bind at 1. cbn [head].
  rewrite (createGlyph_defined c t definition Hdef).
  cbv zeta. cbn [heap set_lookups set_heap set_parents].
  unfold bind at 1.
  assert (E : forall t0 : WordTree Path,
             heap t0 = heap t ++ [instance definition] ->
             match version with
             | JavaScript => ret tt
             | TypeScript => mutate (length (heap t)) alignVertical
             end t0 =
             (Normal tt, set_heap (heap t ++ [rootObject version definition]) t0)).
  { intros t0 H0. unfold rootObject. destruct version.
    - unfold ret. rewrite <- H0, set_heap_same. reflexivity.
    - unfold mutate. rewrite H0. rewrite lookup_app_r by lia.
      replace (length (heap t) - length (heap t))%nat with 0%nat by lia.
      cbn [lookup list_lookup]. rewrite insert_fresh. reflexivity. }
  rewrite E by reflexivity.
  unfold bind at 1. unfold _addGlyph, bind at 1. unfold addChild.
  cbn [glyphs parents set_glyphs set_heap set_parents heap lowestGlyph itemPivot lookups].
  unfold bind at 1. cbn [slice1]. unfold withRoot.
  destruct (_growRecursive _ _ _ _ _) as [[[]|e] t1]; reflexivity.
Qed.

Lemma grow_missing f c rest t :
  font options = Some f -> glyphDefinitions f !! charCodeAt0 c = None ->
  grow version options (String c rest) t =
  (Throw (GlyphNotFound c), set_lookups (lookups t ++ [charCodeAt0 c]) t).
Proof.
  intros Hf Hdef. unfold grow, bind at 1. cbn [head].
  rewrite (createGlyph_missing f c t Hf Hdef). reflexivity.
Qed.

Lemma grow_nofont string t :
  font options = None -> grow version options string t = (Throw TypeError, t).
Proof.
  intros Hf. unfold grow, bind at 1.
  rewrite (createGlyph_nofont (head string) t Hf). reflexivity.
Qed.

Lemma withRoot_rooted t code root : wf t -> rooted (withRoot t code root).
Proof.
  intros [H1 H2 H3]. split.
  - constructor; cbn [withRoot glyphs heap lowestGlyph].
    + apply NoDup_app. split; [exact H1|]. split; [|apply NoDup_singleton].
      intros x Hx Hx'. apply list_elem_of_singleton in Hx'. subst x.
      specialize (H2 _ Hx). lia.
    + intros r Hr. rewrite length_app. simpl.
      apply elem_of_app in Hr as [Hr|Hr].
      * specialize (H2 r Hr). lia.
      * apply list_elem_of_singleton in Hr. subst r. lia.
    + intros l Hl. rewrite length_app. specialize (H3 l Hl). lia.
  - cbn [withRoot glyphs]. destruct (glyphs t); simpl; congruence.
Qed.

Lemma finishGrow_run t first fg glyph :
  rooted t -> glyphs t !! 0%nat = Some first -> heap t !! first = Some fg ->
  (glyph < length (heap t))%nat ->
  exists fg' p,
    branches fg' = branches fg /\ extends (trunk fg) (trunk fg') /\
    finishGrow options version glyph t =
      (Normal tt, set_itemPivot p (set_heap (<[first := fg']> (heap t)) t)).
Proof.
  intros Hr Hfirst Hfg Hglyph. unfold finishGrow.
  destruct version.
  - destruct (lookup_lt_is_Some_2 (heap t) glyph Hglyph) as [g Hg].
    exists fg, (pivot g). split; [reflexivity|]. split; [constructor|].
    unfold bind, ret, deref. rewrite Hg.
    rewrite list_insert_id by exact Hfg. rewrite set_heap_same. reflexivity.
  - destruct (adjustTrunk_extends t first fg Hfirst Hfg (wf_lowest t (proj1 Hr)))
      as (fg' & E & Hb & Hext).
    destruct (lookup_lt_is_Some_2 (<[first := fg']> (heap t)) glyph) as [g Hg].
    { rewrite length_insert. exact Hglyph. }
    exists fg', (pivot g). split; [exact Hb|]. split; [exact Hext|].
    unfold bind at 1. rewrite E. unfold bind, deref. cbn [heap set_heap].
    rewrite Hg. reflexivity.
Qed.

Lemma step_heap_length t t' :
  step options t t' -> (length (heap t) <= length (heap t'))%nat.
Proof.
  intros Hs. destruct Hs
    as [f0 code Hf0 Hc | f fg fg' cand placed code Hf Hfg Hb Hext Hdef r heap' HF].
  - simpl. lia.
  - destruct (crossesAny cand placed); cbn [heap]; unfold heap';
      rewrite length_insert, length_app; lia.
Qed.

(** A property kept by every step and by the last statements of [grow]
    holds after [grow] if it holds once the root is in the tree. *)
Lemma grow_invariant (I : WordTree Path -> Prop) :
  (forall t t', rooted t -> I t -> step options t t' -> I t') ->
  (forall t first fg fg' p,
      rooted t -> I t ->
      glyphs t !! 0%nat = Some first -> heap t !! first = Some fg ->
      branches fg' = branches fg -> extends (trunk fg) (trunk fg') ->
      I (set_itemPivot p (set_heap (<[first := fg']> (heap t)) t))) ->
  forall c rest t definition,
    wf t ->
    definitionOf options (charCodeAt0 c) = Some definition ->
    I (withRoot t (charCodeAt0 c) (rootObject version definition)) ->
    I (snd (grow version options (String c rest) t)).
Proof.
  intros Hstep Hfinish c rest t definition Hwf Hdef HI.
  rewrite (grow_run c rest t definition Hdef).
  set (tR := withRoot t (charCodeAt0 c) (rootObject version definition)) in *.
  pose proof (withRoot_rooted t (charCodeAt0 c) (rootObject version definition) Hwf) as HrR.
  fold tR in HrR.
  destruct (growRecursive_invariant
              (fun t1 => I t1 /\ (length (heap tR) <= length (heap t1))%nat))
    with (string := rest) (prev := length (heap t)) (t := tR) as (Hr1 & HI1 & Hlen).
  { intros t0 t0' Hr0 [HI0 Hl0] Hs. split; [eapply Hstep; eauto|].
    pose proof (step_heap_length _ _ Hs). lia. }
  { exact HrR. }
  { split; [exact HI | lia]. }
  destruct (_growRecursive version options (length (heap t)) rest tR) as [[[]|e] t1];
    simpl in Hr1, HI1, Hlen; [|exact HI1].
  destruct (rooted_first t1 Hr1) as (first & fg & Hfirst & Hfg).
  destruct (finishGrow_run t1 first fg (length (heap t)) Hr1 Hfirst Hfg)
    as (fg' & p & Hb & Hext & E).
  { unfold tR, withRoot in Hlen. cbn [heap] in Hlen. rewrite length_app in Hlen.
    simpl in Hlen. lia. }
  rewrite E. simpl. eapply Hfinish; eauto.
Qed.

Lemma finish_trunkFrom tr t first fg fg' p :
  rooted t -> trunkFrom tr t ->
  glyphs t !! 0%nat = Some first -> heap t !! first = Some fg ->
  extends (trunk fg) (trunk fg') ->
  trunkFrom tr (set_itemPivot p (set_heap (<[first := fg']> (heap t)) t)).
Proof.
  intros Hr (fg0 & H0 & Hext0) Hf Hfg Hext.
  rewrite (firstGlyph_rooted _ _ _ Hf Hfg) in H0. injection H0 as <-.
  exists fg'. split.
  - apply (firstGlyph_rooted _ first); [exact Hf|]. cbn [heap set_itemPivot set_heap].
    apply list_lookup_insert_eq. apply (rooted_head t first Hr Hf).
  - eapply extends_trans; eauto.
Qed.

Lemma withRoot_firstGlyph t code root :
  glyphs t = [] -> firstGlyph (withRoot t code root) = Some root.
Proof.
  intros H. unfold firstGlyph, withRoot. cbn [glyphs heap]. rewrite H. simpl.
  rewrite lookup_app_r by lia.
  replace (length (heap t) - length (heap t))%nat with 0%nat by lia. reflexivity.
Qed.

Lemma adjustTrunk_trunkLength t :
  rooted t -> (trunkLength t <= trunkLength (snd (_adjustTrunk options t)))%R.
Proof.
  intros Hr. destruct (rooted_first t Hr) as (first & fg & Hf & Hfg).
  destruct (adjustTrunk_extends t first fg Hf Hfg (wf_lowest t (proj1 Hr)))
    as (fg' & E & _ & Hext).
  rewrite E. simpl.
  apply (trunkFrom_trunkLength t _ fg); [apply (firstGlyph_rooted _ first); assumption|].
  exists fg'. split; [|exact Hext].
  apply (firstGlyph_rooted _ first); [exact Hf|]. cbn [heap set_heap].
  apply list_lookup_insert_eq. apply (rooted_head t first Hr Hf).
Qed.

Lemma step_trunkLength t t' :
  rooted t -> step options t t' -> (trunkLength t <= trunkLength t')%R.
Proof.
  intros Hr Hs. destruct (rooted_first t Hr) as (first & fg & Hf & Hfg).
  pose proof (firstGlyph_rooted _ _ _ Hf Hfg) as Hfirst.
  apply (trunkFrom_trunkLength t t' fg Hfirst).
  apply (step_trunkFrom _ t t' Hr); [|exact Hs].
  exists fg. split; [exact Hfirst | constructor].
Qed.

Lemma growRecursive_trunkLength string prev t :
  rooted t ->
  (trunkLength t <= trunkLength (snd (_growRecursive version options prev string t)))%R.
Proof.
  intros Hr. destruct (rooted_first t Hr) as (first & fg & Hf & Hfg).
  pose proof (firstGlyph_rooted _ _ _ Hf Hfg) as Hfirst.
  apply (trunkFrom_trunkLength t _ fg Hfirst).
  apply (growRecursive_invariant (trunkFrom (trunk fg))); trivial.
  - intros t0 t0' Hr0 HI Hs. eapply step_trunkFrom; eauto.
  - exists fg. split; [exact Hfirst | constructor].
Qed.

(** C7.  From the moment [grow] has put the root into an empty tree, the
    length of the trunk of the root never decreases: not in a call of
    [_adjustTrunk], not in a turn of the loop (which makes one such call),
    not over a whole [_growRecursive], and so not from the root as it was
    put in to the end of [grow]. *)
Theorem trunk_never_shrinks c rest t definition :
  wf t -> glyphs t = [] ->
  definitionOf options (charCodeAt0 c) = Some definition ->
  let tR := withRoot t (charCodeAt0 c) (rootObject version definition) in
  (forall s, rooted s ->
             (trunkLength s <= trunkLength (snd (_adjustTrunk options s)))%R) /\
  (forall s s', rooted s -> step options s s' ->
                (trunkLength s <= trunkLength s')%R) /\
  (forall s string prev, rooted s ->
     (trunkLength s <= trunkLength (snd (_growRecursive version options prev string s)))%R) /\
  (trunkLength tR <= trunkLength (snd (grow version options (String c rest) t)))%R.
Proof.
  intros Hwf Hempty Hdef tR.
  split; [exact adjustTrunk_trunkLength|].
  split; [exact step_trunkLength|].
  split; [intros s string prev; apply growRecursive_trunkLength|].
  pose proof (withRoot_firstGlyph t (charCodeAt0 c) (rootObject version definition) Hempty)
    as Hroot.
  apply (trunkFrom_trunkLength tR _ _ Hroot).
  refine (grow_invariant (trunkFrom (trunk (rootObject version definition)))
            _ _ c rest t definition Hwf Hdef _).
  - intros t0 t0' Hr0 HI Hs. eapply step_trunkFrom; eauto.
  - intros t0 first fg fg' p Hr0 HI Hf Hfg _ Hext. eapply finish_trunkFrom; eauto.
  - exists (rootObject version definition). split; [exact Hroot | constructor].
Qed.

(** ** The lowest glyph *)

Lemma step_grafted_object t t' r :
  rooted t -> step options t t' -> r ∈ grafted t -> heap t' !! r = heap t !! r.
Proof.
  intros Hr Hs Hin.
  destruct Hs
    as [f0 code Hf0 Hc | first fg fg' cand placed code Hf Hfg Hb Hext Hdef r0 heap' HF].
  - reflexivity.
  - destruct (rooted_head t first Hr Hf) as (Hlt & Hnot & _).
    assert (heap' !! r = heap t !! r) as E.
    { apply store_other; [congruence | eapply grafted_valid; eauto]. }
    destruct (crossesAny cand placed); exact E.
Qed.

Lemma step_grafted t t' :
  rooted t -> step options t t' ->
  grafted t' = grafted t \/
  (exists cand, grafted t' = grafted t ++ [length (heap t)] /\
                heap t' !! length (heap t) = Some cand /\
                lowestGlyph t' = newLowest (heap t') (lowestGlyph t) (length (heap t)) cand).
Proof.
  intros Hr Hs.
  destruct Hs
    as [f0 code Hf0 Hc | first fg fg' cand placed code Hf Hfg Hb Hext Hdef r0 heap' HF].
  - left. reflexivity.
  - destruct (rooted_head t first Hr Hf) as (Hlt & _ & Hg).
    destruct (crossesAny cand placed); [left; reflexivity|].
    right. exists cand. unfold grafted. cbn [glyphs heap lowestGlyph]. rewrite Hg. simpl.
    split; [reflexivity|]. split; [|reflexivity].
    apply store_candidate. exact Hlt.
Qed.

Lemma step_lowestGlyph t t' :
  step options t t' ->
  lowestGlyph t' = lowestGlyph t \/
  exists cand, lowestGlyph t' = newLowest (heap t') (lowestGlyph t) (length (heap t)) cand.
Proof.
  intros Hs.
  destruct Hs
    as [f0 code Hf0 Hc | first fg fg' cand placed code Hf Hfg Hb Hext Hdef r0 heap' HF].
  - left. reflexivity.
  - destruct (crossesAny cand placed); [left; reflexivity|]. right. exists cand. reflexivity.
Qed.

Lemma step_lowestIsLowest t t' :
  rooted t -> lowestIsLowest t -> step options t t' -> lowestIsLowest t'.
Proof.
  intros Hr HI Hs.
  pose proof (step_grafted_object t t' ) as Hobj.
  pose proof (step_rooted t t' Hr Hs) as Hr'.
  destruct (step_grafted t t' Hr Hs) as [Hg | (cand & Hg & Hcand & Hlow)].
  - (* nothing was placed *)
    assert (Hl : lowestGlyph t' = lowestGlyph t).
    { destruct Hs
    as [f0 code Hf0 Hc | first fg fg' cand placed code Hf Hfg Hb Hext Hdef r0 heap' HF];
        [reflexivity|].
      destruct (rooted_head t first Hr Hf) as (_ & _ & Hgl).
      unfold grafted in Hg. destruct (crossesAny cand placed); [reflexivity|].
      cbn [glyphs] in Hg. rewrite Hgl in Hg. simpl in Hg.
      apply (f_equal length) in Hg. rewrite length_app in Hg. simpl in Hg. lia. }
    unfold lowestIsLowest in *. rewrite Hl, Hg.
    destruct (lowestGlyph t) as [l|]; [|exact HI].
    destruct HI as (Hin & gl & Hgl & Hall).
    split; [exact Hin|]. exists gl. split.
    + rewrite (Hobj l Hr Hs Hin). exact Hgl.
    + intros r g Hrin Hrg. rewrite (Hobj r Hr Hs Hrin) in Hrg. eauto.
  - (* the candidate was placed *)
    unfold lowestIsLowest in *. rewrite Hlow, Hg. unfold newLowest.
    destruct (lowestGlyph t) as [l|].
    + destruct HI as (Hin & gl & Hgl & Hall).
      rewrite (Hobj l Hr Hs Hin), Hgl.
      assert (Hold : forall r g, r ∈ grafted t -> heap t' !! r = Some g ->
                                 boundsBottom g <= boundsBottom gl).
      { intros r g Hrin Hrg. rewrite (Hobj r Hr Hs Hrin) in Hrg. eauto. }
      unfold isLowerThan. destruct (boundsBottom gl <? boundsBottom cand) eqn:E.
      * apply Z.ltb_lt in E. split; [apply elem_of_app; right; left|].
        exists cand. split; [exact Hcand|].
        intros r g Hrin Hrg. apply elem_of_app in Hrin as [Hrin|Hrin].
        -- specialize (Hold r g Hrin Hrg). lia.
        -- apply list_elem_of_singleton in Hrin. subst r.
           rewrite Hcand in Hrg. injection Hrg as <-. lia.
      * apply Z.ltb_ge in E. split; [apply elem_of_app; left; exact Hin|].
        exists gl. split; [rewrite (Hobj l Hr Hs Hin); exact Hgl|].
        intros r g Hrin Hrg. apply elem_of_app in Hrin as [Hrin|Hrin].
        -- eauto.
        -- apply list_elem_of_singleton in Hrin. subst r.
           rewrite Hcand in Hrg. injection Hrg as <-. exact E.
    + rewrite HI. split; [left|]. exists cand. split; [exact Hcand|].
      intros r g Hrin Hrg. apply list_elem_of_singleton in Hrin. subst r.
      rewrite Hcand in Hrg. injection Hrg as <-. lia.
Qed.

Lemma finish_lowestIsLowest t first fg' p :
  rooted t -> lowestIsLowest t -> glyphs t !! 0%nat = Some first ->
  lowestIsLowest (set_itemPivot p (set_heap (<[first := fg']> (heap t)) t)).
Proof.
  intros Hr HI Hf. destruct (rooted_head t first Hr Hf) as (Hlt & Hnot & _).
  assert (Hobj : forall r, r ∈ grafted t -> <[first := fg']> (heap t) !! r = heap t !! r).
  { intros r Hin. apply list_lookup_insert_ne. congruence. }
  unfold lowestIsLowest in *. unfold grafted in *.
  cbn [lowestGlyph glyphs heap set_itemPivot set_heap].
  destruct (lowestGlyph t) as [l|]; [|exact HI].
  destruct HI as (Hin & gl & Hgl & Hall).
  split; [exact Hin|]. exists gl. split; [rewrite Hobj by exact Hin; exact Hgl|].
  intros r g Hrin Hrg. rewrite Hobj in Hrg by exact Hrin. eauto.
Qed.

(** C8, as the code has it.  The root is never a candidate for
    [lowestGlyph].  On a tree that was empty, after every turn of the loop
    and at the end of [grow], [lowestGlyph] is unset exactly while no
    glyph has been grafted, and otherwise is a reference to a grafted
    glyph of the glyph list below which no grafted glyph of the list
    reaches; placing a candidate sets it to the candidate when it was
    unset or when the candidate reaches lower than the glyph it referred
    to, and leaves it alone otherwise. *)
Theorem lowestGlyph_tracks_grafted c rest t definition :
  wf t -> glyphs t = [] -> lowestGlyph t = None ->
  definitionOf options (charCodeAt0 c) = Some definition ->
  (forall s s', rooted s -> lowestIsLowest s -> step options s s' ->
                lowestIsLowest s' /\
                (lowestGlyph s' = lowestGlyph s \/
                 exists cand,
                   heap s' !! length (heap s) = Some cand /\
                   lowestGlyph s' =
                     match lowestGlyph s with
                     | None => Some (length (heap s))
                     | Some l =>
                         match heap s' !! l with
                         | Some gl =>
                             Some (if boundsBottom gl <? boundsBottom cand
                                   then length (heap s) else l)
                         | None => Some l
                         end
                     end)) /\
  (forall s string prev, rooted s -> lowestIsLowest s ->
     lowestIsLowest (snd (_growRecursive version options prev string s))) /\
  lowestIsLowest (snd (grow version options (String c rest) t)).
Proof.
  intros Hwf Hempty Hnone Hdef. split; [|split].
  - intros s s' Hr HI Hs. split; [eapply step_lowestIsLowest; eauto|].
    destruct (step_grafted s s' Hr Hs) as [Hg | (cand & Hg & Hcand & Hlow)].
    + destruct (step_lowestGlyph s s' Hs) as [E | (cand & E)]; [left; exact E|].
      (* a placed candidate would have lengthened the list *)
      destruct Hs
    as [f0 code Hf0 Hc | first fg fg' cand0 placed code Hf Hfg Hb Hext Hd r0 heap' HF];
        [left; reflexivity|].
      destruct (crossesAny cand0 placed); [left; reflexivity|].
      destruct (rooted_head s first Hr Hf) as (_ & _ & Hgl).
      unfold grafted in Hg. cbn [glyphs] in Hg. rewrite Hgl in Hg. simpl in Hg.
      apply (f_equal length) in Hg. rewrite length_app in Hg. simpl in Hg. lia.
    + right. exists cand. split; [exact Hcand | exact Hlow].
  - intros s string prev Hr HI.
    apply (growRecursive_invariant lowestIsLowest); trivial.
    intros; eapply step_lowestIsLowest; eauto.
  - refine (grow_invariant lowestIsLowest _ _ c rest t definition Hwf Hdef _).
    + intros; eapply step_lowestIsLowest; eauto.
    + intros s first fg fg' p Hr HI Hf _ _ _. apply finish_lowestIsLowest; assumption.
    + unfold lowestIsLowest, withRoot, grafted. cbn [lowestGlyph glyphs].
      rewrite Hnone, Hempty. reflexivity.
Qed.

(** ** The crossing test *)

Lemma pairCrosses_true g branchA branchB :
  pairCrosses g branchA branchB = true <->
  crossesOrRepeats (countedIntersections g branchA branchB).
Proof.
  unfold pairCrosses, crossesOrRepeats. fold (countedIntersections g branchA branchB).
  destruct (countedIntersections g branchA branchB) as [|i [|i' rest]]; simpl.
  - split; [discriminate|]. intros [H | (i & H & _)]; [lia | discriminate].
  - split.
    + intros H. right. exists i. split; [reflexivity | exact H].
    + intros [H | (i0 & [= <-] & H)]; [lia | exact H].
  - split; [intros _; left; lia | reflexivity].
Qed.

Lemma pairCrosses_false g branchA branchB :
  pairCrosses g branchA branchB = false <->
  touchesAtMost (countedIntersections g branchA branchB).
Proof.
  unfold pairCrosses, touchesAtMost. fold (countedIntersections g branchA branchB).
  destruct (countedIntersections g branchA branchB) as [|i [|i' rest]]; simpl.
  - split; [left; reflexivity | reflexivity].
  - split.
    + intros H. right. exists i. split; [reflexivity | exact H].
    + intros [H | (i0 & [= <-] & H)]; [discriminate | exact H].
  - split; [discriminate|]. intros [H | (i0 & H & _)]; discriminate.
Qed.

Lemma crossesAny_true cand placed :
  crossesAny cand placed = true <->
  exists other branchA branchB,
    other ∈ placed /\ branchA ∈ branches cand /\ branchB ∈ branches other /\
    crossesOrRepeats (countedIntersections cand branchA branchB).
Proof.
  unfold crossesAny. rewrite existsb_exists. split.
  - intros (other & Hin & H). apply existsb_exists in H as (branchA & HA & H).
    apply existsb_exists in H as (branchB & HB & H).
    exists other, branchA, branchB. rewrite <- !list_elem_of_In in *.
    rewrite <- pairCrosses_true. auto.
  - intros (other & branchA & branchB & Hin & HA & HB & H).
    exists other. rewrite <- list_elem_of_In. split; [exact Hin|].
    apply existsb_exists. exists branchA. rewrite <- list_elem_of_In. split; [exact HA|].
    apply existsb_exists. exists branchB. rewrite <- list_elem_of_In. split; [exact HB|].
    apply pairCrosses_true. exact H.
Qed.

Lemma crossesAny_false cand placed :
  crossesAny cand placed = false ->
  forall other branchA branchB,
    other ∈ placed -> branchA ∈ branches cand -> branchB ∈ branches other ->
    touchesAtMost (countedIntersections cand branchA branchB).
Proof.
  intros H other branchA branchB Hin HA HB. apply pairCrosses_false.
  destruct (pairCrosses cand branchA branchB) eqn:E; [|reflexivity].
  assert (crossesAny cand placed = true); [|congruence].
  apply crossesAny_true. exists other, branchA, branchB.
  rewrite <- pairCrosses_true. auto.
Qed.

Lemma crossesGlyph_run glyph g t :
  (forall r, r ∈ glyphs t -> (r < length (heap t))%nat) ->
  heap t !! glyph = Some g ->
  exists placed,
    Forall2 (fun r o => heap t !! r = Some o) (glyphs t) placed /\
    _crossesGlyph glyph t = (Normal (crossesAny g placed), t).
Proof.
  intros Hvalid Hg. destruct (derefAll_run (glyphs t) t Hvalid) as (placed & E & HF).
  exists placed. split; [exact HF|].
  unfold _crossesGlyph, bind, deref, ret. rewrite Hg, E. reflexivity.
Qed.

(** The branches of a listed glyph and, for a grafted one, its whole
    object are the same after a step. *)
Lemma step_listed_branches t t' i ri gi :
  rooted t -> step options t t' ->
  glyphs t !! i = Some ri -> heap t' !! ri = Some gi ->
  exists gi0, heap t !! ri = Some gi0 /\ branches gi0 = branches gi /\
              (i <> 0%nat -> gi0 = gi).
Proof.
  intros Hr Hs Hi Hgi.
  destruct (rooted_first t Hr) as (first & fg & Hf & Hfg).
  destruct (rooted_head t first Hr Hf) as (Hlt & Hnot & Hgl).
  destruct i as [|i].
  - assert (ri = first) as -> by congruence.
    destruct Hs
    as [f0 code Hf0 Hc | f fg0 fg' cand placed code Hf0 Hfg0 Hb Hext Hdef r0 heap' HF].
    + exists gi. simpl in Hgi. auto.
    + assert (f = first) as -> by congruence.
      assert (fg0 = fg) as -> by congruence.
      assert (heap' !! first = Some fg') as E by (apply store_first; exact Hlt).
      exists fg. split; [exact Hfg|]. split; [|congruence].
      destruct (crossesAny cand placed); cbn [heap] in Hgi; congruence.
  - assert (Hin : ri ∈ grafted t).
    { rewrite Hgl in Hi. simpl in Hi. eapply list_elem_of_lookup_2. exact Hi. }
    rewrite (step_grafted_object t t' ri Hr Hs Hin) in Hgi.
    exists gi. auto.
Qed.

Lemma step_neverCrosses t t' :
  rooted t -> neverCrosses t -> step options t t' -> neverCrosses t'.
Proof.
  intros Hr HI Hs. pose proof Hs as Hs0.
  destruct (rooted_first t Hr) as (first & fg & Hf & Hfg).
  destruct (rooted_head t first Hr Hf) as (Hlt & Hnot & Hgl).
  assert (Hold : forall i j ri rj gi gj branchA branchB,
             (i < j)%nat ->
             glyphs t !! i = Some ri -> glyphs t !! j = Some rj ->
             heap t' !! ri = Some gi -> heap t' !! rj = Some gj ->
             branchA ∈ branches gj -> branchB ∈ branches gi ->
             touchesAtMost (countedIntersections gj branchA branchB)).
  { intros i j ri rj gi gj branchA branchB Hij Hi Hj Hgi Hgj HA HB.
    destruct (step_listed_branches t t' i ri gi Hr Hs Hi Hgi) as (gi0 & Hgi0 & Hbi & _).
    destruct (step_listed_branches t t' j rj gj Hr Hs Hj Hgj) as (gj0 & Hgj0 & _ & Hsame).
    rewrite <- (Hsame ltac:(lia)) in *.
    apply (HI i j ri rj gi0 gj0); trivial. rewrite Hbi. exact HB. }
  destruct Hs
    as [f0 code Hf0 Hc | f fg0 fg' cand placed code Hf0 Hfg0 Hb Hext Hdef r0 heap' HF].
  - exact Hold.
  - destruct (crossesAny cand placed) eqn:Ecross; [exact Hold|].
    intros i j ri rj gi gj branchA branchB Hij Hi Hj Hgi Hgj HA HB.
    cbn [glyphs heap] in Hi, Hj, Hgi, Hgj.
    destruct (decide (j < length (glyphs t))%nat) as [Hjlt|Hjge].
    + rewrite lookup_app_l in Hi by lia. rewrite lookup_app_l in Hj by lia.
      apply (Hold i j ri rj gi gj); trivial.
      all: rewrite Ecross; assumption.
    + pose proof (lookup_lt_Some _ _ _ Hj) as Hjlen.
      rewrite length_app in Hjlen. simpl in Hjlen.
      assert (j = length (glyphs t)) as -> by lia.
      rewrite lookup_app_r in Hj by lia.
      replace (length (glyphs t) - length (glyphs t))%nat with 0%nat in Hj by lia.
      injection Hj as <-.
      assert (f = first) as -> by congruence.
      assert (heap' !! r0 = Some cand) as E by (apply store_candidate; exact Hlt).
      assert (gj = cand) as -> by congruence.
      rewrite lookup_app_l in Hi by lia.
      destruct (Forall2_lookup_l _ _ _ _ _ HF Hi) as (o & Ho & Hobj).
      assert (o = gi) as -> by congruence.
      apply (crossesAny_false cand placed Ecross gi); trivial.
      eapply list_elem_of_lookup_2. exact Ho.
Qed.

Lemma finish_neverCrosses t first fg fg' p :
  rooted t -> neverCrosses t ->
  glyphs t !! 0%nat = Some first -> heap t !! first = Some fg ->
  branches fg' = branches fg ->
  neverCrosses (set_itemPivot p (set_heap (<[first := fg']> (heap t)) t)).
Proof.
  intros Hr HI Hf Hfg Hb.
  destruct (rooted_head t first Hr Hf) as (Hlt & Hnot & Hgl).
  intros i j ri rj gi gj branchA branchB Hij Hi Hj Hgi Hgj HA HB.
  cbn [glyphs heap set_itemPivot set_heap] in Hi, Hj, Hgi, Hgj.
  assert (Hrj : rj <> first).
  { intros ->. apply Hnot. destruct j as [|j]; [lia|].
    rewrite Hgl in Hj. simpl in Hj. eapply list_elem_of_lookup_2. exact Hj. }
  rewrite list_lookup_insert_ne in Hgj by congruence.
  destruct (decide (ri = first)) as [->|Hne].
  - rewrite list_lookup_insert_eq in Hgi by exact Hlt. injection Hgi as <-.
    apply (HI i j first rj fg gj); trivial. rewrite <- Hb. exact HB.
  - rewrite list_lookup_insert_ne in Hgi by congruence.
    apply (HI i j ri rj gi gj); trivial.
Qed.

(** C2, as the code has it.  The test answers [true] exactly when some
    pair of a branch outline of the candidate and a branch outline of a
    placed glyph has, away from the trunk origin of the candidate, more
    than one intersection or a single one that is a crossing.  After
    [grow] on an empty tree, every glyph of the list and every glyph placed
    before it have, for each pair of their branch outlines and away from
    the trunk origin of the later glyph, at most one intersection, and
    that one is not a crossing.  (Intersections at that trunk origin are
    not counted and may come on top.) *)
Theorem crossing_rule c rest t definition :
  wf t -> glyphs t = [] ->
  definitionOf options (charCodeAt0 c) = Some definition ->
  (forall cand placed,
      crossesAny cand placed = true <->
      exists other branchA branchB,
        other ∈ placed /\ branchA ∈ branches cand /\ branchB ∈ branches other /\
        crossesOrRepeats (countedIntersections cand branchA branchB)) /\
  (forall s glyph g,
      wf s -> heap s !! glyph = Some g ->
      exists placed,
        Forall2 (fun r o => heap s !! r = Some o) (glyphs s) placed /\
        _crossesGlyph glyph s = (Normal (crossesAny g placed), s)) /\
  neverCrosses (snd (grow version options (String c rest) t)).
Proof.
  intros Hwf Hempty Hdef. split; [exact crossesAny_true|]. split.
  - intros s glyph g Hs Hg. apply crossesGlyph_run; [apply Hs | exact Hg].
  - refine (grow_invariant neverCrosses _ _ c rest t definition Hwf Hdef _).
    + intros; eapply step_neverCrosses; eauto.
    + intros s first fg fg' p Hr HI Hf Hfg Hb _. eapply finish_neverCrosses; eauto.
    + intros i j ri rj gi gj branchA branchB Hij Hi Hj.
      unfold withRoot in Hi, Hj. cbn [glyphs] in Hi, Hj. rewrite Hempty in Hi, Hj.
      simpl in Hi, Hj. destruct i, j; try lia; discriminate.
Qed.

(** ** Missing glyph definitions *)

Lemma quiet_traced {A} (m : Method Path A) : quiet m -> traced options m.
Proof.
  intros H t. destruct (H t) as [Hl Hne]. exists []. rewrite app_nil_r.
  split; [exact Hl|].
  destruct (fst (m t)) as [a|[|char|]]; try constructor.
  exfalso. eapply Hne. reflexivity.
Qed.

Lemma quiet_ret {A} (a : A) : quiet (ret a : Method Path A).
Proof. intros t. split; [reflexivity | discriminate]. Qed.

Lemma quiet_update {A} (a : A) (f : WordTree Path -> WordTree Path) :
  (forall t, lookups (f t) = lookups t) ->
  quiet (fun t => (Normal a, f t)).
Proof. intros H t. split; [apply H | discriminate]. Qed.

Lemma quiet_bind {A B} (m : Method Path A) (f : A -> Method Path B) :
  quiet m -> (forall a, quiet (f a)) -> quiet (bind m f).
Proof.
  intros Hm Hf t. unfold bind. destruct (Hm t) as [Hl Hne].
  destruct (m t) as [[a|e] t1]; simpl in Hl, Hne.
  - destruct (Hf a t1) as [Hl' Hne']. split; [congruence | exact Hne'].
  - split; [exact Hl|]. intros char Hc. simpl in Hc. injection Hc as ->.
    apply (Hne char). reflexivity.
Qed.

Lemma quiet_deref r : quiet (deref r : Method Path _).
Proof.
  intros t. unfold deref. destruct (heap t !! r); split; try reflexivity; discriminate.
Qed.

Lemma quiet_mutate r f : quiet (mutate r f : Method Path _).
Proof.
  intros t. unfold mutate. destruct (heap t !! r); split; try reflexivity; discriminate.
Qed.

Lemma quiet_adjustTrunk : quiet (_adjustTrunk options).
Proof.
  intros t. unfold _adjustTrunk.
  destruct (lowestGlyph t); [|apply (quiet_ret tt)].
  destruct (glyphs t !! 0%nat) as [first|]; [|split; [reflexivity | discriminate]].
  apply quiet_bind; [apply quiet_deref|]. intros lg.
  apply quiet_bind; [apply quiet_deref|]. intros fg.
  destruct (_ <? _); [apply quiet_mutate | apply quiet_ret].
Qed.

Lemma quiet_derefAll rs : quiet (derefAll rs : Method Path _).
Proof.
  induction rs as [|r rs IH]; simpl; [apply quiet_ret|].
  apply quiet_bind; [apply quiet_deref|]. intros g.
  apply quiet_bind; [exact IH|]. intros gs. apply quiet_ret.
Qed.

Lemma quiet_crossesGlyph r : quiet (_crossesGlyph r).
Proof.
  unfold _crossesGlyph. apply quiet_bind; [apply quiet_deref|]. intros g.
  apply quiet_bind; [|intros; apply quiet_ret].
  intros t. apply quiet_derefAll.
Qed.

Lemma quiet_remove r : quiet (remove r : Method Path _).
Proof. apply quiet_update. reflexivity. Qed.

Lemma quiet_addGlyph r : quiet (_addGlyph r : Method Path _).
Proof.
  unfold _addGlyph. apply quiet_bind; [apply quiet_update; reflexivity|].
  intros _. apply quiet_update. reflexivity.
Qed.

Lemma quiet_updateLowest r : quiet (updateLowest r).
Proof.
  intros t. unfold updateLowest. destruct (lowestGlyph t).
  - apply quiet_bind; [apply quiet_deref|]. intros g.
    apply quiet_bind; [apply quiet_deref|]. intros l.
    apply quiet_update. reflexivity.
  - split; [reflexivity | discriminate].
Qed.

Lemma traced_bind {A B} (m : Method Path A) (f : A -> Method Path B) :
  traced options m -> (forall a, traced options (f a)) -> traced options (bind m f).
Proof.
  intros Hm Hf t. unfold bind. destruct (Hm t) as (new & Hl & Hc).
  destruct (m t) as [[a|e] t1]; simpl in Hl, Hc.
  - destruct (Hf a t1) as (new' & Hl' & Hc').
    exists (new ++ new'). split; [rewrite Hl', Hl, app_assoc; reflexivity|].
    destruct (fst (f a t1)) as [b|[|char|]];
      try (apply Forall_app; split; assumption).
    destruct Hc' as (earlier & -> & He & Hn).
    exists (new ++ earlier). split; [apply app_assoc|].
    split; [apply Forall_app; split; assumption | exact Hn].
  - exists new. split; [exact Hl | exact Hc].
Qed.

Lemma traced_createGlyph char : traced options (_createGlyph options char).
Proof.
  intros t. unfold _createGlyph. destruct (font options) as [f|] eqn:Hf.
  2:{ exists []. rewrite app_nil_r. split; [reflexivity | constructor]. }
  destruct char as [c|].
  - destruct (glyphDefinitions f !! charCodeAt0 c) as [d|] eqn:E; cbn.
    + exists [charCodeAt0 c]. split; [reflexivity|].
      constructor; [|constructor]. unfold defined, definitionOf. rewrite Hf, E. eauto.
    + exists [charCodeAt0 c]. split; [reflexivity|].
      exists []. split; [reflexivity|]. split; [constructor|].
      unfold defined, definitionOf. rewrite Hf, E. intros [? ?]. discriminate.
  - exists []. rewrite app_nil_r. split; [reflexivity | constructor].
Qed.

Lemma traced_forEach {A} (body : A -> Method Path unit) l :
  (forall a, traced options (body a)) -> traced options (forEach body l).
Proof.
  intros H. induction l as [|a l IH].
  - apply quiet_traced, quiet_ret.
  - change (forEach body (a :: l)) with (bind (body a) (fun _ => forEach body l)).
    apply traced_bind; [apply H | intros _; exact IH].
Qed.

Lemma traced_tryBranch char continue branch :
  (forall glyph, traced options (continue glyph)) ->
  traced options (tryBranch options char continue branch).
Proof.
  intros H. unfold tryBranch.
  apply traced_bind; [apply traced_createGlyph|]. intros glyph.
  apply traced_bind; [apply quiet_traced, quiet_mutate|]. intros _.
  apply traced_bind; [apply quiet_traced, quiet_adjustTrunk|]. intros _.
  apply traced_bind; [apply quiet_traced, quiet_crossesGlyph|]. intros [|].
  - apply quiet_traced, quiet_remove.
  - apply traced_bind; [apply quiet_traced, quiet_updateLowest|]. intros _.
    apply traced_bind; [apply quiet_traced, quiet_addGlyph|]. intros _.
    apply H.
Qed.

Lemma traced_growRecursive string prev :
  traced options (_growRecursive version options prev string).
Proof.
  revert prev. induction string as [|char rest IH]; intros prev.
  - apply quiet_traced, quiet_ret.
  - cbn [_growRecursive].
    apply traced_bind; [apply quiet_traced, quiet_deref|]. intros pg.
    apply traced_forEach. intros branch. apply traced_tryBranch. exact IH.
Qed.

Lemma traced_grow string : traced options (grow version options string).
Proof.
  unfold grow.
  apply traced_bind; [apply traced_createGlyph|]. intros glyph.
  apply traced_bind.
  { destruct version; apply quiet_traced; [apply quiet_ret | apply quiet_mutate]. }
  intros _.
  apply traced_bind; [apply quiet_traced, quiet_addGlyph|]. intros _.
  apply traced_bind; [apply traced_growRecursive|]. intros _.
  apply traced_bind.
  { destruct version; apply quiet_traced; [apply quiet_ret | apply quiet_adjustTrunk]. }
  intros _.
  apply traced_bind; [apply quiet_traced, quiet_deref|]. intros g.
  apply quiet_traced, quiet_update. reflexivity.
Qed.

(** ** Counting glyphs *)

Lemma frozenFrom_refl t : frozenFrom t t.
Proof. split; [lia | reflexivity]. Qed.

Lemma step_frozenFrom t0 t t' :
  frozenFrom t0 t -> step options t t' -> frozenFrom t0 t'.
Proof.
  intros [Hlen Hpar] Hs. pose proof (step_heap_length t t' Hs) as Hlen'.
  split; [lia|]. intros r Hr. rewrite <- (Hpar r Hr).
  destruct Hs
    as [f0 code Hf0 Hc | f fg fg' cand placed code Hf Hfg Hb Hext Hdef r0 heap' HF].
  - reflexivity.
  - assert (r <> r0) by (unfold r0; lia).
    destruct (crossesAny cand placed); cbn [parents].
    + rewrite lookup_delete_ne by congruence. apply lookup_insert_ne. congruence.
    + rewrite lookup_insert_ne by congruence. apply lookup_insert_ne. congruence.
Qed.







(** What a turn of the loop leaves when the font has the glyph. *)
Lemma placeCandidate_outcome t char branch definition :
  rooted t ->
  definitionOf options (charCodeAt0 char) = Some definition ->
  let r := length (heap t) in
  exists t1,
    rooted t1 /\ frozenFrom t t1 /\ length (heap t1) = S r /\
    ((placeCandidate options char branch t = (Normal None, t1) /\
      glyphs t1 = glyphs t /\ parents t1 !! r = None) \/
     (placeCandidate options char branch t = (Normal (Some r), t1) /\
      glyphs t1 = glyphs t ++ [r] /\ parents t1 !! r = Some WordTreeItem /\
      heap t1 !! r = Some (alignAtBranch (instance definition) branch))).
Proof.
  intros Hr Hdef r.
  destruct (definitionOf_font _ _ Hdef) as (f & Hfont & _).
  pose proof (placeCandidate_step f t char branch Hfont Hr) as Hs.
  destruct (rooted_first t Hr) as (first & fg & Hf & Hfg).
  destruct (rooted_head t first Hr Hf) as (Hlt & _ & _).
  destruct (placeCandidate_run t char branch first fg definition (proj1 Hr) Hf Hfg Hdef)
    as (fg' & placed & _ & _ & _ & E).
  exists (snd (placeCandidate options char branch t)).
  split; [eapply step_rooted; eauto|].
  split; [eapply step_frozenFrom; eauto using frozenFrom_refl|].
  rewrite E. destruct (crossesAny _ placed); cbn [snd heap glyphs parents].
  - split; [exact (store_length t first fg' _ Hlt)|].
    left. split; [reflexivity|]. split; [reflexivity|].
    apply lookup_delete_eq.
  - split; [exact (store_length t first fg' _ Hlt)|].
    right. split; [reflexivity|]. split; [reflexivity|].
    split; [apply lookup_insert_eq|]. apply store_candidate. exact Hlt.
Qed.




End WordTreeProofs.

(** * Further properties of the kerning profiles *)

Module KerningMore.

Import Kerning KerningNotions KerningProofs.
Local Open Scope nat_scope.

Lemma sameInk_sym a b : sameInk a b -> sameInk b a.
Proof.
  intros (Hw & Hh & Hl). repeat split; try congruence; apply Hl.
Qed.

Lemma inset_inked side r y : inset side r y <> None <-> inked r y.
Proof.
  unfold inked. split.
  - intros H. destruct (inset side r y) as [i|] eqn:E; [|congruence].
    unfold inset in E. apply scan_Some in E as (Hi & Hl & _).
    exists (column side r i). split; [|exact Hl].
    unfold column. destruct side; lia.
  - intros (x & Hx & Hl) E. unfold inset in E.
    pose proof (proj1 (scan_None side r y (width r) 0) E) as Hnone.
    destruct side.
    + apply (Hnone x); [lia | exact Hl].
    + apply (Hnone (width r - 1 - x)); [lia|].
      unfold column. replace (width r - 1 - (width r - 1 - x)) with x by lia.
      exact Hl.
Qed.

(** ** The profiles depend on the ink alone *)

Lemma row_ink d side y edge r : sameInk r (snd (row d side y (edge, r))).
Proof.
  unfold row. destruct (scan side r y (width r) 0) as [i|] eqn:E; [|apply sameInk_refl].
  destruct d; [|apply sameInk_refl]. cbn [snd].
  apply setPixel_sameInk.
  - apply scan_Some in E as (_ & Hl & _). exact Hl.
  - destruct side; discriminate.
Qed.

Lemma row_sameInk d d' side y edge r r' :
  sameInk r r' ->
  fst (row d side y (edge, r')) = fst (row d' side y (edge, r)) /\
  sameInk (snd (row d' side y (edge, r))) (snd (row d side y (edge, r'))).
Proof.
  intros Hs. split.
  - unfold row.
    rewrite (scan_sameInk side r r' y (width r') 0 Hs).
    assert (Hw : width r' = width r) by apply Hs. rewrite Hw.
    destruct (scan side r y (width r) 0) as [i|]; [|reflexivity].
    unfold column. rewrite Hw. reflexivity.
  - eapply sameInk_trans; [apply sameInk_sym, row_ink|].
    eapply sameInk_trans; [exact Hs | apply row_ink].
Qed.

Lemma rows_sameInk d d' side n y edge r r' :
  sameInk r r' ->
  fst (rows d side n y (edge, r')) = fst (rows d' side n y (edge, r)).
Proof.
  revert y edge r r'. induction n as [|n IH]; intros y edge r r' Hs; [reflexivity|].
  cbn [rows].
  destruct (row_sameInk d d' side y edge r r' Hs) as [He Hs'].
  destruct (row d side y (edge, r')) as [e1 r1].
  destruct (row d' side y (edge, r)) as [e2 r2]. simpl in He, Hs'. subst e2.
  apply IH. exact Hs'.
Qed.

Lemma getEdge_sameInk d d' side r r' :
  sameInk r r' -> fst (_getEdge d side r') = fst (_getEdge d' side r).
Proof.
  intros Hs. unfold _getEdge.
  assert (Hh : height r' = height r) by apply Hs. rewrite Hh.
  apply rows_sameInk. exact Hs.
Qed.

Lemma getEdges_sameInk d d' r r' :
  sameInk r r' -> fst (_getEdges d r') = fst (_getEdges d' r).
Proof.
  intros Hs. unfold _getEdges.
  pose proof (getEdge_sameInk d d' sideLeft r r' Hs) as El.
  destruct (getEdge_inset d sideLeft r r' Hs) as (Hs1 & _).
  destruct (getEdge_inset d' sideLeft r r (sameInk_refl r)) as (Hs2 & _).
  destruct (_getEdge d sideLeft r') as [l1 r1].
  destruct (_getEdge d' sideLeft r) as [l2 r2]. simpl in El, Hs1, Hs2. subst l2.
  assert (Hs3 : sameInk r2 r1).
  { eapply sameInk_trans; [apply sameInk_sym; exact Hs2 | exact Hs1]. }
  pose proof (getEdge_sameInk d d' sideRight r2 r1 Hs3) as Er.
  destruct (_getEdge d sideRight r1) as [rt1 r1'].
  destruct (_getEdge d' sideRight r2) as [rt2 r2']. simpl in Er. subst rt2.
  reflexivity.
Qed.

Lemma getEdges_ink d r : sameInk r (snd (_getEdges d r)).
Proof.
  unfold _getEdges.
  destruct (getEdge_inset d sideLeft r r (sameInk_refl r)) as (Hs1 & _).
  destruct (_getEdge d sideLeft r) as [l r1]. simpl in Hs1.
  destruct (getEdge_inset d sideRight r r1 Hs1) as (Hs2 & _).
  destruct (_getEdge d sideRight r1) as [rt r2]. exact Hs2.
Qed.

(** X1.  The profiles are those of the ink: the debug flag does not change
    them, and extracting them again from the raster that an extraction
    has painted gives them again. *)
Theorem profiles_stable (d d' : bool) (r : Raster) :
  fst (_getEdges d r) = fst (_getEdges d' r) /\
  fst (_getEdges d (snd (_getEdges d' r))) = fst (_getEdges d r).
Proof.
  split.
  - apply getEdges_sameInk, sameInk_refl.
  - apply getEdges_sameInk, getEdges_ink.
Qed.

(** ** What debug painting touches *)

Lemma rows_untouched side n y edge r : snd (rows false side n y (edge, r)) = r.
Proof.
  revert y edge. induction n as [|n IH]; intros y edge; [reflexivity|].
  cbn [rows]. unfold row.
  destruct (scan side r y (width r) 0); apply IH.
Qed.

Lemma sameBlanks_trans a b c :
  sameInk a b -> sameBlanks a b -> sameBlanks b c -> sameBlanks a c.
Proof.
  intros Hs Hab Hbc x y Hn. rewrite Hbc; [apply Hab; exact Hn|].
  intros Hl. apply Hn. apply Hs. exact Hl.
Qed.

Lemma row_blanks d side y edge r : sameBlanks r (snd (row d side y (edge, r))).
Proof.
  unfold row. destruct (scan side r y (width r) 0) as [i|] eqn:E; [|intros x y' _; reflexivity].
  destruct d; [|intros x y' _; reflexivity]. cbn [snd].
  apply scan_Some in E as (_ & Hl & _).
  intros x y' Hn. unfold setPixel; simpl.
  destruct ((x =? column side r i) && (y' =? y)) eqn:Eq; [|reflexivity].
  apply andb_true_iff in Eq as [E1 E2]. apply Nat.eqb_eq in E1, E2. subst.
  contradiction.
Qed.

Lemma rows_blanks d side n y edge r :
  sameInk r (snd (rows d side n y (edge, r))) /\
  sameBlanks r (snd (rows d side n y (edge, r))).
Proof.
  revert y edge r. induction n as [|n IH]; intros y edge r.
  - split; [apply sameInk_refl | intros x y' _; reflexivity].
  - cbn [rows].
    pose proof (row_ink d side y edge r) as Hi.
    pose proof (row_blanks d side y edge r) as Hb.
    destruct (row d side y (edge, r)) as [e1 r1]. simpl in Hi, Hb.
    destruct (IH (S y) e1 r1) as [Hi' Hb'].
    split; [eapply sameInk_trans; eauto | eapply sameBlanks_trans; eauto].
Qed.

(** X2.  Without the debug flag the raster is handed back as it was.  With it,
    only pixels that have ink are repainted: the ink stays where it is and
    every pixel without ink keeps its colour. *)
Theorem painting_is_confined (d : bool) (r : Raster) :
  snd (_getEdges false r) = r /\
  sameInk r (snd (_getEdges d r)) /\
  sameBlanks r (snd (_getEdges d r)).
Proof.
  split; [|split].
  - unfold _getEdges, _getEdge.
    pose proof (rows_untouched sideLeft (height r) 0 [] r) as H1.
    destruct (rows false sideLeft (height r) 0 ([], r)) as [l r1]. simpl in H1. subst r1.
    pose proof (rows_untouched sideRight (height r) 0 [] r) as H2.
    destruct (rows false sideRight (height r) 0 ([], r)) as [rt r2]. exact H2.
  - apply getEdges_ink.
  - unfold _getEdges, _getEdge.
    destruct (rows_blanks d sideLeft (height r) 0 [] r) as [Hi1 Hb1].
    destruct (rows d sideLeft (height r) 0 ([], r)) as [l r1]. simpl in Hi1, Hb1.
    destruct (rows_blanks d sideRight (height r1) 0 [] r1) as [Hi2 Hb2].
    destruct (rows d sideRight (height r1) 0 ([], r1)) as [rt r2]. simpl in *.
    eapply sameBlanks_trans; eauto.
Qed.

(** ** The length of a profile *)

Lemma assign_last edge i v : length edge <= i -> last (assign edge i v) = Some (Some v).
Proof.
  intros H. unfold assign.
  destruct (i <? length edge) eqn:E; [apply Nat.ltb_lt in E; lia|].
  rewrite app_assoc. apply last_snoc.
Qed.

Lemma row_noTrailingHole d side y edge r :
  length edge <= y -> noTrailingHole edge ->
  noTrailingHole (fst (row d side y (edge, r))).
Proof.
  intros Hlen H. unfold row.
  destruct (scan side r y (width r) 0) as [i|]; [|exact H].
  right. eexists. cbn [fst]. apply assign_last. exact Hlen.
Qed.

Lemma rows_noTrailingHole d side n y edge r :
  length edge <= y -> noTrailingHole edge ->
  noTrailingHole (fst (rows d side n y (edge, r))).
Proof.
  revert y edge r. induction n as [|n IH]; intros y edge r Hlen H; [exact H|].
  cbn [rows].
  pose proof (row_noTrailingHole d side y edge r Hlen H) as H1.
  pose proof (row_spec d side r y edge r (sameInk_refl r) Hlen) as Hspec.
  destruct (row d side y (edge, r)) as [e1 r1]. simpl in H1.
  destruct Hspec as (_ & Hlen1 & _).
  apply IH; assumption.
Qed.

(** X3.  The profile is a JavaScript array with holes: it ends with the entry
    of the last row that has ink.  Its length is at most the height of the
    raster, no row from its length on has ink, and when it is not empty
    its last row has ink; a raster without ink gives the empty array. *)
Theorem profile_length (d : bool) (side : Side) (r : Raster) :
  let edge := fst (_getEdge d side r) in
  length edge <= height r /\
  (forall y, length edge <= y < height r -> ~ inked r y) /\
  (0 < length edge -> inked r (length edge - 1)) /\
  ((forall y, y < height r -> ~ inked r y) -> edge = []).
Proof.
  intros edge.
  destruct (getEdge_inset d side r r (sameInk_refl r)) as (_ & Hlen & Hat).
  fold edge in Hlen, Hat.
  assert (Hnth : noTrailingHole edge).
  { apply rows_noTrailingHole; [simpl; lia | left; reflexivity]. }
  assert (Hlast : 0 < length edge -> inked r (length edge - 1)).
  { intros Hpos. apply (inset_inked side). rewrite <- Hat by lia.
    destruct Hnth as [E | (v & Hv)]; [rewrite E in Hpos; simpl in Hpos; lia|].
    unfold at_index. rewrite last_lookup in Hv.
    replace (length edge - 1) with (pred (length edge)) by lia.
    rewrite Hv. discriminate. }
  split; [exact Hlen|]. split; [|split; [exact Hlast|]].
  - intros y Hy Hink. apply (inset_inked side) in Hink. apply Hink.
    rewrite <- Hat by lia. apply at_index_ge. lia.
  - intros Hblank. destruct edge as [|e es] eqn:E; [reflexivity|]. exfalso.
    apply (Hblank (length (e :: es) - 1)); [simpl in *; lia|].
    apply Hlast. simpl. lia.
Qed.

(** ** Left and right entries of a row *)

(** X4.  In a row with ink both profiles have an entry, in a row without ink
    neither has; the entries are below the width, and the empty columns at
    the left and at the right leave room for at least one column of ink:
    their sum is below the width. *)
Theorem profiles_fit (d : bool) (r : Raster) (y : nat) :
  y < height r ->
  let edges := fst (_getEdges d r) in
  (inked r y ->
   exists l v, at_index (left edges) y = Some l /\
               at_index (right edges) y = Some v /\ l + v < width r /\
               lit r l y /\ lit r (width r - 1 - v) y) /\
  (~ inked r y ->
   at_index (left edges) y = None /\ at_index (right edges) y = None).
Proof.
  intros Hy edges. unfold edges, _getEdges.
  destruct (getEdge_inset d sideLeft r r (sameInk_refl r)) as (Hs1 & _ & Hl).
  destruct (_getEdge d sideLeft r) as [l r1]. simpl in Hs1, Hl.
  destruct (getEdge_inset d sideRight r r1 Hs1) as (_ & _ & Hr).
  destruct (_getEdge d sideRight r1) as [rt r2]. simpl in Hr.
  assert (Hh : height r1 = height r) by apply Hs1.
  cbn [fst left right]. rewrite (Hl y Hy), (Hr y ltac:(lia)).
  split.
  - intros Hink.
    destruct (inset sideLeft r y) as [a|] eqn:Ea;
      [|exfalso; apply (inset_inked sideLeft r y); trivial].
    destruct (inset sideRight r y) as [b|] eqn:Eb;
      [|exfalso; apply (inset_inked sideRight r y); trivial].
    exists a, b. split; [reflexivity|]. split; [reflexivity|].
    apply inset_left in Ea as (Ha & Hla & Hmin).
    apply inset_right in Eb as (Hb & Hlb & Hmax).
    split; [|split; assumption].
    destruct (decide (a + b < width r)) as [|Hge]; [assumption|]. exfalso.
    apply (Hmin (width r - 1 - b)); [lia | exact Hlb].
  - intros Hno. split.
    + destruct (inset sideLeft r y) eqn:E; [|reflexivity].
      exfalso. apply Hno, (inset_inked sideLeft). congruence.
    + destruct (inset sideRight r y) eqn:E; [|reflexivity].
      exfalso. apply Hno, (inset_inked sideRight). congruence.
Qed.

Lemma profiles_fit_witness :
  let r := ofRows 5 [[0; 9; 0; 9; 0]]%Z in
  exists l v, at_index (left (fst (_getEdges true r))) 0 = Some l /\
              at_index (right (fst (_getEdges true r))) 0 = Some v /\
              l + v < 5.
Proof.
  intros r.
  destruct (profiles_fit true r 0 ltac:(simpl; lia)) as [H _].
  destruct H as (l & v & Hl & Hv & Hlt & _).
  - exists 1. split; [simpl; lia | unfold lit; simpl; lia].
  - exists l, v. auto.
Defined.

(** ** Mirror images *)

Lemma scan_mirror r y n i :
  scan sideRight r y n i = scan sideLeft (mirror r) y n i.
Proof.
  revert i. induction n as [|n IH]; intros i; [reflexivity|].
  simpl. rewrite IH. reflexivity.
Qed.

Lemma rows_mirror n y edge r :
  fst (rows false sideRight n y (edge, r)) =
  fst (rows false sideLeft n y (edge, mirror r)).
Proof.
  revert y edge. induction n as [|n IH]; intros y edge; [reflexivity|].
  cbn [rows]. unfold row. rewrite scan_mirror.
  change (width (mirror r)) with (width r).
  destruct (scan sideLeft (mirror r) y (width r) 0) as [i|] eqn:E; [|apply IH].
  apply scan_Some in E as (Hi & _). unfold column.
  replace (width r - 1 - (width r - 1 - i)) with i by lia. apply IH.
Qed.

Lemma scan_mirror_left r y n i :
  i + n <= width r ->
  scan sideLeft r y n i = scan sideRight (mirror r) y n i.
Proof.
  revert i. induction n as [|n IH]; intros i Hi; [reflexivity|].
  simpl. replace (width r - 1 - (width r - 1 - i)) with i by lia.
  rewrite IH by lia. reflexivity.
Qed.

Lemma rows_mirror_left n y edge r :
  fst (rows false sideLeft n y (edge, r)) =
  fst (rows false sideRight n y (edge, mirror r)).
Proof.
  revert y edge. induction n as [|n IH]; intros y edge; [reflexivity|].
  cbn [rows]. unfold row. rewrite <- scan_mirror_left by (simpl; lia).
  change (width (mirror r)) with (width r).
  destruct (scan sideLeft r y (width r) 0) as [i|] eqn:E; [|apply IH].
  apply scan_Some in E as (Hi & _). unfold column.
  change (width (mirror r)) with (width r).
  replace (width r - 1 - (width r - 1 - i)) with i by lia. apply IH.
Qed.

(** X5.  The right profile of a raster is the left profile of its mirror
    image, and the other way round. *)
Theorem right_profile_is_mirrored_left (d d' : bool) (r : Raster) :
  fst (_getEdge d sideRight r) = fst (_getEdge d' sideLeft (mirror r)) /\
  fst (_getEdge d sideLeft r) = fst (_getEdge d' sideRight (mirror r)).
Proof.
  split.
  - rewrite (getEdge_sameInk d false sideRight r r (sameInk_refl r)).
    rewrite (getEdge_sameInk d' false sideLeft (mirror r) (mirror r) (sameInk_refl _)).
    unfold _getEdge. apply rows_mirror.
  - rewrite (getEdge_sameInk d false sideLeft r r (sameInk_refl r)).
    rewrite (getEdge_sameInk d' false sideRight (mirror r) (mirror r) (sameInk_refl _)).
    unfold _getEdge. apply rows_mirror_left.
Qed.

End KerningMore.

(** * Further properties of the distribution of child trees *)

Module TreeMore.

Import Tree TreeProofs.

Lemma split_length (trees : list BaseTree) (f : BaseTree -> bool) :
  (length (fst (split trees f)) + length (snd (split trees f)) = length trees)%nat.
Proof.
  rewrite <- length_app. apply Permutation_length, split_Permutation.
Qed.

Lemma prop_nil {A B} (i : Z) (f : A -> B) : prop (@nil A) i f = Throw TypeError.
Proof. unfold prop. destruct (i <? 0)%Z; reflexivity. Qed.

Lemma len_nil_iff {A} (a : list A) : len a = 0%Z <-> a = [].
Proof. unfold len. destruct a; simpl; split; intros; try congruence; lia. Qed.

Lemma takeCenter_right (b : bool) (l r : list BaseTree) :
  l <> [] -> r <> [] -> (len r = 1%Z -> b = true) ->
  right (takeCenter b l r) <> [].
Proof.
  intros Hl Hr Hb. destruct b; simpl; [exact Hr|].
  destruct r as [|x [|y r]]; simpl; try congruence.
  unfold len in Hb. simpl in Hb. specialize (Hb eq_refl). discriminate.
Qed.

(** X6.  Tree.js, JavaScript version, for no child or for four and more.  The
    children left of the threshold are [l], the others [r], both in the
    order of [this.trees].  When both have a member, the groups are [l]
    and [r] with the last of [l] or the first of [r] taken out as the
    centre, so every child is in one group, in the original order, and
    the right group is never empty.  When one of them is empty, which
    includes the case of no child at all, the method throws a
    TypeError. *)
Theorem distribute_js_cases (trees : list BaseTree) (threshold : Q) :
  length trees = 0%nat \/ (4 <= length trees)%nat ->
  let l := fst (split trees (fun t => Qlt_bool (position_x t) threshold)) in
  let r := snd (split trees (fun t => Qlt_bool (position_x t) threshold)) in
  (l <> [] -> r <> [] ->
   exists d c, _distributeTrees JavaScript trees threshold = Normal d /\
               center d = Some c /\ (last l = Some c \/ List.head r = Some c) /\
               left d ++ c :: right d = l ++ r /\ right d <> []) /\
  (l = [] \/ r = [] ->
   _distributeTrees JavaScript trees threshold = Throw TypeError).
Proof.
  intros Hn l r.
  pose proof (split_length trees (fun t => Qlt_bool (position_x t) threshold)) as Hlen.
  fold l r in Hlen.
  assert (E : _distributeTrees JavaScript trees threshold =
              if (len r =? 1)%Z then Normal (takeCenter true l r)
              else match prop l (len l - 1) (fun t => rect_width (bounds t)) with
                   | Throw e => Throw e
                   | Normal wl =>
                       match prop r 0 (fun t => rect_width (bounds t)) with
                       | Throw e => Throw e
                       | Normal wr => Normal (takeCenter (Qlt_bool wl wr) l r)
                       end
                   end).
  { unfold l, r. cbn [_distributeTrees]. unfold _distributeTrees_js.
    destruct trees as [|t0 [|t1 [|t2 [|t3 rest]]]]; simpl in Hn;
      try (exfalso; lia).
    - reflexivity.
    - destruct (split _ _). reflexivity. }
  rewrite E. clear E. split.
  - intros Hl Hr.
    pose proof (len_pos l Hl). pose proof (len_pos r Hr).
    assert (Hgen : forall b, (len r = 1%Z -> b = true) ->
              exists d c, Normal (takeCenter b l r) = Normal d /\
                center d = Some c /\ (last l = Some c \/ List.head r = Some c) /\
                left d ++ c :: right d = l ++ r /\ right d <> []).
    { intros b Hb. exists (takeCenter b l r).
      pose proof (takeCenter_right b l r Hl Hr Hb) as Hright.
      destruct b; unfold takeCenter, pop, shift in *; cbn [left center right fst snd] in *.
      - destruct (last_removelast l Hl) as (x & Hx & Ex). exists x.
        rewrite Hx. split; [reflexivity|]. split; [reflexivity|].
        split; [left; reflexivity|]. split; [|exact Hright].
        rewrite Ex at 2. rewrite <- app_assoc. reflexivity.
      - destruct r as [|x r'] eqn:Er; [congruence|]. exists x.
        split; [reflexivity|]. split; [reflexivity|].
        split; [right; reflexivity|]. split; [reflexivity | exact Hright]. }
    destruct (len r =? 1)%Z eqn:E1; [apply Hgen; reflexivity|].
    apply Z.eqb_neq in E1.
    destruct (prop_Normal l (len l - 1) (fun t => rect_width (bounds t))) as [wl ->]; [lia|].
    destruct (prop_Normal r 0 (fun t => rect_width (bounds t))) as [wr ->]; [lia|].
    apply Hgen. intros; contradiction.
  - intros [Hl | Hr].
    + assert (E1 : (len r =? 1)%Z = false).
      { apply Z.eqb_neq. unfold len. rewrite Hl in Hlen. simpl in Hlen. lia. }
      rewrite E1, Hl. rewrite prop_nil. reflexivity.
    + rewrite Hr. simpl.
      destruct l as [|x l'] eqn:El; [rewrite prop_nil; reflexivity|].
      destruct (prop_Normal (x :: l') (len (x :: l') - 1)
                  (fun t => rect_width (bounds t))) as [wl ->].
      { unfold len. simpl. lia. }
      reflexivity.
Qed.

Lemma distribute_js_cases_witness :
  exists d c, _distributeTrees JavaScript
                [mkTree 0 10 (mkRect 0 20); mkTree 1 30 (mkRect 20 20);
                 mkTree 2 50 (mkRect 40 20); mkTree 3 70 (mkRect 60 20)] 40 = Normal d /\
              center d = Some c /\ right d <> [].
Proof.
  destruct (distribute_js_cases
              [mkTree 0 10 (mkRect 0 20); mkTree 1 30 (mkRect 20 20);
               mkTree 2 50 (mkRect 40 20); mkTree 3 70 (mkRect 60 20)] 40
              ltac:(right; simpl; lia)) as [H _].
  destruct H as (d & c & E & Hc & _ & _ & Hr).
  - vm_compute. discriminate.
  - vm_compute. discriminate.
  - exists d, c. auto.
Defined.

(** X7.  Tree.js, TypeScript version, for no child or for four and more, [l]
    and [r] being the children whose bounds are centred left of the
    threshold and the others.  With no child in [l] the method throws a
    TypeError.  With children on both sides a centre is taken from the
    inner end of one of them and every child is in one group, in the
    original order.  With every child in [l], the last one becomes the
    centre when its right edge is beyond the threshold; otherwise the
    method returns with all children in the left group and no centre. *)
Theorem distribute_ts_cases (trees : list BaseTree) (threshold : Q) :
  length trees = 0%nat \/ (4 <= length trees)%nat ->
  let l := fst (split trees (fun t => Qlt_bool (rect_center_x (bounds t)) threshold)) in
  let r := snd (split trees (fun t => Qlt_bool (rect_center_x (bounds t)) threshold)) in
  (l = [] -> _distributeTrees TypeScript trees threshold = Throw TypeError) /\
  (l <> [] -> r <> [] ->
   exists d c, _distributeTrees TypeScript trees threshold = Normal d /\
               center d = Some c /\ (last l = Some c \/ List.head r = Some c) /\
               left d ++ c :: right d = l ++ r) /\
  (forall c, last l = Some c -> r = [] ->
     _distributeTrees TypeScript trees threshold =
     Normal (if Qlt_bool threshold (rect_right (bounds c))
             then {| left := removelast l; center := Some c; right := [] |}
             else {| left := l; center := None; right := [] |})).
Proof.
  intros Hn l r.
  pose proof (split_length trees (fun t => Qlt_bool (rect_center_x (bounds t)) threshold))
    as Hlen.
  fold l r in Hlen.
  assert (E : _distributeTrees TypeScript trees threshold =
    match (if (1 <? len l)%Z && (1 <? len r)%Z then
             match prop l (len l - 2) (fun t => rect_right (bounds t)),
                   prop l 0 (fun t => rect_left (bounds t)),
                   prop r (len r - 1) (fun t => rect_right (bounds t)),
                   prop r 1 (fun t => rect_left (bounds t)) with
             | Normal a, Normal b, Normal c, Normal d =>
                 Normal (Qlt_bool (c - d) (a - b))
             | _, _, _, _ => Throw TypeError
             end
           else
             match prop l (len l - 1) (fun t => rect_right (bounds t)) with
             | Normal a => Normal (Qlt_bool threshold a)
             | Throw e => Throw e
             end) with
    | Normal b => Normal (takeCenter b l r)
    | Throw e => Throw e
    end).
  { unfold l, r. cbn [_distributeTrees]. unfold _distributeTrees_ts.
    destruct trees as [|t0 [|t1 [|t2 [|t3 rest]]]]; simpl in Hn;
      try (exfalso; lia).
    - reflexivity.
    - destruct (split _ _). reflexivity. }
  rewrite E. clear E. split; [|split].
  - intros Hl. rewrite Hl. reflexivity.
  - intros Hl Hr.
    pose proof (len_pos l Hl). pose proof (len_pos r Hr).
    assert (Hgen : forall b,
              exists d c, Normal (takeCenter b l r) = Normal d /\
                center d = Some c /\ (last l = Some c \/ List.head r = Some c) /\
                left d ++ c :: right d = l ++ r).
    { intros b. exists (takeCenter b l r).
      destruct b; unfold takeCenter, pop, shift; cbn [left center right fst snd].
      - destruct (last_removelast l Hl) as (x & Hx & Ex). exists x.
        rewrite Hx. split; [reflexivity|]. split; [reflexivity|].
        split; [left; reflexivity|].
        rewrite Ex at 2. rewrite <- app_assoc. reflexivity.
      - destruct r as [|x r'] eqn:Er; [congruence|]. exists x.
        split; [reflexivity|]. split; [reflexivity|].
        split; [right; reflexivity | reflexivity]. }
    destruct ((1 <? len l)%Z && (1 <? len r)%Z) eqn:E1.
    + apply andb_true_iff in E1 as [E1 E2]. apply Z.ltb_lt in E1, E2.
      destruct (prop_Normal l (len l - 2) (fun t => rect_right (bounds t))) as [a ->]; [lia|].
      destruct (prop_Normal l 0 (fun t => rect_left (bounds t))) as [b ->]; [lia|].
      destruct (prop_Normal r (len r - 1) (fun t => rect_right (bounds t))) as [c' ->]; [lia|].
      destruct (prop_Normal r 1 (fun t => rect_left (bounds t))) as [d' ->]; [lia|].
      apply Hgen.
    + destruct (prop_Normal l (len l - 1) (fun t => rect_right (bounds t))) as [a ->]; [lia|].
      apply Hgen.
  - intros c Hc Hr. rewrite Hr.
    assert (E1 : ((1 <? len l)%Z && (1 <? len (@nil BaseTree))%Z) = false).
    { apply andb_false_iff. right. reflexivity. }
    rewrite E1.
    assert (E2 : prop l (len l - 1) (fun t => rect_right (bounds t))
                 = Normal (rect_right (bounds c))).
    { unfold prop, len. rewrite last_lookup in Hc.
      destruct l as [|x l']; [discriminate|].
      destruct (Z.of_nat (length (x :: l')) - 1 <? 0)%Z eqn:E3;
        [apply Z.ltb_lt in E3; simpl in E3; lia|].
      replace (Z.to_nat (Z.of_nat (length (x :: l')) - 1))
        with (pred (length (x :: l'))) by (simpl; lia).
      rewrite Hc. reflexivity. }
    rewrite E2. unfold takeCenter, pop, shift.
    destruct (Qlt_bool threshold (rect_right (bounds c))); simpl; rewrite ?Hc; reflexivity.
Qed.

Lemma distribute_ts_cases_witness :
  exists d, _distributeTrees TypeScript
              [mkTree 0 0 (mkRect 0 10); mkTree 1 0 (mkRect 10 10);
               mkTree 2 0 (mkRect 20 10); mkTree 3 0 (mkRect 30 10)] 100 = Normal d /\
            center d = None /\ length (left d) = 4%nat.
Proof.
  destruct (distribute_ts_cases
              [mkTree 0 0 (mkRect 0 10); mkTree 1 0 (mkRect 10 10);
               mkTree 2 0 (mkRect 20 10); mkTree 3 0 (mkRect 30 10)] 100
              ltac:(right; simpl; lia)) as (_ & _ & H).
  specialize (H (mkTree 3 0 (mkRect 30 10)) ltac:(vm_compute; reflexivity)
                ltac:(vm_compute; reflexivity)).
  eexists. split; [exact H|]. vm_compute. split; reflexivity.
Defined.

End TreeMore.

(** * Further properties of the word tree *)

Section WordTreeMore.

Context {Path : Type} {api : GlyphApi Path}.
Variable version : Version.
Variable options : WordTreeOptions Path.

Implicit Types (t : WordTree Path) (g : Glyph Path) (r : GlyphRef).

(** ** How [grow] can end *)

Lemma finish_rooted t first fg' p :
  rooted t ->
  rooted (set_itemPivot p (set_heap (<[first := fg']> (heap t)) t)).
Proof.
  intros [[H1 H2 H3] Hne]. split; [|exact Hne].
  constructor; cbn [glyphs heap lowestGlyph set_itemPivot set_heap];
    rewrite ?length_insert; assumption.
Qed.

Lemma step_prefix t t' : step options t t' -> glyphs t `prefix_of` glyphs t'.
Proof.
  intros Hs. destruct Hs
    as [code Hc | first fg fg' cand placed code Hf Hfg Hb Hext Hdef r heap' HF].
  - reflexivity.
  - destruct (crossesAny cand placed); cbn [glyphs];
      [reflexivity | apply prefix_app_r; reflexivity].
Qed.

Lemma missingIn_String char rest e :
  missingIn options rest e -> missingIn options (String char rest) e.
Proof.
  destruct e as [|c|]; simpl; trivial. intros [H1 H2]. split; [right; exact H1 | exact H2].
Qed.

Lemma growRecursive_rooted string prev t :
  rooted t -> rooted (snd (_growRecursive version options prev string t)).
Proof.
  intros Hr.
  apply (growRecursive_invariant version options (fun _ => True)); trivial.
Qed.

(** The recursion on a tree that has its root, from a glyph of the store:
    it returns, or it throws the glyph-not-found error for a character of
    the string that has no glyph. *)
Lemma growRecursive_outcome f string :
  font options = Some f ->
  forall prev t,
    rooted t -> (prev < length (heap t))%nat ->
    match fst (_growRecursive version options prev string t) with
    | Normal _ => True
    | Throw e => missingIn options string e
    end.
Proof.
  intros Hfont. induction string as [|char rest IH]; intros prev t Hr Hprev.
  - exact I.
  - rewrite growRecursive_String.
    destruct (lookup_lt_is_Some_2 (heap t) prev Hprev) as [pg ->].
    generalize (branchesInOrder version options pg). intros bs. clear Hprev.
    revert t Hr. induction bs as [|b bs IHbs]; intros t Hr.
    + exact I.
    + rewrite forEach_tryBranch. cbv beta.
      destruct (glyphDefinitions f !! charCodeAt0 char) as [definition|] eqn:Edef0.
      * pose proof (definitionOf_Some options f _ definition Hfont Edef0) as Edef.
        destruct (placeCandidate_outcome options t char b definition Hr Edef)
          as (t1 & Hr1 & _ & Hlen & [(E & _) | (E & _)]); rewrite E.
        -- apply IHbs. exact Hr1.
        -- pose proof (IH (length (heap t)) t1 Hr1 ltac:(lia)) as Hrec.
           pose proof (growRecursive_rooted rest (length (heap t)) t1 Hr1) as Hr2.
           destruct (_growRecursive version options (length (heap t)) rest t1)
             as [[[]|e] t2]; simpl in Hrec, Hr2.
           ++ apply IHbs. exact Hr2.
           ++ simpl. apply missingIn_String. exact Hrec.
      * rewrite (placeCandidate_missing options f t char b Hfont Edef0). simpl.
        split; [left|]. unfold defined, definitionOf. rewrite Hfont, Edef0.
        intros [? ?]. discriminate.
Qed.

Lemma set_lookups_wf t v : wf t -> wf (set_lookups v t).
Proof. intros [H1 H2 H3]. constructor; assumption. Qed.

Lemma grow_rooted_prefix c rest t definition :
  wf t ->
  definitionOf options (charCodeAt0 c) = Some definition ->
  rooted (snd (grow version options (String c rest) t)) /\
  glyphs t `prefix_of` glyphs (snd (grow version options (String c rest) t)).
Proof.
  intros Hwf Hdef.
  refine (grow_invariant version options
            (fun s => rooted s /\ glyphs t `prefix_of` glyphs s)
            _ _ c rest t definition Hwf Hdef _).
  - intros s s' Hr [_ Hp] Hs. split; [eapply step_rooted; eauto|].
    etransitivity; [exact Hp | eapply step_prefix; eauto].
  - intros s first fg fg' p Hr [_ Hp] _ _ _ _. split; [apply finish_rooted; exact Hr|].
    exact Hp.
  - split; [apply withRoot_rooted; exact Hwf|].
    cbn [withRoot glyphs]. apply prefix_app_r. reflexivity.
Qed.

Lemma grow_outcome f c rest t :
  font options = Some f -> wf t ->
  let result := grow version options (String c rest) t in
  match fst result with
  | Normal _ => fst result = Normal tt
  | Throw e => missingIn options (String c rest) e
  end /\
  wf (snd result) /\ glyphs t `prefix_of` glyphs (snd result).
Proof.
  intros Hfont Hwf result. split.
  - unfold result.
    destruct (glyphDefinitions f !! charCodeAt0 c) as [definition|] eqn:Edef0.
    + pose proof (definitionOf_Some options f _ definition Hfont Edef0) as Edef.
      rewrite (grow_run version options c rest t definition Edef).
      pose proof (withRoot_rooted t (charCodeAt0 c) (rootObject version definition) Hwf)
        as HrR.
      pose proof (growRecursive_outcome f rest Hfont (length (heap t)) _ HrR) as Hrec.
      pose proof (growRecursive_rooted rest (length (heap t)) _ HrR) as Hr1.
      pose proof (growRecursive_invariant version options
                    (fun s => (length (heap t) < length (heap s))%nat)) as Hlen.
      specialize (Hlen ltac:(intros s s' _ Hl Hs;
                              pose proof (step_heap_length options s s' Hs);
                              cbv beta in *; lia)
                       rest (length (heap t)) _ HrR).
      cbn [withRoot heap] in Hrec, Hlen. rewrite length_app in Hrec, Hlen.
      specialize (Hrec ltac:(simpl; lia)).
      specialize (Hlen ltac:(simpl; lia)). destruct Hlen as [_ Hlen].
      destruct (_growRecursive version options (length (heap t)) rest
                  (withRoot t (charCodeAt0 c) (rootObject version definition)))
        as [[[]|e] t1]; simpl in Hrec, Hr1, Hlen.
      * destruct (rooted_first t1 Hr1) as (first & fg & Hf & Hfg).
        destruct (finishGrow_run version options t1 first fg (length (heap t))
                    Hr1 Hf Hfg Hlen) as (fg' & p & _ & _ & E).
        rewrite E. reflexivity.
      * simpl. apply missingIn_String. exact Hrec.
    + rewrite (grow_missing version options f c rest t Hfont Edef0). simpl.
      split; [left|]. unfold defined, definitionOf. rewrite Hfont, Edef0.
      intros [? ?]. discriminate.
  - unfold result.
    destruct (glyphDefinitions f !! charCodeAt0 c) as [definition|] eqn:Edef0.
    + pose proof (definitionOf_Some options f _ definition Hfont Edef0) as Edef.
      destruct (grow_rooted_prefix c rest t definition Hwf Edef) as [[Hw _] Hp].
      split; assumption.
    + rewrite (grow_missing version options f c rest t Hfont Edef0). simpl.
      split; [apply set_lookups_wf; exact Hwf | reflexivity].
Qed.

(** X8.  How [grow] of a word that is not empty can end on a well-formed
    tree.  On a tree without a font it throws a TypeError in its first
    statement and leaves the tree as it was; that is the only TypeError.
    On a tree with a font it returns, or throws the glyph-not-found error
    for a character of the word that the font has no glyph for; it
    returns when the font has a glyph for every character of the word.
    It follows no reference out of the store.  Either way the tree stays
    well-formed, and the glyphs it had stay where they were at the front
    of the glyph list: on a tree that already has glyphs, [glyphs[0]] is
    still the old root. *)
Theorem grow_fails_only_for_a_missing_glyph (word : string) (t : WordTree Path) :
  wf t -> word <> EmptyString ->
  let result := grow version options word t in
  (fst result = Throw TypeError <-> font options = None) /\
  (font options = None -> snd result = t) /\
  (fst result = Normal tt \/ fst result = Throw TypeError \/
   exists char, fst result = Throw (GlyphNotFound char) /\
                char ∈ list_ascii_of_string word /\
                ~ defined options (charCodeAt0 char)) /\
  (forall f, font options = Some f ->
     (forall char, char ∈ list_ascii_of_string word ->
                   is_Some (glyphDefinitions f !! charCodeAt0 char)) ->
     fst result = Normal tt) /\
  wf (snd result) /\
  glyphs t `prefix_of` glyphs (snd result).
Proof.
  intros Hwf Hword result.
  destruct word as [|c rest]; [congruence|]. clear Hword.
  destruct (font options) as [f|] eqn:Hfont.
  - destruct (grow_outcome f c rest t Hfont Hwf) as [Hout Hstate].
    fold result in Hout, Hstate.
    split; [|split; [discriminate|split; [|split; [|exact Hstate]]]].
    + split; [|discriminate]. intros E. rewrite E in Hout. contradiction.
    + destruct (fst result) as [[]|[|char|]]; simpl in Hout; try contradiction.
      * left. reflexivity.
      * right. right. exists char. destruct Hout. auto.
    + intros f' [= <-] Hall.
      destruct (fst result) as [[]|[|char|]]; simpl in Hout;
        try contradiction; [reflexivity|].
      destruct Hout as [Hin Hn]. destruct Hn.
      unfold defined, definitionOf. rewrite Hfont. apply Hall. exact Hin.
  - unfold result. rewrite (grow_nofont version options _ t Hfont). cbn [fst snd].
    split; [split; reflexivity|]. split; [reflexivity|].
    split; [right; left; reflexivity|]. split; [discriminate|].
    split; [exact Hwf | reflexivity].
Qed.

(** ** Nothing is left in the active layer *)

Lemma step_tidySince t0 t t' :
  rooted t -> (length (heap t0) <= length (heap t))%nat ->
  tidySince t0 t -> step options t t' -> tidySince t0 t'.
Proof.
  intros Hr Hlen Ht Hs.
  destruct Hs
    as [code Hc | first fg fg' cand placed code Hf Hfg Hb Hext Hdef r0 heap' HF].
  - exact Ht.
  - destruct (rooted_head t first Hr Hf) as (Hlt & _ & _).
    pose proof (store_length t first fg' cand Hlt) as Hl.
    change (length heap' = S (length (heap t))) in Hl.
    assert (Hnew : r0 ∉ glyphs t).
    { intros Hin. pose proof (wf_glyphs t (proj1 Hr) r0 Hin). unfold r0 in *. lia. }
    intros r Hrange.
    assert (Hrange' : (length (heap t0) <= r <= length (heap t))%nat).
    { destruct (crossesAny cand placed); cbn [heap] in Hrange; lia. }
    destruct (decide (r = r0)) as [->|Hne].
    + destruct (crossesAny cand placed); cbn [glyphs parents].
      * right. split; [exact Hnew | apply lookup_delete_eq].
      * left. split; [apply elem_of_app; right; left | apply lookup_insert_eq].
    + assert (Hold : (length (heap t0) <= r < length (heap t))%nat)
        by (unfold r0 in Hne; lia).
      destruct (crossesAny cand placed); cbn [glyphs parents].
      * rewrite lookup_delete_ne by congruence.
        rewrite lookup_insert_ne by congruence. apply Ht. exact Hold.
      * rewrite !lookup_insert_ne by congruence.
        destruct (Ht r Hold) as [[Hin Hp] | [Hnin Hp]]; [left | right].
        -- split; [apply elem_of_app; left; exact Hin | exact Hp].
        -- split; [|exact Hp]. intros Hin. apply elem_of_app in Hin as [Hin|Hin];
             [contradiction|]. apply list_elem_of_singleton in Hin. contradiction.
Qed.

(** X9.  Whatever [grow] does, on a well-formed tree: every glyph it allocated
    is in the glyph list and hangs in the item of the tree, or is in
    neither; none is left in the active layer, also when [grow] throws.
    The glyphs that were in the store before hang where they hung. *)
Theorem grow_keeps_tree_tidy (word : string) (t : WordTree Path) :
  wf t ->
  tidySince t (snd (grow version options word t)) /\
  frozenFrom t (snd (grow version options word t)).
Proof.
  intros Hwf.
  assert (Hsame : forall s, heap s = heap t -> parents s = parents t ->
                            tidySince t s /\ frozenFrom t s).
  { intros s Hh Hp. split.
    - intros r Hr. rewrite Hh in Hr. lia.
    - split; [rewrite Hh; lia|]. intros r _. rewrite Hp. reflexivity. }
  destruct (font options) as [f|] eqn:Hfont;
    [|rewrite (grow_nofont version options word t Hfont); apply Hsame; reflexivity].
  destruct word as [|c rest].
  { assert (E : grow version options EmptyString t = (Throw TypeError, t))
      by (unfold grow, bind, _createGlyph; rewrite Hfont; reflexivity).
    rewrite E. apply Hsame; reflexivity. }
  destruct (glyphDefinitions f !! charCodeAt0 c) as [definition|] eqn:Edef0.
  - pose proof (definitionOf_Some options f _ definition Hfont Edef0) as Edef.
    refine (grow_invariant version options
              (fun s => tidySince t s /\ frozenFrom t s)
              _ _ c rest t definition Hwf Edef _).
    + intros s s' Hr [Ht Hf] Hs. split.
      * apply (step_tidySince t s s' Hr (proj1 Hf) Ht Hs).
      * eapply step_frozenFrom; eauto.
    + intros s first fg fg' p Hr [Ht Hf] _ _ _ _. split.
      * intros r Hrange. cbn [heap glyphs parents set_itemPivot set_heap] in *.
        rewrite length_insert in Hrange. apply Ht. exact Hrange.
      * destruct Hf as [Hl Hp]. split; cbn [heap parents set_itemPivot set_heap].
        -- rewrite length_insert. exact Hl.
        -- exact Hp.
    + split.
      * intros r Hrange. cbn [withRoot heap glyphs parents] in *.
        rewrite length_app in Hrange. simpl in Hrange.
        assert (r = length (heap t)) as -> by lia.
        left. split; [apply elem_of_app; right; left | apply lookup_insert_eq].
      * split; cbn [withRoot heap parents].
        -- rewrite length_app. lia.
        -- intros r Hr. rewrite !lookup_insert_ne by lia. reflexivity.
  - rewrite (grow_missing version options f c rest t Hfont Edef0).
    apply Hsame; reflexivity.
Qed.

End WordTreeMore.

(** * The end of growth and [chop] *)

Section WordTreeEnds.

Context {Path : Type} {api : GlyphApi Path}.
Variable version : Version.
Variable options : WordTreeOptions Path.

Implicit Types (t : WordTree Path) (g : Glyph Path) (r : GlyphRef).

(** ** A root without branches *)

(** X10.  When the word has one character, or when the glyph of the first
    character offers no branch, [grow] puts that glyph into the tree and
    returns: the characters after it are dropped without being looked up,
    so that no error is thrown for those the font does not have.  (The
    tree has no lowest glyph yet, as after [chop] or on a new tree.) *)
Theorem grow_stops_at_a_bare_root c rest t definition :
  definitionOf options (charCodeAt0 c) = Some definition ->
  lowestGlyph t = None ->
  rest = EmptyString \/
  branchesInOrder version options (rootObject version definition) = [] ->
  grow version options (String c rest) t =
  (Normal tt,
   set_itemPivot (pivot (rootObject version definition))
     (withRoot t (charCodeAt0 c) (rootObject version definition))).
Proof.
  intros Hdef Hlow Hstop.
  rewrite (grow_run version options c rest t definition Hdef).
  set (root := rootObject version definition).
  set (tR := withRoot t (charCodeAt0 c) root).
  assert (Hroot : heap tR !! length (heap t) = Some root).
  { unfold tR, withRoot. cbn [heap]. rewrite lookup_app_r by lia.
    replace (length (heap t) - length (heap t))%nat with 0%nat by lia. reflexivity. }
  assert (E : _growRecursive version options (length (heap t)) rest tR = (Normal tt, tR)).
  { destruct Hstop as [-> | Hbare]; [reflexivity|].
    destruct rest as [|char rest']; [reflexivity|].
    rewrite growRecursive_String, Hroot. fold root in Hbare. rewrite Hbare. reflexivity. }
  rewrite E. unfold finishGrow.
  assert (Eadj : _adjustTrunk options tR = (Normal tt, tR)).
  { unfold _adjustTrunk. unfold tR at 1. cbn [withRoot lowestGlyph]. rewrite Hlow.
    reflexivity. }
  destruct version; unfold bind, ret, deref; rewrite ?Eadj, Hroot; reflexivity.
Qed.

(** ** chop *)

Lemma forEach_remove rs t :
  exists ps,
    forEach remove rs t = (Normal tt, set_parents ps t) /\
    (forall r, r ∈ rs -> ps !! r = None) /\
    (forall r, r ∉ rs -> ps !! r = parents t !! r).
Proof.
  revert t. induction rs as [|r0 rs IH]; intros t.
  - exists (parents t). split; [destruct t; reflexivity|]. split; [|reflexivity].
    intros r Hr. inversion Hr.
  - rewrite forEach_cons. unfold bind, remove at 1.
    destruct (IH (set_parents (delete r0 (parents t)) t)) as (ps & E & Hin & Hout).
    exists ps. rewrite E. split; [reflexivity|]. split.
    + intros r Hr. destruct (decide (r ∈ rs)) as [Hrs|Hrs]; [apply Hin; exact Hrs|].
      apply elem_of_cons in Hr as [->|Hr]; [|contradiction].
      rewrite (Hout r0 Hrs). cbn [parents set_parents]. apply lookup_delete_eq.
    + intros r Hr. apply not_elem_of_cons in Hr as [Hne Hrs].
      rewrite (Hout r Hrs). cbn [parents set_parents]. apply lookup_delete_ne. congruence.
Qed.

(** X12.  [chop] never throws.  It empties the glyph list, unsets the lowest
    glyph and detaches every glyph that was in the list; the items of all
    other glyphs hang where they hung, and the store, the pivot of the
    item of the tree and the lookups made are as before.  The tree it
    leaves is well-formed, and a second [chop] changes nothing. *)
Theorem chop_clears_the_tree (t : WordTree Path) :
  let t' := snd (chop t) in
  fst (chop t) = Normal tt /\
  glyphs t' = [] /\ lowestGlyph t' = None /\
  (forall r, r ∈ glyphs t -> parents t' !! r = None) /\
  (forall r, r ∉ glyphs t -> parents t' !! r = parents t !! r) /\
  heap t' = heap t /\ itemPivot t' = itemPivot t /\ lookups t' = lookups t /\
  wf t' /\
  chop t' = (Normal tt, t').
Proof.
  intros t'.
  destruct (forEach_remove (glyphs t) t) as (ps & E & Hin & Hout).
  assert (Echop : chop t =
                  (Normal tt, set_lowestGlyph None (set_glyphs [] (set_parents ps t)))).
  { unfold chop, bind. rewrite E. reflexivity. }
  unfold t'. rewrite Echop.
  cbn [fst snd glyphs lowestGlyph heap itemPivot lookups parents
       set_lowestGlyph set_glyphs set_parents].
  split; [reflexivity|]. split; [reflexivity|]. split; [reflexivity|].
  split; [exact Hin|]. split; [exact Hout|].
  split; [reflexivity|]. split; [reflexivity|]. split; [reflexivity|].
  split.
  - constructor; cbn [glyphs lowestGlyph set_lowestGlyph set_glyphs].
    + constructor.
    + intros r Hr. inversion Hr.
    + discriminate.
  - reflexivity.
Qed.

End WordTreeEnds.

(** * Growing again after [chop] *)

Section WordTreeRegrow.

Context {Path : Type} {api : GlyphApi Path}.
Variable version : Version.
Variable options : WordTreeOptions Path.
Variable base : WordTree Path.

Implicit Types (t : WordTree Path) (g : Glyph Path) (r : GlyphRef).

(** ** Running on top of another store *)

Lemma sim_ret {A} (RA : A -> A -> Prop) a a' :
  RA a a' -> simulates base RA (ret a) (ret a').
Proof. intros H t t' HR. simpl. auto. Qed.

Lemma sim_bind {A B} (RA : A -> A -> Prop) (RB : B -> B -> Prop)
    (m m' : Method Path A) (f f' : A -> Method Path B) :
  simulates base RA m m' ->
  (forall a a', RA a a' -> simulates base RB (f a) (f' a')) ->
  simulates base RB (bind m f) (bind m' f').
Proof.
  intros Hm Hf t t' HR. unfold bind. specialize (Hm t t' HR).
  destruct (m t) as [[a|e] s], (m' t') as [[a'|e'] s']; try contradiction.
  - destruct Hm as [Ha Hs]. apply (Hf a a' Ha s s' Hs).
  - exact Hm.
Qed.

Lemma sim_forEach {A} (body body' : A -> Method Path unit) l :
  (forall a, simulates base eq (body a) (body' a)) ->
  simulates base eq (forEach body l) (forEach body' l).
Proof.
  intros H. induction l as [|a l IH].
  - apply sim_ret. reflexivity.
  - cbn [forEach]. eapply sim_bind; [apply H|]. intros _ _ _. exact IH.
Qed.

Lemma shifted_lookup t t' r :
  regrown base t t' -> heap t' !! shifted base r = heap t !! r.
Proof.
  intros (_ & _ & Hh & _). rewrite Hh. unfold shifted.
  rewrite lookup_app_r by lia. f_equal. lia.
Qed.

Lemma sim_deref r : simulates base eq (deref r) (deref (shifted base r)).
Proof.
  intros t t' HR. unfold deref. rewrite (shifted_lookup t t' r HR).
  destruct (heap t !! r); split; trivial.
Qed.

Lemma sim_mutate r f : simulates base eq (mutate r f) (mutate (shifted base r) f).
Proof.
  intros t t' HR. unfold mutate. rewrite (shifted_lookup t t' r HR).
  destruct (heap t !! r) as [g|]; [|split; trivial].
  split; [reflexivity|].
  destruct HR as (Hg & Hl & Hh & Hk & Hp & Hb).
  split; [exact Hg|]. split; [exact Hl|]. split.
  { cbn [heap set_heap]. rewrite Hh. unfold shifted. apply insert_app_r. }
  split; [exact Hk|]. split; [|exact Hb].
  intros r0 Hr0. cbn [heap parents set_heap] in *. rewrite length_insert in Hr0.
  apply Hp. exact Hr0.
Qed.

Lemma sim_remove r : simulates base eq (remove r) (remove (shifted base r)).
Proof.
  intros t t' (Hg & Hl & Hh & Hk & Hp & Hb). unfold remove.
  split; [reflexivity|].
  split; [exact Hg|]. split; [exact Hl|]. split; [exact Hh|]. split; [exact Hk|].
  cbn [heap parents set_parents]. split.
  - intros r0 Hr0. destruct (decide (r0 = r)) as [->|Hne].
    + rewrite !lookup_delete_eq. reflexivity.
    + rewrite !lookup_delete_ne by (unfold shifted; lia). apply Hp. exact Hr0.
  - intros r0 Hr0. rewrite lookup_delete_ne by (unfold shifted; lia).
    apply Hb. exact Hr0.
Qed.

Lemma sim_addGlyph r : simulates base eq (_addGlyph r) (_addGlyph (shifted base r)).
Proof.
  intros t t' (Hg & Hl & Hh & Hk & Hp & Hb). unfold _addGlyph, addChild, bind.
  split; [reflexivity|]. unfold regrown.
  cbn [glyphs lowestGlyph heap lookups parents set_parents set_glyphs].
  split; [rewrite Hg, fmap_app; reflexivity|].
  split; [exact Hl|]. split; [exact Hh|]. split; [exact Hk|]. split.
  - intros r0 Hr0. destruct (decide (r0 = r)) as [->|Hne].
    + rewrite !lookup_insert_eq. reflexivity.
    + rewrite !lookup_insert_ne by (unfold shifted; lia). apply Hp. exact Hr0.
  - intros r0 Hr0. rewrite lookup_insert_ne by (unfold shifted; lia).
    apply Hb. exact Hr0.
Qed.

Lemma sim_createGlyph char :
  simulates base (fun r r' => r' = shifted base r)
    (_createGlyph options char) (_createGlyph options char).
Proof.
  intros t t' HR. pose proof HR as (Hg & Hl & Hh & Hk & Hp & Hb).
  unfold _createGlyph. destruct (font options) as [f|]; [|split; trivial].
  destruct char as [c|]; [|split; trivial].
  cbn [heap parents set_lookups].
  destruct (glyphDefinitions f !! charCodeAt0 c) as [definition|].
  - cbv zeta. split; [rewrite Hh, length_app; reflexivity|].
    cbn [heap parents set_lookups set_heap set_parents].
    split; [exact Hg|]. split; [exact Hl|].
    split; [cbn [heap set_parents set_heap]; rewrite Hh, app_assoc; reflexivity|].
    split; [cbn [lookups set_parents set_heap set_lookups];
            rewrite Hk, app_assoc; reflexivity|].
    cbn [heap parents set_parents set_heap set_lookups].
    assert (Hnew : length (heap t') = shifted base (length (heap t)))
      by (rewrite Hh, length_app; reflexivity).
    rewrite Hnew. split.
    + intros r0 Hr0. rewrite length_app in Hr0. simpl in Hr0.
      destruct (decide (r0 = length (heap t))) as [->|Hne].
      * rewrite !lookup_insert_eq. reflexivity.
      * rewrite !lookup_insert_ne by (unfold shifted; lia). apply Hp. lia.
    + intros r0 Hr0. rewrite lookup_insert_ne by (unfold shifted; lia).
      apply Hb. exact Hr0.
  - split; [reflexivity|].
    split; [exact Hg|]. split; [exact Hl|]. split; [exact Hh|].
    split; [cbn [lookups set_lookups]; rewrite Hk, app_assoc; reflexivity|].
    split; assumption.
Qed.

Lemma sim_adjustTrunk : simulates base eq (_adjustTrunk options) (_adjustTrunk options).
Proof.
  intros t t' HR. pose proof HR as (Hg & Hl & _).
  unfold _adjustTrunk. rewrite Hl, Hg.
  destruct (lowestGlyph t) as [lowest|]; [|split; trivial]. cbn [fmap option_fmap option_map].
  rewrite list_lookup_fmap.
  destruct (glyphs t !! 0%nat) as [first|]; [|split; trivial].
  cbn [fmap option_fmap option_map].
  clear Hg Hl. revert t t' HR.
  change (simulates base eq
    (lowestG <- deref lowest ;;
     firstG <- deref first ;;
     let distance := boundsBottom lowestG - py (position firstG) in
     if branchBottomDistance options * -1 <? distance then
       mutate first (fun g =>
         let tr := extendTrunk (distance + branchBottomDistance options)
                     (trunk g) in
         set_pivot (Some (firstSegment tr)) (set_trunk tr g))
     else ret tt)%js
    (lowestG <- deref (shifted base lowest) ;;
     firstG <- deref (shifted base first) ;;
     let distance := boundsBottom lowestG - py (position firstG) in
     if branchBottomDistance options * -1 <? distance then
       mutate (shifted base first) (fun g =>
         let tr := extendTrunk (distance + branchBottomDistance options)
                     (trunk g) in
         set_pivot (Some (firstSegment tr)) (set_trunk tr g))
     else ret tt)%js).
  eapply sim_bind; [apply sim_deref|]. intros lg _ <-.
  eapply sim_bind; [apply sim_deref|]. intros fg _ <-.
  cbv zeta. destruct (_ <? _); [apply sim_mutate | apply sim_ret; reflexivity].
Qed.

Lemma sim_derefAll rs :
  simulates base eq (derefAll rs) (derefAll (shifted base <$> rs)).
Proof.
  induction rs as [|r rs IH].
  - apply sim_ret. reflexivity.
  - cbn [derefAll fmap list_fmap]. eapply sim_bind; [apply sim_deref|].
    intros g _ <-. eapply sim_bind; [exact IH|]. intros gs _ <-.
    apply sim_ret. reflexivity.
Qed.

Lemma sim_crossesGlyph r :
  simulates base eq (_crossesGlyph r) (_crossesGlyph (shifted base r)).
Proof.
  unfold _crossesGlyph. eapply sim_bind; [apply sim_deref|]. intros g _ <-.
  apply (sim_bind eq eq); [|intros placed _ <-; apply sim_ret; reflexivity].
  intros t t' HR. pose proof HR as (Hg & _). rewrite Hg.
  apply sim_derefAll. exact HR.
Qed.

Lemma sim_updateLowest r :
  simulates base eq (updateLowest r) (updateLowest (shifted base r)).
Proof.
  intros t t' HR. pose proof HR as (Hg & Hl & Hh & Hk & Hp & Hb).
  unfold updateLowest. rewrite Hl.
  destruct (lowestGlyph t) as [lowest|]; cbn [fmap option_fmap option_map].
  - clear Hg Hl Hh Hk Hp Hb. revert t t' HR.
    change (simulates base eq
      (g <- deref r ;;
       l <- deref lowest ;;
       fun t' => (Normal tt,
                  set_lowestGlyph
                    (Some (if isLowerThan g l then r else lowest)) t'))%js
      (g <- deref (shifted base r) ;;
       l <- deref (shifted base lowest) ;;
       fun t' => (Normal tt,
                  set_lowestGlyph
                    (Some (if isLowerThan g l then shifted base r
                           else shifted base lowest)) t'))%js).
    eapply sim_bind; [apply sim_deref|]. intros g _ <-.
    eapply sim_bind; [apply sim_deref|]. intros l _ <-.
    intros t t' (Hg & Hl & Hh & Hk & Hp & Hb). split; [reflexivity|].
    split; [exact Hg|]. split; [|split; [exact Hh|split; [exact Hk|split; assumption]]].
    cbn [lowestGlyph set_lowestGlyph]. destruct (isLowerThan g l); reflexivity.
  - split; [reflexivity|].
    split; [exact Hg|]. split; [reflexivity|].
    split; [exact Hh|]. split; [exact Hk|]. split; assumption.
Qed.

Lemma sim_tryBranch char (continue continue' : GlyphRef -> Method Path unit) branch :
  (forall r, simulates base eq (continue r) (continue' (shifted base r))) ->
  simulates base eq (tryBranch options char continue branch)
                    (tryBranch options char continue' branch).
Proof.
  intros Hc. unfold tryBranch.
  eapply sim_bind; [apply sim_createGlyph|]. intros r _ ->.
  eapply sim_bind; [apply sim_mutate|]. intros _ _ _.
  eapply sim_bind; [apply sim_adjustTrunk|]. intros _ _ _.
  eapply sim_bind; [apply sim_crossesGlyph|]. intros crosses _ <-.
  destruct crosses; [apply sim_remove|].
  eapply sim_bind; [apply sim_updateLowest|]. intros _ _ _.
  eapply sim_bind; [apply sim_addGlyph|]. intros _ _ _.
  apply Hc.
Qed.

Lemma sim_growRecursive string :
  forall prev,
    simulates base eq (_growRecursive version options prev string)
                      (_growRecursive version options (shifted base prev) string).
Proof.
  induction string as [|char rest IH]; intros prev.
  - apply sim_ret. reflexivity.
  - cbn [_growRecursive]. eapply sim_bind; [apply sim_deref|]. intros pg _ <-.
    apply sim_forEach. intros branch. apply sim_tryBranch. exact IH.
Qed.

Lemma sim_grow string :
  simulates base eq (grow version options string) (grow version options string).
Proof.
  unfold grow.
  eapply sim_bind; [apply sim_createGlyph|]. intros r _ ->.
  apply (sim_bind eq eq).
  { destruct version; [apply sim_ret; reflexivity | apply sim_mutate]. }
  intros _ _ _.
  eapply sim_bind; [apply sim_addGlyph|]. intros _ _ _.
  eapply sim_bind; [apply sim_growRecursive|]. intros _ _ _.
  apply (sim_bind eq eq).
  { destruct version; [apply sim_ret; reflexivity | apply sim_adjustTrunk]. }
  intros _ _ _.
  eapply sim_bind; [apply sim_deref|]. intros g _ <-.
  intros t t' (Hg & Hl & Hh & Hk & Hp & Hb). split; [reflexivity|].
  split; [exact Hg|]. split; [exact Hl|]. split; [exact Hh|]. split; [exact Hk|].
  split; assumption.
Qed.

Lemma regrown_start :
  glyphs base = [] -> lowestGlyph base = None -> regrown base newWordTree base.
Proof.
  intros Hg Hl. split; [exact Hg|]. split; [exact Hl|].
  split; [cbn [heap newWordTree]; rewrite app_nil_r; reflexivity|].
  split; [cbn [lookups newWordTree]; rewrite app_nil_r; reflexivity|].
  split; [|reflexivity]. intros r Hr. simpl in Hr. lia.
Qed.

(** ** The pivot of the item of the tree *)

Lemma bind_Normal {A B} (m : Method Path A) (f : A -> Method Path B) t b t' :
  bind m f t = (Normal b, t') ->
  exists a s, m t = (Normal a, s) /\ f a s = (Normal b, t').
Proof.
  unfold bind. destruct (m t) as [[a|e] s]; [|discriminate]. eauto.
Qed.

Lemma grow_itemPivot string t t' :
  grow version options string t = (Normal tt, t') ->
  exists g, heap t' !! length (heap t) = Some g /\ itemPivot t' = pivot g.
Proof.
  unfold grow. intros H.
  apply bind_Normal in H as (glyph & t1 & Hcreate & H).
  apply bind_Normal in H as (? & t2 & _ & H).
  apply bind_Normal in H as (? & t3 & _ & H).
  apply bind_Normal in H as (? & t4 & _ & H).
  apply bind_Normal in H as (? & t5 & _ & H).
  apply bind_Normal in H as (g & t6 & Hderef & H).
  assert (glyph = length (heap t)) as ->.
  { unfold _createGlyph in Hcreate. destruct (font options) as [f|]; [|discriminate].
    destruct (head string); [|discriminate].
    destruct (glyphDefinitions f !! _); [|discriminate].
    injection Hcreate as <- _. reflexivity. }
  unfold deref in Hderef. destruct (heap t5 !! length (heap t)) as [g'|] eqn:E;
    [|discriminate].
  injection Hderef as <- <-. injection H as <-.
  exists g'. split; [exact E | reflexivity].
Qed.

Lemma regrow_base string :
  glyphs base = [] -> lowestGlyph base = None ->
  let fresh := grow version options string newWordTree in
  let again := grow version options string base in
  fst again = fst fresh /\
  regrown base (snd fresh) (snd again) /\
  (fst fresh = Normal tt -> itemPivot (snd again) = itemPivot (snd fresh)).
Proof.
  intros Hg Hl fresh again.
  pose proof (sim_grow string newWordTree base (regrown_start Hg Hl)) as Hsim.
  fold fresh again in Hsim.
  pose proof (grow_itemPivot string newWordTree) as Hf.
  pose proof (grow_itemPivot string base) as Ha.
  fold fresh in Hf. fold again in Ha.
  destruct fresh as [[[]|e] tf], again as [[[]|e'] ta]; try contradiction;
    destruct Hsim as [He HR]; cbn [fst snd].
  - split; [reflexivity|]. split; [exact HR|]. intros _.
    destruct (Hf tf eq_refl) as (g & Hgf & ->).
    destruct (Ha ta eq_refl) as (g' & Hga & ->).
    pose proof (shifted_lookup tf ta 0%nat HR) as Hs.
    unfold shifted in Hs. rewrite Nat.add_0_r in Hs.
    cbn [heap newWordTree length] in Hgf. congruence.
  - subst e'. split; [reflexivity|]. split; [exact HR|]. discriminate.
Qed.

End WordTreeRegrow.

Section WordTreeAgain.

Context {Path : Type} {api : GlyphApi Path}.
Variable version : Version.
Variable options : WordTreeOptions Path.

(** X14.  After [chop], [grow] does what it does on a new tree, whatever the
    tree was before: it returns or throws alike, and the tree it leaves
    is the tree grown from scratch built on top of what [chop] left: the
    same glyph objects in the same order behind the old ones in the
    store, the same lowest glyph, the same attachments, the same lookups,
    nothing of the old glyphs touched, and, when [grow] returns, the same
    pivot of the item. *)
Theorem grow_after_chop_is_a_fresh_grow (t0 : WordTree Path) (word : string) :
  let base := snd (chop t0) in
  let fresh := grow version options word newWordTree in
  let again := grow version options word base in
  fst again = fst fresh /\
  regrown base (snd fresh) (snd again) /\
  (fst fresh = Normal tt -> itemPivot (snd again) = itemPivot (snd fresh)).
Proof.
  intros base. apply regrow_base.
  - unfold base, chop, bind.
    destruct (forEach remove (glyphs t0) t0) as [[[]|e] t1] eqn:E; [reflexivity|].
    destruct (forEach_remove (glyphs t0) t0) as (ps & E' & _). congruence.
  - unfold base, chop, bind.
    destruct (forEach remove (glyphs t0) t0) as [[[]|e] t1] eqn:E; [reflexivity|].
    destruct (forEach_remove (glyphs t0) t0) as (ps & E' & _). congruence.
Qed.

End WordTreeAgain.

(** * The shape of the tree *)

Section WordTreeShape.

Context {Path : Type} {api : GlyphApi Path}.
Variable version : Version.
Variable options : WordTreeOptions Path.
Variable word : string.
Variable root0 : Glyph Path.

Implicit Types (t s : WordTree Path) (g : Glyph Path) (r : GlyphRef).

Lemma grafted_lookup t i r :
  (0 < i)%nat -> glyphs t !! i = Some r -> r ∈ grafted t.
Proof.
  unfold grafted. destruct (glyphs t) as [|first rest]; [discriminate|].
  destruct i; [lia|]. simpl. intros _ H. eapply list_elem_of_lookup_2. exact H.
Qed.

Lemma grafted_prefix t s :
  glyphs t <> [] -> glyphs t `prefix_of` glyphs s ->
  forall r, r ∈ grafted t -> r ∈ grafted s.
Proof.
  intros Hne [k Hk] r Hr. unfold grafted in *. rewrite Hk.
  destruct (glyphs t); [congruence|]. simpl in *. apply elem_of_app. left. exact Hr.
Qed.

(** A candidate the tree has no glyph for, or no font: the loop body
    throws, and the glyph list and the store are as before. *)
Lemma placeCandidate_undefined_state t char branch :
  definitionOf options (charCodeAt0 char) = None ->
  exists e t1, placeCandidate options char branch t = (Throw e, t1) /\
               glyphs t1 = glyphs t /\ heap t1 = heap t.
Proof.
  intros H. unfold definitionOf in H.
  destruct (font options) as [f|] eqn:Hfont.
  - rewrite (placeCandidate_missing options f t char branch Hfont H). eauto.
  - rewrite (placeCandidate_nofont options t char branch Hfont). eauto.
Qed.

(** The glyphs after the root are not touched again. *)
Lemma growRecursive_keeps string prev t :
  rooted t ->
  glyphs t `prefix_of` glyphs (snd (_growRecursive version options prev string t)) /\
  forall r, r ∈ grafted t ->
            heap (snd (_growRecursive version options prev string t)) !! r = heap t !! r.
Proof.
  intros Hr.
  apply (growRecursive_invariant version options
           (fun s => glyphs t `prefix_of` glyphs s /\
                     forall r, r ∈ grafted t -> heap s !! r = heap t !! r));
    [|exact Hr|split; [reflexivity | auto]].
  intros s s' Hrs [Hp Hobj] Hs. split.
  - etransitivity; [exact Hp | eapply step_prefix; eauto].
  - intros r Hin. rewrite <- (Hobj r Hin).
    apply (step_grafted_object options s s' r Hrs Hs).
    apply (grafted_prefix t s (proj2 Hr) Hp r Hin).
Qed.

Lemma spelled_frame t s levels :
  spelled options version word root0 t levels ->
  glyphs s = glyphs t ->
  (forall r, r ∈ grafted t -> heap s !! r = heap t !! r) ->
  spelled options version word root0 s levels.
Proof.
  intros [Hlen H] Hg Hobj. split; [rewrite Hg; exact Hlen|].
  intros i r k Hi Hr Hk. rewrite Hg in Hr.
  destruct (H i r k Hi Hr Hk)
    as (j & rp & kp & char & definition & b & parent
        & Hj & Hrp & Hkp & Hkk & Hget & Hdef & Hread & Hb & Hobjr).
  exists j, rp, kp, char, definition, b, parent. rewrite Hg.
  split; [exact Hj|]. split; [exact Hrp|]. split; [exact Hkp|]. split; [exact Hkk|].
  split; [exact Hget|]. split; [exact Hdef|]. split; [|split; [exact Hb|]].
  - destruct Hread as [H0 | [Hj0 Hp]]; [left; exact H0 | right].
    split; [exact Hj0|]. rewrite Hobj; [exact Hp|]. eapply grafted_lookup; eauto.
  - rewrite Hobj; [exact Hobjr|]. eapply grafted_lookup; eauto.
Qed.

Lemma spelled_place t s levels j prev k char definition b pread r :
  spelled options version word root0 t levels ->
  glyphs s = glyphs t ++ [r] ->
  (forall r', r' ∈ grafted t -> heap s !! r' = heap t !! r') ->
  glyphs t !! j = Some prev -> levels !! j = Some k ->
  String.get (S k) word = Some char ->
  definitionOf options (charCodeAt0 char) = Some definition ->
  ((j = 0%nat /\ pread = root0) \/ ((0 < j)%nat /\ heap s !! prev = Some pread)) ->
  b ∈ branchesInOrder version options pread ->
  heap s !! r = Some (alignAtBranch (instance definition) b) ->
  spelled options version word root0 s (levels ++ [S k]).
Proof.
  intros [Hlen H] Hg Hobj Hprev Hk Hget Hdef Hread Hb Hr.
  split; [rewrite Hg, !length_app, Hlen; reflexivity|].
  intros i r1 k1 Hi Hr1 Hk1.
  pose proof (lookup_lt_Some _ _ _ Hr1) as Hlt. rewrite Hg, length_app in Hlt.
  simpl in Hlt.
  destruct (decide (i = length (glyphs t))) as [->|Hne].
  - rewrite Hg, lookup_app_r in Hr1 by lia.
    rewrite <- Hlen, lookup_app_r in Hk1 by lia.
    rewrite Nat.sub_diag in Hr1, Hk1. injection Hr1 as <-. injection Hk1 as <-.
    exists j, prev, k, char, definition, b, pread.
    split; [eapply lookup_lt_Some; exact Hprev|].
    split; [rewrite Hg; apply lookup_app_l_Some; exact Hprev|].
    split; [apply lookup_app_l_Some; exact Hk|]. split; [reflexivity|].
    split; [exact Hget|]. split; [exact Hdef|]. split; [exact Hread|].
    split; [exact Hb | exact Hr].
  - assert (Hold : (i < length (glyphs t))%nat) by lia.
    rewrite Hg, lookup_app_l in Hr1 by exact Hold.
    rewrite lookup_app_l in Hk1 by (rewrite Hlen; exact Hold).
    destruct (H i r1 k1 Hi Hr1 Hk1)
      as (j' & rp & kp & char' & definition' & b' & parent
          & Hj & Hrp & Hkp & Hkk & Hget' & Hdef' & Hread' & Hb' & Hobjr).
    exists j', rp, kp, char', definition', b', parent.
    split; [exact Hj|]. split; [rewrite Hg; apply lookup_app_l_Some; exact Hrp|].
    split; [apply lookup_app_l_Some; exact Hkp|]. split; [exact Hkk|].
    split; [exact Hget'|]. split; [exact Hdef'|]. split; [|split; [exact Hb'|]].
    + destruct Hread' as [H0 | [Hj0 Hp]]; [left; exact H0 | right].
      split; [exact Hj0|]. rewrite Hobj; [exact Hp|]. eapply grafted_lookup; eauto.
    + rewrite Hobj; [exact Hobjr|]. eapply grafted_lookup; eauto.
Qed.

(** The recursion from the glyph [prev] of level [k], the string being
    what is left of the word after that level. *)
Lemma growRecursive_spelled string :
  forall k prev pread t levels j,
    rooted t -> spelled options version word root0 t levels ->
    glyphs t !! j = Some prev -> levels !! j = Some k ->
    heap t !! prev = Some pread -> (j = 0%nat -> pread = root0) ->
    (forall n, String.get n string = String.get (S k + n) word) ->
    exists levels',
      spelled options version word root0
        (snd (_growRecursive version options prev string t)) levels' /\
      levels `prefix_of` levels'.
Proof.
  induction string as [|char rest IH];
    intros k prev pread t levels j Hr Hsp Hj Hk Hpread Hroot Hsuffix.
  - exists levels. split; [exact Hsp | reflexivity].
  - rewrite growRecursive_String, Hpread.
    assert (Hread : (j = 0%nat /\ pread = root0) \/
                    ((0 < j)%nat /\ heap t !! prev = Some pread)).
    { destruct j; [left; auto | right; split; [lia | exact Hpread]]. }
    assert (Hget : String.get (S k) word = Some char).
    { rewrite <- (Nat.add_0_r (S k)), <- Hsuffix. reflexivity. }
    assert (Hrest : forall n, String.get n rest = String.get (S (S k) + n) word).
    { intros n. replace (S (S k) + n)%nat with (S k + S n)%nat by lia.
      rewrite <- Hsuffix. reflexivity. }
    clear Hpread Hroot Hsuffix.
    remember (branchesInOrder version options pread) as bs eqn:Ebs.
    assert (Hsub : forall b, b ∈ bs -> b ∈ branchesInOrder version options pread)
      by (rewrite Ebs; auto).
    clear Ebs. revert t levels Hr Hsp Hj Hk Hread.
    induction bs as [|b bs IHbs]; intros t levels Hr Hsp Hj Hk Hread.
    + exists levels. split; [exact Hsp | reflexivity].
    + assert (Hsub' : forall b', b' ∈ bs -> b' ∈ branchesInOrder version options pread)
        by (intros b' Hb'; apply Hsub; right; exact Hb').
      specialize (IHbs Hsub').
      rewrite forEach_tryBranch. cbv beta.
      destruct (definitionOf options (charCodeAt0 char)) as [definition|] eqn:Edef.
      * destruct (definitionOf_font options _ _ Edef) as (f & Hfont & _).
        pose proof (placeCandidate_step options f t char b Hfont Hr) as Hs.
        destruct (placeCandidate_outcome options t char b definition Hr Edef)
          as (t1 & Hr1 & _ & _ & [(E & Hg1 & _) | (E & Hg1 & _ & Hcand)]);
          rewrite E in Hs |- *; cbn [snd] in Hs;
          pose proof (fun r' => step_grafted_object options t t1 r' Hr Hs) as Hobj1.
        -- apply IHbs; trivial.
           ++ apply (spelled_frame t); trivial.
           ++ rewrite Hg1. exact Hj.
           ++ destruct Hread as [H0 | [Hj0 Hp]]; [left; exact H0 | right].
              split; [exact Hj0|]. rewrite Hobj1; [exact Hp|].
              eapply grafted_lookup; eauto.
        -- assert (Hread1 : (j = 0%nat /\ pread = root0) \/
                            ((0 < j)%nat /\ heap t1 !! prev = Some pread)).
           { destruct Hread as [H0 | [Hj0 Hp]]; [left; exact H0 | right].
             split; [exact Hj0|]. rewrite Hobj1; [exact Hp|].
             eapply grafted_lookup; eauto. }
           pose proof (spelled_place t t1 levels j prev k char definition b pread
                         (length (heap t)) Hsp Hg1 Hobj1 Hj Hk Hget Edef Hread1
                         (Hsub b ltac:(left)) Hcand) as Hsp1.
           assert (Hne : glyphs t <> []) by apply Hr.
           assert (Hlen : length levels = length (glyphs t)) by apply Hsp.
           assert (Hnew : glyphs t1 !! length (glyphs t) = Some (length (heap t))).
           { rewrite Hg1, lookup_app_r by lia. rewrite Nat.sub_diag. reflexivity. }
           assert (Hnewk : (levels ++ [S k]) !! length (glyphs t) = Some (S k)).
           { rewrite <- Hlen, lookup_app_r by lia. rewrite Nat.sub_diag. reflexivity. }
           destruct (IH (S k) (length (heap t))
                       (alignAtBranch (instance definition) b) t1 (levels ++ [S k])
                       (length (glyphs t)) Hr1 Hsp1 Hnew Hnewk Hcand)
             as (levels2 & Hsp2 & Hpre2).
           { intros H0. destruct (glyphs t); [congruence | discriminate]. }
           { exact Hrest. }
           destruct (growRecursive_keeps rest (length (heap t)) t1 Hr1) as [Hpg Hobj2].
           pose proof (growRecursive_rooted version options rest (length (heap t)) t1 Hr1)
             as Hr2.
           assert (Hpre : levels `prefix_of` levels2).
           { etransitivity; [apply prefix_app_r; reflexivity | exact Hpre2]. }
           assert (Hj1 : glyphs t1 !! j = Some prev).
           { rewrite Hg1. apply lookup_app_l_Some. exact Hj. }
           destruct (_growRecursive version options (length (heap t)) rest t1)
             as [[[]|e] t2]; cbn [snd] in Hsp2, Hpg, Hobj2, Hr2.
           ++ destruct (IHbs t2 levels2 Hr2 Hsp2) as (levels3 & Hsp3 & Hpre3).
              { eapply prefix_lookup_Some; eauto. }
              { eapply prefix_lookup_Some; eauto. }
              { destruct Hread1 as [H0 | [Hj0 Hp]]; [left; exact H0 | right].
                split; [exact Hj0|]. rewrite Hobj2; [exact Hp|].
                eapply grafted_lookup; eauto. }
              exists levels3. split; [exact Hsp3 | etransitivity; eauto].
           ++ exists levels2. split; [exact Hsp2 | exact Hpre].
      * destruct (placeCandidate_undefined_state t char b Edef)
          as (e & t1 & E & Hg1 & Hh1).
        rewrite E. cbn [snd]. exists levels. split; [|reflexivity].
        apply (spelled_frame t); trivial. intros r _. rewrite Hh1. reflexivity.
Qed.

End WordTreeShape.

Section WordTreeSpells.

Context {Path : Type} {api : GlyphApi Path}.
Variable version : Version.
Variable options : WordTreeOptions Path.

(** X16.  The tree [grow] builds spells the word, level by level.  On an empty
    tree, for a word whose first character has a glyph: every glyph of the
    list after the root is the glyph the font has for the character of the
    word at its level, aligned at a branch offered by a glyph that is
    earlier in the list and one level up, the root being at level 0.  This
    holds for the tree as [grow] leaves it, whether it returns or throws. *)
Theorem grow_spells_the_word c rest (t : WordTree Path) definition :
  wf t -> glyphs t = [] ->
  definitionOf options (charCodeAt0 c) = Some definition ->
  exists levels,
    levels !! 0%nat = Some 0%nat /\
    spelled options version (String c rest) (rootObject version definition)
      (snd (grow version options (String c rest) t)) levels.
Proof.
  intros Hwf Hempty Hdef.
  rewrite (grow_run version options c rest t definition Hdef).
  set (word := String c rest).
  set (root0 := rootObject version definition).
  set (tR := withRoot t (charCodeAt0 c) root0).
  pose proof (withRoot_rooted t (charCodeAt0 c) root0 Hwf) as HrR. fold tR in HrR.
  assert (HgR : glyphs tR = [length (heap t)]).
  { unfold tR, withRoot. cbn [glyphs]. rewrite Hempty. reflexivity. }
  assert (HobjR : heap tR !! length (heap t) = Some root0).
  { unfold tR, withRoot. cbn [heap]. rewrite lookup_app_r by lia.
    rewrite Nat.sub_diag. reflexivity. }
  assert (HspR : spelled options version word root0 tR [0%nat]).
  { split; [rewrite HgR; reflexivity|]. intros i r k Hi Hr _.
    rewrite HgR in Hr. destruct i; [lia | discriminate]. }
  destruct (growRecursive_spelled version options word root0 rest 0%nat
              (length (heap t)) root0 tR [0%nat] 0%nat HrR HspR)
    as (levels & Hsp & Hpre); trivial.
  { rewrite HgR. reflexivity. }
  pose proof (growRecursive_rooted version options rest (length (heap t)) tR HrR) as Hr1.
  pose proof (growRecursive_invariant version options
                (fun s => (length (heap t) < length (heap s))%nat)) as Hlen.
  specialize (Hlen ltac:(intros s s' _ Hl Hs;
                          pose proof (step_heap_length options s s' Hs);
                          cbv beta in *; lia)
                   rest (length (heap t)) tR HrR).
  destruct Hlen as [_ Hlen].
  { unfold tR, withRoot. cbn [heap]. rewrite length_app. simpl. lia. }
  assert (H0 : levels !! 0%nat = Some 0%nat).
  { eapply prefix_lookup_Some; [|exact Hpre]. reflexivity. }
  exists levels. split; [exact H0|].
  destruct (_growRecursive version options (length (heap t)) rest tR) as [[[]|e] t1];
    cbn [snd] in Hsp, Hr1, Hlen; [|exact Hsp].
  destruct (rooted_first t1 Hr1) as (first & fg & Hf & Hfg).
  destruct (finishGrow_run version options t1 first fg (length (heap t)) Hr1 Hf Hfg Hlen)
    as (fg' & p & _ & _ & E).
  rewrite E. cbn [snd].
  apply (spelled_frame version options word root0 t1); [exact Hsp | reflexivity|].
  intros r Hin. cbn [heap set_itemPivot set_heap].
  apply list_lookup_insert_ne.
  destruct (rooted_head t1 first Hr1 Hf) as (_ & Hnot & _). congruence.
Qed.

End WordTreeSpells.

(** * Which branches get a candidate, and which characters are asked for *)

Section WordTreeGrown.

Context {Path : Type} {api : GlyphApi Path}.
Variable version : Version.
Variable options : WordTreeOptions Path.
Variable word : string.
Variable root0 : Glyph Path.

Implicit Types (t s u : WordTree Path) (g : Glyph Path) (r : GlyphRef).

(** ** What is kept from state to state *)

Lemma kept_refl t : kept t t.
Proof. split; [reflexivity|]. split; [lia | auto]. Qed.

Lemma kept_head t s first :
  kept t s -> glyphs t !! 0%nat = Some first -> glyphs s !! 0%nat = Some first.
Proof. intros (Hp & _) H. eapply prefix_lookup_Some; eauto. Qed.

Lemma kept_trans t s u : rooted t -> kept t s -> kept s u -> kept t u.
Proof.
  intros Hr (Hp1 & Hl1 & Ho1) (Hp2 & Hl2 & Ho2).
  split; [etransitivity; eauto|]. split; [lia|].
  intros r Hlt Hne. rewrite <- (Ho1 r Hlt Hne). apply Ho2; [lia|].
  destruct (rooted_first t Hr) as (first & fg & Hf & _).
  rewrite (kept_head t s first (conj Hp1 (conj Hl1 Ho1)) Hf).
  rewrite Hf in Hne. exact Hne.
Qed.

Lemma step_kept t s : rooted t -> step options t s -> kept t s.
Proof.
  intros Hr Hs. split; [eapply step_prefix; eauto|].
  split; [eapply step_heap_length; eauto|].
  destruct Hs
    as [f0 code Hf0 Hc | first fg fg' cand placed code Hf Hfg Hb Hext Hdef r0 heap' HF].
  - reflexivity.
  - intros r Hlt Hne.
    destruct (rooted_head t first Hr Hf) as (Hfirst & _ & _).
    assert (E : heap' !! r = heap t !! r).
    { apply store_other; [|exact Hlt]. intros ->. apply Hne. exact Hf. }
    destruct (crossesAny cand placed); exact E.
Qed.

Lemma growRecursive_kept string prev t :
  rooted t -> kept t (snd (_growRecursive version options prev string t)).
Proof.
  intros Hr.
  apply (growRecursive_invariant version options (kept t)); trivial.
  - intros s s' Hrs Hk Hs. apply (kept_trans t s s' Hr Hk). apply step_kept; assumption.
  - apply kept_refl.
Qed.

Lemma placeCandidate_object t char b definition :
  rooted t -> definitionOf options (charCodeAt0 char) = Some definition ->
  heap (snd (placeCandidate options char b t)) !! length (heap t)
  = Some (alignAtBranch (instance definition) b).
Proof.
  intros Hr Hdef. destruct (rooted_first t Hr) as (first & fg & Hf & Hfg).
  destruct (rooted_head t first Hr Hf) as (Hfirst & _ & _).
  destruct (placeCandidate_run options t char b first fg definition (proj1 Hr) Hf Hfg Hdef)
    as (fg' & placed & _ & _ & _ & E).
  rewrite E. destruct (crossesAny _ placed); cbn [snd heap];
    apply store_candidate; exact Hfirst.
Qed.

Lemma rooted_not_head t i r :
  rooted t -> (0 < i)%nat -> glyphs t !! i = Some r ->
  (r < length (heap t))%nat /\ glyphs t !! 0%nat <> Some r.
Proof.
  intros Hr Hi Hlook. split.
  - apply (wf_glyphs t (proj1 Hr)). eapply list_elem_of_lookup_2. exact Hlook.
  - intros H0. pose proof (wf_nodup t (proj1 Hr)) as Hnd.
    pose proof (NoDup_lookup _ _ _ _ Hnd H0 Hlook). lia.
Qed.

Lemma asRead_kept t s i r :
  rooted t -> kept t s -> glyphs t !! i = Some r ->
  asRead root0 s i r = asRead root0 t i r.
Proof.
  intros Hr (_ & _ & Ho) Hlook. destruct i as [|i]; [reflexivity|]. cbn [asRead].
  destruct (rooted_not_head t (S i) r Hr ltac:(lia) Hlook) as [Hlt Hne].
  apply Ho; assumption.
Qed.

Lemma asRead_cases t j prev pread :
  asRead root0 t j prev = Some pread ->
  (j = 0%nat /\ pread = root0) \/ ((0 < j)%nat /\ heap t !! prev = Some pread).
Proof.
  destruct j; cbn [asRead]; [intros [= <-]; left; auto | intros H; right; split; [lia|exact H]].
Qed.

(** ** Candidates made in order *)

Lemma triedInOrder_nil lo t definition : triedInOrder lo t definition [].
Proof.
  exists []. split; [constructor|]. split; [|constructor].
  intros m n r1 r2 _ H. destruct m; discriminate.
Qed.

Lemma triedInOrder_weaken lo lo' t definition bs :
  (lo' <= lo)%nat -> triedInOrder lo t definition bs -> triedInOrder lo' t definition bs.
Proof.
  intros Hle (rs & HF & Hs & Hrange). exists rs. split; [exact HF|]. split; [exact Hs|].
  eapply Forall_impl; [exact Hrange|]. intros r Hr. cbv beta in *. lia.
Qed.

Lemma triedInOrder_kept lo t s definition bs :
  kept t s ->
  (forall first, glyphs t !! 0%nat = Some first -> (first < lo)%nat) ->
  triedInOrder lo t definition bs -> triedInOrder lo s definition bs.
Proof.
  intros (_ & Hlen & Ho) Hhead (rs & HF & Hs & Hrange). exists rs.
  split; [|split; [exact Hs|]].
  - clear Hs. revert bs HF. induction rs as [|r rs IH]; intros bs HF.
    + inversion HF. constructor.
    + inversion HF as [|? b ? bs' Hr HF']; subst.
      apply Forall_cons in Hrange as [Hr0 Hrange].
      constructor; [|apply IH; assumption].
      rewrite Ho; [exact Hr|lia|]. intros H0. specialize (Hhead r H0). lia.
  - eapply Forall_impl; [exact Hrange|]. intros r Hr. cbv beta in *. lia.
Qed.

Lemma triedInOrder_cons lo lo' s definition r0 b bs :
  heap s !! r0 = Some (alignAtBranch (instance definition) b) ->
  (lo <= r0 < lo')%nat -> (lo' <= length (heap s))%nat ->
  triedInOrder lo' s definition bs ->
  triedInOrder lo s definition (b :: bs).
Proof.
  intros Hobj Hr0 Hlo (rs & HF & Hs & Hrange). exists (r0 :: rs).
  split; [constructor; assumption|]. split.
  - intros m n r1 r2 Hmn H1 H2. destruct n as [|n]; [lia|]. cbn in H2.
    destruct m as [|m].
    + injection H1 as <-.
      pose proof (proj1 (Forall_forall _ _) Hrange r2) as Hin.
      specialize (Hin ltac:(eapply list_elem_of_lookup_2; eauto)). cbv beta in Hin. lia.
    + cbn in H1. apply (Hs m n); [lia | assumption | assumption].
  - constructor; [lia|]. eapply Forall_impl; [exact Hrange|].
    intros r Hr. cbv beta in *. lia.
Qed.

(** ** Glyphs that were served *)

Lemma servedAt_weaken lo lo' t levels i :
  (lo' <= lo)%nat ->
  servedAt options version word root0 lo t levels i ->
  servedAt options version word root0 lo' t levels i.
Proof.
  intros Hle H r k parent char Hr Hk Hread Hget Hne.
  destruct (H r k parent char Hr Hk Hread Hget Hne) as (definition & Hdef & Htried).
  exists definition. split; [exact Hdef|]. eapply triedInOrder_weaken; eauto.
Qed.

Lemma servedAt_kept lo t s levels levels' i :
  rooted t -> length levels = length (glyphs t) ->
  kept t s -> levels `prefix_of` levels' ->
  (i < length (glyphs t))%nat ->
  (forall first, glyphs t !! 0%nat = Some first -> (first < lo)%nat) ->
  servedAt options version word root0 lo t levels i ->
  servedAt options version word root0 lo s levels' i.
Proof.
  intros Hr Hlen Hk Hpre Hi Hhead H r k parent char Hlook Hlev Hread Hget Hne.
  destruct (lookup_lt_is_Some_2 (glyphs t) i Hi) as [r' Hr'].
  destruct (lookup_lt_is_Some_2 levels i ltac:(lia)) as [k' Hk'].
  pose proof (prefix_lookup_Some _ _ _ _ Hr' (proj1 Hk)) as E1.
  pose proof (prefix_lookup_Some _ _ _ _ Hk' Hpre) as E2.
  assert (r' = r) as -> by congruence. assert (k' = k) as -> by congruence.
  rewrite (asRead_kept t s i r Hr Hk Hr') in Hread.
  destruct (H r k parent char Hr' Hk' Hread Hget Hne) as (definition & Hdef & Htried).
  exists definition. split; [exact Hdef|].
  eapply triedInOrder_kept; eauto.
Qed.

Lemma served_not_reached lo t levels char :
  everyBranchTried options version word root0 lo t levels ->
  ~ reachesUndefined options version word root0 t levels char.
Proof.
  intros Hall (i & r & k & parent & Hr & Hk & Hread & Hne & Hget & Hundef).
  destruct (Hall i r k parent char Hr Hk Hread Hget Hne) as (definition & Hdef & _).
  apply Hundef. unfold defined. rewrite Hdef. eauto.
Qed.

(** ** The recursion *)

Section WithFont.

Variable f : Font Path.
Hypothesis Hfont : font options = Some f.

(** The loop over the branches [bs] that are left of the glyph [prev]
    of level [k], [char] being the character after that level. *)
Lemma loop_grown char rest k prev pread j
    (IH : forall k prev pread t levels j,
        rooted t -> spelled options version word root0 t levels ->
        glyphs t !! j = Some prev -> levels !! j = Some k ->
        heap t !! prev = Some pread -> (j = 0%nat -> pread = root0) ->
        (forall n, String.get n rest = String.get (S k + n) word) ->
        exists levels',
          spelled options version word root0
            (snd (_growRecursive version options prev rest t)) levels' /\
          levels `prefix_of` levels' /\
          match fst (_growRecursive version options prev rest t) with
          | Normal _ =>
              forall i, (i = j \/ length (glyphs t) <= i)%nat ->
                servedAt options version word root0 (length (heap t))
                  (snd (_growRecursive version options prev rest t)) levels' i
          | Throw e =>
              exists char', e = GlyphNotFound char' /\
                reachesUndefined options version word root0
                  (snd (_growRecursive version options prev rest t)) levels' char'
          end) :
  String.get (S k) word = Some char ->
  (forall n, String.get n rest = String.get (S (S k) + n) word) ->
  forall bs,
    (forall b, b ∈ bs -> b ∈ branchesInOrder version options pread) ->
    forall t levels,
      rooted t -> spelled options version word root0 t levels ->
      glyphs t !! j = Some prev -> levels !! j = Some k ->
      asRead root0 t j prev = Some pread ->
      let run := forEach (tryBranch options char
                            (fun glyph => _growRecursive version options glyph rest))
                         bs t in
      exists levels',
        spelled options version word root0 (snd run) levels' /\
        levels `prefix_of` levels' /\
        kept t (snd run) /\ rooted (snd run) /\
        match fst run with
        | Normal _ =>
            (bs <> [] -> is_Some (definitionOf options (charCodeAt0 char))) /\
            (forall definition,
                definitionOf options (charCodeAt0 char) = Some definition ->
                triedInOrder (length (heap t)) (snd run) definition bs) /\
            (forall i, (length (glyphs t) <= i)%nat ->
                       servedAt options version word root0 (length (heap t))
                         (snd run) levels' i)
        | Throw e =>
            exists char', e = GlyphNotFound char' /\
              reachesUndefined options version word root0 (snd run) levels' char'
        end.
Proof.
  intros Hget Hrest. induction bs as [|b bs IHbs]; intros Hsub t levels Hr Hsp Hj Hk Hread.
  - intros run. exists levels. split; [exact Hsp|]. split; [reflexivity|].
    split; [apply kept_refl|]. split; [exact Hr|]. cbn.
    split; [congruence|]. split; [intros; apply triedInOrder_nil|].
    intros i Hi r k' parent char' Hlook. apply lookup_lt_Some in Hlook. lia.
  - assert (Hsub' : forall b', b' ∈ bs -> b' ∈ branchesInOrder version options pread)
      by (intros b' Hb'; apply Hsub; right; exact Hb').
    specialize (IHbs Hsub'). intros run. unfold run. clear run.
    rewrite forEach_tryBranch. cbv beta.
    assert (Hhead : forall s, kept t s ->
              forall first, glyphs s !! 0%nat = Some first ->
                            (first < length (heap t))%nat).
    { intros s Hks first H0. destruct (rooted_first t Hr) as (first' & fg & Hf & _).
      rewrite (kept_head t s first' Hks Hf) in H0. injection H0 as <-.
      apply (rooted_head t first' Hr Hf). }
    assert (Hlen : length levels = length (glyphs t)) by apply Hsp.
    pose proof (lookup_lt_Some _ _ _ Hj) as Hjlt.
    destruct (glyphDefinitions f !! charCodeAt0 char) as [definition|] eqn:Edef0.
    + pose proof (definitionOf_Some options f _ definition Hfont Edef0) as Edef.
      pose proof (placeCandidate_step options f t char b Hfont Hr) as Hs.
      pose proof (placeCandidate_object t char b definition Hr Edef) as Hobj.
      destruct (placeCandidate_outcome options t char b definition Hr Edef)
        as (t1 & Hr1 & _ & Hlen1 & [(E & Hg1 & _) | (E & Hg1 & _ & Hcand)]);
        rewrite E in Hs, Hobj |- *; cbn [snd] in Hs, Hobj;
        pose proof (step_kept t t1 Hr Hs) as Hk1;
        pose proof (fun r' => step_grafted_object options t t1 r' Hr Hs) as Hobj1.
      * (* the candidate is removed *)
        destruct (IHbs t1 levels Hr1) as (levels' & Hsp' & Hpre & Hk' & Hr' & Hpost).
        { apply (spelled_frame version options word root0 t); trivial. }
        { rewrite Hg1. exact Hj. }
        { exact Hk. }
        { rewrite (asRead_kept t t1 j prev Hr Hk1 Hj). exact Hread. }
        cbv zeta in Hsp', Hk', Hr', Hpost.
        exists levels'. split; [exact Hsp'|]. split; [exact Hpre|].
        split; [apply (kept_trans t t1 _ Hr Hk1 Hk')|]. split; [exact Hr'|].
        destruct (fst (forEach _ bs t1)) as [[]|e]; [|exact Hpost].
        destruct Hpost as (_ & Htried & Hnew).
        split; [intros _; rewrite Edef; eauto|]. split.
        -- intros definition' Hd. assert (definition' = definition) as -> by congruence.
           apply (triedInOrder_cons _ (length (heap t1)) _ _ (length (heap t))).
           ++ destruct Hk' as (_ & _ & Ho). rewrite Ho; [exact Hobj | lia|].
              intros H0. specialize (Hhead t1 Hk1 _ H0). lia.
           ++ lia.
           ++ apply Hk'.
           ++ apply Htried. exact Edef.
        -- intros i Hi. apply (servedAt_weaken (length (heap t1))); [lia|].
           apply Hnew. rewrite Hg1. exact Hi.
      * (* the candidate is placed, and the recursion goes on from it *)
        pose proof (asRead_kept t t1 j prev Hr Hk1 Hj) as Hread1.
        rewrite Hread in Hread1.
        pose proof (spelled_place version options word root0 t t1 levels j prev k char
                      definition b pread (length (heap t)) Hsp Hg1 Hobj1 Hj Hk Hget
                      Edef (asRead_cases t1 j prev pread Hread1)
                      (Hsub b ltac:(left)) Hcand) as Hsp1.
        assert (Hne : glyphs t <> []) by apply Hr.
        assert (Hnew1 : glyphs t1 !! length (glyphs t) = Some (length (heap t))).
        { rewrite Hg1, lookup_app_r by lia. rewrite Nat.sub_diag. reflexivity. }
        assert (Hnewk : (levels ++ [S k]) !! length (glyphs t) = Some (S k)).
        { rewrite <- Hlen, lookup_app_r by lia. rewrite Nat.sub_diag. reflexivity. }
        destruct (IH (S k) (length (heap t))
                    (alignAtBranch (instance definition) b) t1 (levels ++ [S k])
                    (length (glyphs t)) Hr1 Hsp1 Hnew1 Hnewk Hcand)
          as (levels2 & Hsp2 & Hpre2 & Hpost2).
        { intros H0. destruct (glyphs t); [congruence | discriminate]. }
        { exact Hrest. }
        pose proof (growRecursive_kept rest (length (heap t)) t1 Hr1) as Hk2.
        pose proof (growRecursive_rooted version options rest (length (heap t)) t1 Hr1)
          as Hr2.
        assert (Hpre : levels `prefix_of` levels2).
        { etransitivity; [apply prefix_app_r; reflexivity | exact Hpre2]. }
        destruct (_growRecursive version options (length (heap t)) rest t1)
          as [[[]|e] t2]; cbn [fst snd] in Hsp2, Hpost2, Hk2, Hr2.
        -- pose proof (kept_trans t t1 t2 Hr Hk1 Hk2) as Hk02.
           destruct (IHbs t2 levels2 Hr2 Hsp2)
             as (levels3 & Hsp3 & Hpre3 & Hk3 & Hr3 & Hpost3).
           { eapply prefix_lookup_Some; [exact Hj | apply Hk02]. }
           { eapply prefix_lookup_Some; eauto. }
           { rewrite (asRead_kept t t2 j prev Hr Hk02 Hj). exact Hread. }
           cbv zeta in Hsp3, Hk3, Hr3, Hpost3.
           exists levels3. split; [exact Hsp3|]. split; [etransitivity; eauto|].
           split; [apply (kept_trans t t2 _ Hr Hk02 Hk3)|]. split; [exact Hr3|].
           destruct (fst (forEach _ bs t2)) as [[]|e]; [|exact Hpost3].
           destruct Hpost3 as (_ & Htried & Hnew).
           split; [intros _; rewrite Edef; eauto|]. split.
           ++ intros definition' Hd.
              assert (definition' = definition) as -> by congruence.
              apply (triedInOrder_cons _ (length (heap t2)) _ _ (length (heap t))).
              ** pose proof (kept_trans t1 t2 _ Hr1 Hk2 Hk3) as (_ & _ & Ho).
                 rewrite Ho; [exact Hcand | lia|].
                 intros H0. specialize (Hhead t1 Hk1 _ H0). lia.
              ** destruct Hk2 as (_ & Hl2 & _). lia.
              ** apply Hk3.
              ** apply Htried. exact Edef.
           ++ intros i Hi.
              destruct (decide (i < length (glyphs t2))%nat) as [Hlt|Hge].
              ** apply (servedAt_weaken (length (heap t1))); [lia|].
                 apply (servedAt_kept _ t2 _ levels2); trivial.
                 { apply Hsp2. }
                 { intros first H0. specialize (Hhead t2 Hk02 first H0). lia. }
                 apply Hpost2. rewrite Hg1, length_app. simpl.
                 destruct (decide (i = length (glyphs t))); [left; assumption | right; lia].
              ** apply (servedAt_weaken (length (heap t2))).
                 { destruct Hk02 as (_ & Hl & _). exact Hl. }
                 apply Hnew. lia.
        -- exists levels2. split; [exact Hsp2|]. split; [exact Hpre|].
           split; [apply (kept_trans t t1 t2 Hr Hk1 Hk2)|]. split; [exact Hr2|].
           exact Hpost2.
    + rewrite (placeCandidate_missing options f t char b Hfont Edef0). cbn [fst snd].
      exists levels.
      split; [apply (spelled_frame version options word root0 t); trivial|].
      split; [reflexivity|].
      split; [split; [reflexivity|split; [cbn; lia|auto]]|].
      split; [destruct Hr as [[H1 H2 H3] Hne]; split; [constructor|]; assumption|].
      exists char. split; [reflexivity|].
      exists j, prev, k, pread. cbn [glyphs set_lookups].
      split; [exact Hj|]. split; [exact Hk|].
      split; [destruct j; exact Hread|].
      split; [intros Hnil; specialize (Hsub b ltac:(left)); rewrite Hnil in Hsub;
              inversion Hsub|].
      split; [exact Hget|].
      unfold defined. rewrite (definitionOf_None options f _ Hfont Edef0).
      intros [? ?]. discriminate.
Qed.

(** The recursion from the glyph [prev] of level [k]: when it returns,
    that glyph and every glyph placed since were served; when it throws,
    growth has reached a character without glyph. *)
Lemma growRecursive_grown string :
  forall k prev pread t levels j,
    rooted t -> spelled options version word root0 t levels ->
    glyphs t !! j = Some prev -> levels !! j = Some k ->
    heap t !! prev = Some pread -> (j = 0%nat -> pread = root0) ->
    (forall n, String.get n string = String.get (S k + n) word) ->
    exists levels',
      spelled options version word root0
        (snd (_growRecursive version options prev string t)) levels' /\
      levels `prefix_of` levels' /\
      match fst (_growRecursive version options prev string t) with
      | Normal _ =>
          forall i, (i = j \/ length (glyphs t) <= i)%nat ->
            servedAt options version word root0 (length (heap t))
              (snd (_growRecursive version options prev string t)) levels' i
      | Throw e =>
          exists char', e = GlyphNotFound char' /\
            reachesUndefined options version word root0
              (snd (_growRecursive version options prev string t)) levels' char'
      end.
Proof.
  induction string as [|char rest IH];
    intros k prev pread t levels j Hr Hsp Hj Hk Hpread Hroot Hsuffix.
  - exists levels. split; [exact Hsp|]. split; [reflexivity|]. cbn.
    intros i [-> | Hi] r k' parent char' Hlook Hlev Hread Hget'.
    + assert (k' = k) as -> by congruence.
      rewrite <- (Nat.add_0_r (S k)), <- Hsuffix in Hget'. discriminate.
    + apply lookup_lt_Some in Hlook. lia.
  - assert (Hread : asRead root0 t j prev = Some pread).
    { destruct j; cbn [asRead]; [rewrite Hroot; reflexivity | exact Hpread]. }
    assert (Hget : String.get (S k) word = Some char).
    { rewrite <- (Nat.add_0_r (S k)), <- Hsuffix. reflexivity. }
    assert (Hrest : forall n, String.get n rest = String.get (S (S k) + n) word).
    { intros n. replace (S (S k) + n)%nat with (S k + S n)%nat by lia.
      rewrite <- Hsuffix. reflexivity. }
    rewrite growRecursive_String, Hpread.
    destruct (loop_grown char rest k prev pread j IH Hget Hrest
                (branchesInOrder version options pread) (fun b Hb => Hb)
                t levels Hr Hsp Hj Hk Hread)
      as (levels' & Hsp' & Hpre & Hk' & Hr' & Hpost).
    cbv zeta in Hsp', Hk', Hr', Hpost.
    exists levels'. split; [exact Hsp'|]. split; [exact Hpre|].
    destruct (fst (forEach _ _ t)) as [[]|e]; [|exact Hpost].
    destruct Hpost as (Hsome & Htried & Hnew).
    intros i [-> | Hi]; [|apply Hnew; exact Hi].
    intros r k' parent char' Hlook Hlev Hread' Hget' Hne.
    pose proof (prefix_lookup_Some _ _ _ _ Hj (proj1 Hk')) as E1.
    pose proof (prefix_lookup_Some _ _ _ _ Hk Hpre) as E2.
    assert (r = prev) as -> by congruence. assert (k' = k) as -> by congruence.
    rewrite (asRead_kept t _ j prev Hr Hk' Hj), Hread in Hread'.
    injection Hread' as <-. assert (char' = char) as -> by congruence.
    destruct (Hsome Hne) as [definition Hdef].
    exists definition. split; [exact Hdef | apply Htried; exact Hdef].
Qed.

End WithFont.

End WordTreeGrown.

(** * The glyphs of a grown tree and the characters growth asks for *)

Section WordTreeClaims.

Context {Path : Type} {api : GlyphApi Path}.
Variable version : Version.
Variable options : WordTreeOptions Path.

Implicit Types (t s : WordTree Path) (g : Glyph Path) (r : GlyphRef).

Lemma finish_kept t first fg' p :
  glyphs t !! 0%nat = Some first ->
  kept t (set_itemPivot p (set_heap (<[first := fg']> (heap t)) t)).
Proof.
  intros Hf. split; [reflexivity|]. cbn [heap set_itemPivot set_heap].
  split; [rewrite length_insert; lia|].
  intros r _ Hne. apply list_lookup_insert_ne. intros ->. apply Hne. exact Hf.
Qed.

(** [grow] on an empty tree, for a word whose first character has a
    glyph: the tree it leaves spells the word; when it returns, every
    glyph of the list was served; when it throws, the error is the
    glyph-not-found error and growth has reached a character without
    glyph. *)
Lemma grow_grown c rest t definition :
  wf t -> glyphs t = [] ->
  definitionOf options (charCodeAt0 c) = Some definition ->
  let word := String c rest in
  let root0 := rootObject version definition in
  let result := grow version options word t in
  exists levels,
    levels !! 0%nat = Some 0%nat /\
    spelled options version word root0 (snd result) levels /\
    match fst result with
    | Normal _ =>
        fst result = Normal tt /\
        everyBranchTried options version word root0 (S (length (heap t)))
          (snd result) levels
    | Throw e =>
        exists char, e = GlyphNotFound char /\
          reachesUndefined options version word root0 (snd result) levels char
    end.
Proof.
  intros Hwf Hempty Hdef word root0 result. unfold result, word.
  destruct (definitionOf_font options _ _ Hdef) as (f & Hfont & _).
  rewrite (grow_run version options c rest t definition Hdef).
  fold root0. fold word.
  set (tR := withRoot t (charCodeAt0 c) root0).
  pose proof (withRoot_rooted t (charCodeAt0 c) root0 Hwf) as HrR. fold tR in HrR.
  assert (HgR : glyphs tR = [length (heap t)]).
  { unfold tR, withRoot. cbn [glyphs]. rewrite Hempty. reflexivity. }
  assert (HhR : length (heap tR) = S (length (heap t))).
  { unfold tR, withRoot. cbn [heap]. rewrite length_app. simpl. lia. }
  assert (HobjR : heap tR !! length (heap t) = Some root0).
  { unfold tR, withRoot. cbn [heap]. rewrite lookup_app_r by lia.
    rewrite Nat.sub_diag. reflexivity. }
  assert (HspR : spelled options version word root0 tR [0%nat]).
  { split; [rewrite HgR; reflexivity|]. intros i r k Hi Hr _.
    rewrite HgR in Hr. destruct i; [lia | discriminate]. }
  destruct (growRecursive_grown version options word root0 f Hfont rest 0%nat
              (length (heap t)) root0 tR [0%nat] 0%nat HrR HspR)
    as (levels & Hsp & Hpre & Hpost); trivial.
  { rewrite HgR. reflexivity. }
  pose proof (growRecursive_rooted version options rest (length (heap t)) tR HrR) as Hr1.
  pose proof (growRecursive_kept version options rest (length (heap t)) tR HrR) as Hk1.
  assert (H0 : levels !! 0%nat = Some 0%nat).
  { eapply prefix_lookup_Some; [|exact Hpre]. reflexivity. }
  exists levels. split; [exact H0|].
  destruct (_growRecursive version options (length (heap t)) rest tR) as [[[]|e] t1];
    cbn [fst snd] in Hsp, Hpost, Hr1, Hk1; [|split; [exact Hsp | exact Hpost]].
  destruct (rooted_first t1 Hr1) as (first & fg & Hf & Hfg).
  destruct (finishGrow_run version options t1 first fg (length (heap t)) Hr1 Hf Hfg)
    as (fg' & p & _ & _ & E).
  { destruct Hk1 as (_ & Hl & _). lia. }
  rewrite E. cbn [fst snd].
  pose proof (finish_kept t1 first fg' p Hf) as Hk2.
  destruct (rooted_head t1 first Hr1 Hf) as (Hfirst & Hnot & _).
  split.
  { apply (spelled_frame version options word root0 t1); [exact Hsp | reflexivity|].
    intros r Hin. cbn [heap set_itemPivot set_heap].
    apply list_lookup_insert_ne. congruence. }
  split; [reflexivity|].
  intros i.
  destruct (decide (i < length (glyphs t1))%nat) as [Hlt|Hge].
  - rewrite <- HhR.
    assert (Hlen1 : length levels = length (glyphs t1)) by apply Hsp.
    assert (Hhead1 : forall first', glyphs t1 !! 0%nat = Some first' ->
                                    (first' < length (heap tR))%nat).
    { intros first' H0'. rewrite Hf in H0'. injection H0' as <-.
      pose proof (kept_head tR t1 (length (heap t)) Hk1 ltac:(rewrite HgR; reflexivity))
        as Hh. rewrite Hf in Hh. injection Hh as ->. lia. }
    assert (Hserved : servedAt options version word root0 (length (heap tR)) t1 levels i).
    { apply Hpost. rewrite HgR. simpl. lia. }
    exact (servedAt_kept version options word root0 (length (heap tR)) t1 _ levels levels i
             Hr1 Hlen1 Hk2 (reflexivity levels) Hlt Hhead1 Hserved).
  - intros r k parent char Hlook. cbn [glyphs set_itemPivot set_heap] in Hlook.
    apply lookup_lt_Some in Hlook. lia.
Qed.

(** C5, as the code has it.  The characters [grow] asks the glyph
    provider for are the first character of the word and, for every
    placed glyph that offers a branch, the character after its level.
    On an empty tree [grow] throws the glyph-not-found error exactly when
    one of these has no definition: at once when it is the first
    character, and otherwise exactly when growth reaches such a
    character; the error names a character that was reached and has no
    definition, its lookup is the last one made, and every lookup before
    it succeeded.  [grow] returns exactly when no such character is
    reached; every character it asked for then had a definition.
    Characters that growth does not reach are not asked for. *)
Theorem glyphNotFound_iff c rest t :
  wf t -> glyphs t = [] ->
  let word := String c rest in
  let result := grow version options word t in
  let asked := lookupsSince t (snd result) in
  (((exists char, fst result = Throw (GlyphNotFound char)) <->
    (exists code, code ∈ asked /\ ~ defined options code)) /\
   (forall char, fst result = Throw (GlyphNotFound char) ->
                 ~ defined options (charCodeAt0 char) /\
                 last asked = Some (charCodeAt0 char) /\
                 Forall (defined options) (removelast asked)) /\
   (fst result = Normal tt -> Forall (defined options) asked)) /\
  (forall f, font options = Some f ->
     glyphDefinitions f !! charCodeAt0 c = None ->
     result = (Throw (GlyphNotFound c),
               set_lookups (lookups t ++ [charCodeAt0 c]) t)) /\
  (forall definition,
     definitionOf options (charCodeAt0 c) = Some definition ->
     let root0 := rootObject version definition in
     exists levels,
       levels !! 0%nat = Some 0%nat /\
       spelled options version word root0 (snd result) levels /\
       ((exists char, fst result = Throw (GlyphNotFound char)) <->
        (exists char,
            reachesUndefined options version word root0 (snd result) levels char)) /\
       (forall char, fst result = Throw (GlyphNotFound char) ->
            reachesUndefined options version word root0 (snd result) levels char) /\
       (fst result = Normal tt <->
        forall char,
          ~ reachesUndefined options version word root0 (snd result) levels char)).
Proof.
  intros Hwf Hempty word result asked. split; [|split].
  - destruct (traced_grow version options word t) as (new & Hl & Hc).
    fold result in Hl, Hc.
    assert (Hasked : asked = new).
    { unfold asked, lookupsSince. rewrite Hl. apply drop_app_length. }
    rewrite Hasked. clear Hasked asked.
    split; [|split].
    + split.
      * intros [char E]. rewrite E in Hc. destruct Hc as (earlier & -> & _ & Hn).
        exists (charCodeAt0 char). split; [|exact Hn].
        apply elem_of_app. right. left.
      * intros (code & Hin & Hn).
        destruct (fst result) as [a|[|char|]]; eauto;
          exfalso; apply Hn; eapply Forall_forall in Hc; eauto.
    + intros char E. rewrite E in Hc. destruct Hc as (earlier & -> & He & Hn).
      split; [exact Hn|]. split; [apply last_snoc|].
      rewrite removelast_last. exact He.
    + intros E. rewrite E in Hc. exact Hc.
  - intros f Hfont Hnone. apply (grow_missing version options f c rest t Hfont Hnone).
  - intros definition Hdef root0.
    destruct (grow_grown c rest t definition Hwf Hempty Hdef) as (levels & H0 & Hsp & Hpost).
    fold word root0 result in Hsp, Hpost.
    exists levels. split; [exact H0|]. split; [exact Hsp|].
    destruct (fst result) as [[]|e].
    + destruct Hpost as [_ Hall].
      pose proof (fun char => served_not_reached version options word root0 _ _ levels
                                char Hall) as Hnone.
      split; [split; [intros [char E]; discriminate
                     | intros [char Hreach]; destruct (Hnone char Hreach)]|].
      split; [intros char E; discriminate|].
      split; [intros _; exact Hnone | reflexivity].
    + destruct Hpost as (char & -> & Hreach).
      split; [split; eauto|].
      split; [intros char' [= <-]; exact Hreach|].
      split; [discriminate|]. intros Hnone. destruct (Hnone char Hreach).
Qed.


End WordTreeClaims.

(** * The further properties on concrete words *)

Module GridMore.

Import Grid GridWords GridBare.

Lemma wf_newWordTree : wf (@newWordTree Path).
Proof.
  constructor; simpl.
  - constructor.
  - intros r Hr. inversion Hr.
  - discriminate.
Qed.

(** "it" grows on a new tree and leaves it well-formed; on a tree without
  a font it throws a TypeError and leaves the tree as it was. *)
Lemma grow_fails_only_for_a_missing_glyph_witness :
wf (snd (grow JavaScript options_it "it" newWordTree)) /\
fst (grow TypeScript options_none "it" newWordTree) = Throw TypeError /\
snd (grow TypeScript options_none "it" newWordTree) = newWordTree.
Proof.
split; [|split].
- apply (grow_fails_only_for_a_missing_glyph JavaScript options_it "it" newWordTree
           wf_newWordTree ltac:(discriminate)).
- apply (grow_fails_only_for_a_missing_glyph TypeScript options_none "it" newWordTree
           wf_newWordTree ltac:(discriminate)). reflexivity.
- apply (grow_fails_only_for_a_missing_glyph TypeScript options_none "it" newWordTree
           wf_newWordTree ltac:(discriminate)). reflexivity.
Defined.

(** "px": the 'x' is removed, and is not left in the active layer. *)
Lemma grow_keeps_tree_tidy_witness :
  tidySince newWordTree (snd (grow JavaScript options_px "px" newWordTree)).
Proof.
  apply (grow_keeps_tree_tidy JavaScript options_px "px" newWordTree wf_newWordTree).
Defined.

(** "bz": the font has no 'z', and still [grow] returns with the 'b'. *)
Lemma grow_stops_at_a_bare_root_witness :
  fst (grow JavaScript options_bi "bz" newWordTree) = Normal tt /\
  length (glyphs (snd (grow JavaScript options_bi "bz" newWordTree))) = 1%nat.
Proof.
  rewrite (grow_stops_at_a_bare_root JavaScript options_bi "b" "z" newWordTree glyph_b
             eq_refl eq_refl (or_intror eq_refl)).
  split; reflexivity.
Defined.

(** "it": the 't' stands at level 1 on the branch of the 'i'. *)
Lemma grow_spells_the_word_witness :
  exists levels,
    levels !! 0%nat = Some 0%nat /\
    spelled options_it JavaScript "it" (instance glyph_i)
      (snd (grow JavaScript options_it "it" newWordTree)) levels.
Proof.
  apply (grow_spells_the_word JavaScript options_it "i" "t" newWordTree glyph_i
           wf_newWordTree eq_refl eq_refl).
Defined.

End GridMore.

(** * The properties on concrete words *)

Module GridRuns.

Import Grid GridWords.

Lemma wf_new : wf (@newWordTree Path).
Proof.
  constructor; simpl.
  - constructor.
  - intros r Hr. inversion Hr.
  - discriminate.
Qed.





Lemma rejection_is_local_witness :
  let t2 := snd (prepareCandidate options_px "x" branch_p tree_p) in
  let t' := set_parents (delete 1%nat (parents t2)) t2 in
  parents t' !! 1%nat = None /\ glyphs t' = [0%nat] /\ lowestGlyph t' = None.
Proof.
  intros t2 t'.
  destruct (rejection_is_local options_px tree_p "x" branch_p 1%nat t2)
    as (_ & _ & Hp & _ & Hg & Hl).
  - vm_compute. reflexivity.
  - vm_compute. reflexivity.
  - intros r Hr. vm_compute in Hr. apply list_elem_of_singleton in Hr. subst r.
    vm_compute. lia.
  - split; [exact Hp|]. split; [exact Hg | exact Hl].
Defined.



(** "zp": the first character has no glyph; "pz": the 'z' is reached on
    the branch of the 'p'; "pxz": the 'x' is removed, the 'p' stays the
    only glyph and the 'z' is never reached. *)
Lemma glyphNotFound_iff_witness :
  grow JavaScript options_px "zp" newWordTree
  = (Throw (GlyphNotFound "z"), set_lookups [charCodeAt0 "z"] newWordTree) /\
  (exists levels,
      reachesUndefined options_px JavaScript "pz" (rootObject JavaScript glyph_p)
        (snd (grow JavaScript options_px "pz" newWordTree)) levels "z") /\
  (exists levels,
      forall char,
        ~ reachesUndefined options_px JavaScript "pxz" (rootObject JavaScript glyph_p)
            (snd (grow JavaScript options_px "pxz" newWordTree)) levels char).
Proof.
  split; [|split].
  - destruct (glyphNotFound_iff JavaScript options_px "z" "p" newWordTree
                wf_new eq_refl) as (_ & H & _).
    apply (H font_px); reflexivity.
  - destruct (glyphNotFound_iff JavaScript options_px "p" "z" newWordTree
                wf_new eq_refl) as (_ & _ & H).
    destruct (H glyph_p eq_refl) as (levels & _ & _ & _ & Hthrow & _).
    exists levels. apply Hthrow. vm_compute. reflexivity.
  - destruct (glyphNotFound_iff JavaScript options_px "p" "xz" newWordTree
                wf_new eq_refl) as (_ & _ & H).
    destruct (H glyph_p eq_refl) as (levels & _ & _ & _ & _ & Hret).
    exists levels. apply Hret. vm_compute. reflexivity.
Defined.

(** C5 as the specification words it fails: 'z' has no glyph, yet "pxz"
    grows without an error.  The 'x' runs across the branch of the 'p' and
    is removed, nothing is left to grow on, and the 'z' is never asked
    for: the tree is the single 'p'. *)
Lemma unreached_character_is_dropped :
  ~ (forall (version : Version) (options : WordTreeOptions Path) (word : string),
       let result := grow version options word newWordTree in
       fst result = Normal tt ->
       forall char, char ∈ list_ascii_of_string word ->
                    defined options (charCodeAt0 char)).
Proof.
  intros H.
  specialize (H JavaScript options_px "pxz"%string ltac:(vm_compute; reflexivity)
                "z"%char).
  assert (Hin : ("z"%char : ascii) ∈ list_ascii_of_string "pxz").
  { simpl. right. right. left. }
  specialize (H Hin). destruct H as [definition H]. vm_compute in H. discriminate.
Qed.

Lemma trunk_never_shrinks_witness :
  (trunkLength (withRoot newWordTree (N_of_ascii "i") (instance glyph_i))
   <= trunkLength (snd (grow JavaScript options_it "it" newWordTree)))%R.
Proof.
  apply (trunk_never_shrinks JavaScript options_it "i" "t" newWordTree glyph_i
           wf_new eq_refl eq_refl).
Defined.

Lemma lowestGlyph_tracks_grafted_witness :
  lowestIsLowest (snd (grow TypeScript options_it "tt" newWordTree)).
Proof.
  apply (lowestGlyph_tracks_grafted TypeScript options_it "t" "t" newWordTree glyph_t
           wf_new eq_refl eq_refl eq_refl).
Defined.

(** C8 as the specification words it fails: after "it" the lowest glyph
    is the 't', whose bottom edge is at -20, while the root reaches down
    to 10, where its trunk now starts. *)
Lemma lowestGlyph_ignores_the_root :
  ~ (forall (version : Version) (options : WordTreeOptions Path) (word : string),
       let t := snd (grow version options word newWordTree) in
       forall l gl r g,
         lowestGlyph t = Some l -> heap t !! l = Some gl ->
         r ∈ glyphs t -> heap t !! r = Some g ->
         boundsBottom g <= boundsBottom gl).
Proof.
  intros H. specialize (H TypeScript options_it "it"%string). cbv zeta in H.
  set (t := snd (grow TypeScript options_it "it" newWordTree)) in H.
  destruct (heap t !! 1%nat) as [gl|] eqn:El; [|vm_compute in El; discriminate].
  destruct (heap t !! 0%nat) as [g|] eqn:Eg; [|vm_compute in Eg; discriminate].
  specialize (H 1%nat gl 0%nat g ltac:(vm_compute; reflexivity) El
                ltac:(vm_compute; left) Eg).
  vm_compute in El, Eg. injection El as <-. injection Eg as <-.
  vm_compute in H. apply H. reflexivity.
Qed.

Lemma crossing_rule_witness :
  neverCrosses (snd (grow JavaScript options_io "io" newWordTree)).
Proof.
  apply (crossing_rule JavaScript options_io "i" "o" newWordTree glyph_i
           wf_new eq_refl eq_refl).
Defined.

(** C2 as the specification words it fails: the branch of 'o' starts at
    its trunk origin, the tip of the branch of 'i' it stands on, and comes
    back to touch that branch at its other end.  The test leaves the
    intersection at the trunk origin out and allows the touch; the 'o' is
    placed, and the pair of outlines has two intersections. *)
Lemma placed_pair_meets_twice :
  ~ (forall (version : Version) (options : WordTreeOptions Path) (word : string),
       let t := snd (grow version options word newWordTree) in
       forall i j ri rj gi gj branchA branchB,
         (i < j)%nat ->
         glyphs t !! i = Some ri -> glyphs t !! j = Some rj ->
         heap t !! ri = Some gi -> heap t !! rj = Some gj ->
         branchA ∈ branches gj -> branchB ∈ branches gi ->
         touchesAtMost (getIntersections branchA branchB)).
Proof.
  intros H. specialize (H JavaScript options_io "io"%string). cbv zeta in H.
  specialize (H 0%nat 1%nat 0%nat 1%nat).
  set (t := snd (grow JavaScript options_io "io" newWordTree)) in H.
  destruct (heap t !! 0%nat) as [gi|] eqn:Ei; [|vm_compute in Ei; discriminate].
  destruct (heap t !! 1%nat) as [gj|] eqn:Ej; [|vm_compute in Ej; discriminate].
  specialize (H gi gj [pt 0 (-20); pt 5 (-15); pt 0 (-10)] [pt 0 (-10); pt 0 (-20)]
                ltac:(lia) ltac:(vm_compute; reflexivity) ltac:(vm_compute; reflexivity)
                eq_refl eq_refl).
  vm_compute in Ei, Ej. injection Ei as <-. injection Ej as <-.
  specialize (H ltac:(left) ltac:(left)).
  vm_compute in H. destruct H as [H | (x & H & _)]; discriminate.
Qed.

End GridRuns.
